(** * FastClick middlebox and Flow Director: verification of selected properties

    The development embeds, as Rocq functions, the parts of the repository
    that the properties below talk about:

    - [FlowDir]: the Flow Director rule cache of [lib/dpdkdevice.cc]
      ([flow_rule_get], [flow_rule_delete], [flow_rules_count],
      [flow_rules_flush], [memory_clean]);
    - [IPElem]: the IP helpers of [elements/middlebox/ipelement.cc];
    - [HTTP]: the request dispatcher [HTTPServer::ahc_echo] of
      [elements/userlevel/httpserver.cc];
    - [Maintainer], [ModList]: the byte stream maintainer and the
      modification list. Their implementation files
      (bytestreammaintainer.cc, modificationlist.cc) are not in the tree;
      they are modelled from the specification, and every definition
      obtained that way says so;
    - [FlowDirFacts], [HTTPFacts], [IPElemFacts]: further properties of the
      three embeddings above;
    - [DPDKQueues]: [set_slot] and [DPDKDevice::add_queue] of
      [lib/dpdkdevice.cc];
    - [PCIArg]: [DPDKDeviceArg::parse] of [lib/dpdkdevice.cc]. *)

From Stdlib Require Import ZArith List Bool Lia.
From Stdlib Require Import Strings.Byte Sorting.Sorted.
From stdpp Require Import base option list gmap.

Local Open Scope Z_scope.

(* ===================================================================== *)
(** * Flow Director ([lib/dpdkdevice.cc]) *)
(* ===================================================================== *)

Module FlowDir.

(** [struct port_flow]: the software image of an installed rule. Only the two
    members the code reads are kept: the rule identifier and the handle of the
    rule inside the NIC ([struct rte_flow *flow]). *)
Record port_flow := PortFlow { rule_id : Z; flow : Z }.

(** Heap addresses of [port_flow] objects. A [struct port_flow *] is either
    the null pointer ([None]) or an address ([Some l]); an address may dangle. *)
Definition loc := positive.
Definition ptr := option loc.
Definition NULL : ptr := None.

(** The members of a [FlowDirector] instance that the functions use. *)
Record FlowDirector := MkFlowDirector {
  _port_id : Z;
  _active : bool;
  _verbose : bool;
  _rule_list : list ptr          (* Vector<struct port_flow *> *)
}.

(** What the code hands to the error handler and to DPDK, in program order. *)
Inductive event :=
| MsgRuleNotFound (port rule : Z)          (* _errh->error("... not found") *)
| MsgRuleDestroyed (port rule : Z)         (* _errh->message("... destroyed") *)
| MsgNothingToFlush (port : Z)
| MsgNicFlushed (port : Z)
| MsgNothingToClean (port : Z)
| MsgFlushedFromMemory (port n : Z)
| MsgComplain (port : Z)                   (* flow_rule_complain's report *)
| CallFlowDestroy (port handle : Z)        (* rte_flow_destroy(port, flow, &error) *)
| CallFlowFlush (port : Z).                (* rte_flow_flush(port, &error) *)

(** The process state: the static table [_dev_flow_dir], the heap of rule
    objects and the trace of events. A port that is absent from the table
    stands for a key that [operator[]] would default-insert with a null
    [FlowDirector *]. *)
Record world := World {
  dev_flow_dir : gmap Z FlowDirector;
  heap : gmap loc port_flow;
  trace : list event
}.

(** C++ undefined behaviour made explicit. *)
Inductive fault :=
| NullFlowDirector        (* _dev_flow_dir[port_id]-> on a null entry *)
| NullRule                (* p->rule_id with p == NULL *)
| DanglingRule            (* p->rule_id with p already deleted *)
| InvalidDelete.          (* delete p with p not (or no longer) allocated *)

Inductive outcome (A : Type) :=
| Ret (a : A)
| Fault (f : fault).
Arguments Ret {A} a.
Arguments Fault {A} f.

(** A small state-and-fault monad. *)
Definition M (A : Type) := world -> outcome (A * world).

Definition ret {A} (a : A) : M A := fun w => Ret (a, w).
Definition bind {A B} (m : M A) (k : A -> M B) : M B :=
  fun w => match m w with
           | Ret (a, w') => k a w'
           | Fault f => Fault f
           end.

#[global] Instance M_ret : MRet M := @ret.
#[global] Instance M_bind : MBind M := fun A B k m => bind m k.

Definition emit (e : event) : M unit :=
  fun w => Ret (tt, World (dev_flow_dir w) (heap w) (trace w ++ [e])).

Definition when (b : bool) (m : M unit) : M unit := if b then m else ret tt.

(** [_dev_flow_dir[port_id]->...]: read the Flow Director of a port. *)
Definition dev (port_id : Z) : M FlowDirector :=
  fun w => match dev_flow_dir w !! port_id with
           | Some fd => Ret (fd, w)
           | None => Fault NullFlowDirector
           end.

(** [p->...] on a rule pointer. *)
Definition deref (p : ptr) : M port_flow :=
  fun w => match p with
           | None => Fault NullRule
           | Some l => match heap w !! l with
                       | Some r => Ret (r, w)
                       | None => Fault DanglingRule
                       end
           end.

(** [delete p] for a non-null [p]. *)
Definition delete_rule (l : loc) : M unit :=
  fun w => match heap w !! l with
           | Some _ => Ret (tt, World (dev_flow_dir w) (delete l (heap w)) (trace w))
           | None => Fault InvalidDelete
           end.

Definition uint32 (z : Z) : Z := z mod 2 ^ 32.

Section Functions.

(** The DPDK calls are external: their results are parameters. *)
Variable rte_flow_destroy : Z -> Z -> Z.   (* port, handle |-> int *)
Variable rte_flow_flush : Z -> Z.          (* port |-> int *)
Variable rte_errno : Z.

(** The search loop of [flow_rule_get]:
    [for (i = 0; i < port_rules.size(); i++)
       if (rule_id == port_rules[i]->rule_id) return port_rules[i];] *)
Fixpoint flow_rule_search (rid : Z) (port_rules : list ptr) : M ptr :=
  match port_rules with
  | [] => ret NULL
  | p :: rest =>
      r ← deref p;
      if rid =? rule_id r then ret p else flow_rule_search rid rest
  end.

(** [Vector::empty()]. *)
Definition is_empty {A} (v : list A) : bool :=
  match v with [] => true | _ => false end.

Definition flow_rule_get (port_id rid : Z) : M ptr :=
  fd ← dev port_id;
  let port_rules := _rule_list fd in
  if negb (is_empty port_rules) then ret NULL
  else flow_rule_search rid port_rules.

Definition flow_rule_complain (port_id : Z) : M Z :=
  emit (MsgComplain port_id);; ret (- rte_errno).

Definition flow_rule_delete (port_id rid : Z) : M bool :=
  fd ← dev port_id;
  if negb (_active fd) then ret false
  else
    flow_rule ← flow_rule_get port_id rid;
    match flow_rule with
    | None => emit (MsgRuleNotFound port_id rid);; ret false
    | Some l =>
        r ← deref (Some l);
        emit (CallFlowDestroy port_id (flow r));;
        if rte_flow_destroy port_id (flow r) <? 0
        then flow_rule_complain port_id;; ret false
        else
          emit (MsgRuleDestroyed port_id (rule_id r));;
          delete_rule l;;
          ret true
    end.

Definition flow_rules_count (port_id : Z) : M Z :=
  fd ← dev port_id;
  if negb (_active fd) then ret 0
  else
    let port_rules := _rule_list fd in
    ret (uint32 (Z.of_nat (length port_rules))).

(** The loop of [memory_clean] over the local copy of the vector. *)
Fixpoint delete_rules (port_rules : list ptr) (rules_flushed : Z) : M Z :=
  match port_rules with
  | [] => ret rules_flushed
  | None :: rest => delete_rules rest rules_flushed
  | Some l :: rest =>
      delete_rule l;; delete_rules rest (uint32 (rules_flushed + 1))
  end.

Definition memory_clean (port_id : Z) : M Z :=
  fd ← dev port_id;
  let port_rules := _rule_list fd in
  if is_empty port_rules then
    when (_verbose fd) (emit (MsgNothingToClean port_id));; ret 0
  else
    rules_flushed ← delete_rules port_rules 0;
    (* port_rules.clear() empties the local copy, which is then dropped *)
    let port_rules := @nil ptr in
    fd ← dev port_id;
    when (_verbose fd) (emit (MsgFlushedFromMemory port_id rules_flushed));;
    ret rules_flushed.

Definition flow_rules_flush (port_id : Z) : M Z :=
  fd ← dev port_id;
  if negb (_active fd) then
    when (_verbose fd) (emit (MsgNothingToFlush port_id));; ret 0
  else
    let port_rules := _rule_list fd in
    if is_empty port_rules then
      when (_verbose fd) (emit (MsgNothingToFlush port_id));; ret 0
    else
      emit (CallFlowFlush port_id);;
      if negb (rte_flow_flush port_id =? 0) then
        r ← flow_rule_complain port_id; ret (uint32 r)
      else
        when (_verbose fd) (emit (MsgNicFlushed port_id));;
        memory_clean port_id.

End Functions.

(** The events that ask the NIC to destroy a rule. *)
Definition is_destroy (e : event) : bool :=
  match e with CallFlowDestroy _ _ => true | _ => false end.

(** A port with one installed rule, identifier 7, stored at address 1. *)
Definition fd_one_rule : FlowDirector := MkFlowDirector 0 true true [Some 1%positive].
Definition world_one_rule : world :=
  World {[ 0 := fd_one_rule ]} {[ 1%positive := PortFlow 7 42 ]} [].

(** The rule pointers of a vector can all be deleted, one after the other:
    each non-null pointer is allocated and occurs once. *)
Fixpoint deletable (port_rules : list ptr) (h : gmap loc port_flow) : Prop :=
  match port_rules with
  | [] => True
  | None :: rest => deletable rest h
  | Some l :: rest => is_Some (h !! l) /\ (Some l ∉ rest) /\ deletable rest h
  end.

(** Three rules on port 0, at addresses 1, 2 and 3, and a null entry. *)
Definition fd_three_rules : FlowDirector :=
  MkFlowDirector 0 true false [Some 1%positive; None; Some 2%positive; Some 3%positive].
Definition world_three_rules : world :=
  World {[ 0 := fd_three_rules ]}
        {[ 1%positive := PortFlow 10 100; 2%positive := PortFlow 11 101;
           3%positive := PortFlow 12 102 ]} [].

(** ** Reasoning principles for the monad *)

Lemma bind_ret_inv {A B} (m : M A) (k : A -> M B) w b w' :
  (m ≫= k) w = Ret (b, w') ->
  exists a w1, m w = Ret (a, w1) /\ k a w1 = Ret (b, w').
Proof.
  unfold mbind, M_bind, bind. destruct (m w) as [[a w1]|f]; [|discriminate].
  intros H. exists a, w1. split; [reflexivity | exact H].
Qed.

Lemma bind_ret_intro {A B} (m : M A) (k : A -> M B) w a w1 :
  m w = Ret (a, w1) -> (m ≫= k) w = k a w1.
Proof. unfold mbind, M_bind, bind. intros ->. reflexivity. Qed.

Lemma bind_fault {A B} (m : M A) (k : A -> M B) w f :
  m w = Fault f -> (m ≫= k) w = Fault f.
Proof. unfold mbind, M_bind, bind. intros ->. reflexivity. Qed.

Lemma dev_registered port w fd :
  dev_flow_dir w !! port = Some fd -> dev port w = Ret (fd, w).
Proof. unfold dev. intros ->. reflexivity. Qed.

Lemma dev_ret_inv port w fd w' :
  dev port w = Ret (fd, w') -> dev_flow_dir w !! port = Some fd /\ w' = w.
Proof.
  unfold dev. destruct (dev_flow_dir w !! port); [|discriminate].
  intros [= -> ->]. split; reflexivity.
Qed.

Lemma dev_unregistered port w :
  dev_flow_dir w !! port = None -> dev port w = Fault NullFlowDirector.
Proof. unfold dev. intros ->. reflexivity. Qed.

(** ** [flow_rule_get] *)

(** With a Flow Director on the port the lookup answers the null pointer and
    touches nothing, whatever the rule list holds. *)
Lemma flow_rule_get_registered port rid w fd :
  dev_flow_dir w !! port = Some fd ->
  flow_rule_get port rid w = Ret (NULL, w).
Proof.
  intros Hfd. unfold flow_rule_get.
  rewrite (bind_ret_intro _ _ _ _ _ (dev_registered _ _ _ Hfd)).
  destruct (_rule_list fd) as [|p rest]; reflexivity.
Qed.

Lemma flow_rule_get_unregistered port rid w :
  dev_flow_dir w !! port = None ->
  flow_rule_get port rid w = Fault NullFlowDirector.
Proof.
  intros Hfd. unfold flow_rule_get.
  apply bind_fault, dev_unregistered, Hfd.
Qed.

(** C1. [flow_rule_get] never hands out a rule object. Whenever the call
    returns, it returns the null pointer; and it does return, with the null
    pointer and an unchanged state, on every port that has a Flow Director,
    for every rule identifier, whether or not a rule with that identifier is
    in the port's rule list. *)
Theorem flow_rule_get_always_null (port rid : Z) (w : world) :
  (forall p w', flow_rule_get port rid w = Ret (p, w') -> p = NULL /\ w' = w) /\
  (forall fd, dev_flow_dir w !! port = Some fd ->
              flow_rule_get port rid w = Ret (NULL, w)).
Proof.
  split.
  - intros p w' H.
    destruct (dev_flow_dir w !! port) as [fd|] eqn:Hfd.
    + rewrite (flow_rule_get_registered _ _ _ _ Hfd) in H.
      injection H as <- <-. split; reflexivity.
    + rewrite (flow_rule_get_unregistered _ _ _ Hfd) in H. discriminate.
  - intros fd Hfd. exact (flow_rule_get_registered _ _ _ _ Hfd).
Qed.

(** The rule with identifier 7 is in the list of port 0, and asking for it
    yields the null pointer. *)
Lemma flow_rule_get_always_null_witness :
  flow_rule_search 7 (_rule_list fd_one_rule) world_one_rule
    = Ret (Some 1%positive, world_one_rule) /\
  flow_rule_get 0 7 world_one_rule = Ret (NULL, world_one_rule).
Proof.
  split; [reflexivity|].
  apply (proj2 (flow_rule_get_always_null 0 7 world_one_rule) fd_one_rule).
  reflexivity.
Defined.

(** ** [flow_rule_delete] *)

Section Delete.

Variable rte_flow_destroy : Z -> Z -> Z.
Variable rte_errno : Z.

#[local] Abbreviation flow_rule_delete :=
  (flow_rule_delete rte_flow_destroy rte_errno).

(** What a call on a port with a Flow Director does. *)
Lemma flow_rule_delete_registered port rid w fd :
  dev_flow_dir w !! port = Some fd ->
  flow_rule_delete port rid w =
    Ret (false,
         if _active fd
         then World (dev_flow_dir w) (heap w) (trace w ++ [MsgRuleNotFound port rid])
         else w).
Proof.
  intros Hfd. unfold FlowDir.flow_rule_delete.
  rewrite (bind_ret_intro _ _ _ _ _ (dev_registered _ _ _ Hfd)).
  destruct (_active fd); simpl; [|reflexivity].
  rewrite (bind_ret_intro _ _ _ _ _ (flow_rule_get_registered _ rid _ _ Hfd)).
  reflexivity.
Qed.

Lemma flow_rule_delete_unregistered port rid w :
  dev_flow_dir w !! port = None ->
  flow_rule_delete port rid w = Fault NullFlowDirector.
Proof.
  intros Hfd. unfold FlowDir.flow_rule_delete.
  apply bind_fault, dev_unregistered, Hfd.
Qed.

(** C9. [flow_rule_delete] answers [false] and destroys nothing. On a port
    with a Flow Director the call returns [false]: at once and without any
    effect when the director is inactive, and through the rule-not-found
    report when it is active. No call ever returns [true], frees a rule
    object, changes a rule list or reaches [rte_flow_destroy]. *)
Theorem flow_rule_delete_always_false (port rid : Z) (w : world) :
  (forall fd, dev_flow_dir w !! port = Some fd ->
     exists w', flow_rule_delete port rid w = Ret (false, w') /\
       trace w' = trace w ++
                  (if _active fd then [MsgRuleNotFound port rid] else [])) /\
  (forall b w', flow_rule_delete port rid w = Ret (b, w') ->
     b = false /\ heap w' = heap w /\ dev_flow_dir w' = dev_flow_dir w /\
     filter is_destroy (trace w') = filter is_destroy (trace w)).
Proof.
  split.
  - intros fd Hfd. rewrite (flow_rule_delete_registered _ _ _ _ Hfd).
    eexists. split; [reflexivity|].
    destruct (_active fd); simpl; [reflexivity|].
    symmetry. apply app_nil_r.
  - intros b w' H.
    destruct (dev_flow_dir w !! port) as [fd|] eqn:Hfd.
    + rewrite (flow_rule_delete_registered _ _ _ _ Hfd) in H.
      injection H as <- <-.
      destruct (_active fd); simpl; repeat split; try reflexivity.
      rewrite filter_app. simpl. apply app_nil_r.
    + rewrite (flow_rule_delete_unregistered _ _ _ Hfd) in H. discriminate.
Qed.

End Delete.

(** The rule 7 of [world_one_rule] cannot be deleted: the call reports that it
    was not found. *)
Lemma flow_rule_delete_always_false_witness :
  exists w', flow_rule_delete (fun _ _ => 0) 0 0 7 world_one_rule = Ret (false, w') /\
             trace w' = [MsgRuleNotFound 0 7].
Proof.
  apply (proj1 (flow_rule_delete_always_false (fun _ _ => 0) 0 0 7 world_one_rule)
               fd_one_rule).
  reflexivity.
Defined.

(** ** [memory_clean], [flow_rules_flush] and [flow_rules_count] *)

Lemma when_emit_inv b e w u w' :
  when b (emit e) w = Ret (u, w') ->
  dev_flow_dir w' = dev_flow_dir w /\ heap w' = heap w.
Proof.
  destruct b; cbv [when emit ret]; intros [= ?]; subst w'; split; reflexivity.
Qed.

(** The deleting loop leaves the table alone, frees every non-null pointer of
    the vector and keeps every other object. *)
Lemma delete_rules_inv port_rules : forall n w n' w',
  delete_rules port_rules n w = Ret (n', w') ->
  dev_flow_dir w' = dev_flow_dir w /\
  trace w' = trace w /\
  (forall l, Some l ∈ port_rules -> heap w' !! l = None) /\
  (forall l, Some l ∉ port_rules -> heap w' !! l = heap w !! l).
Proof.
  induction port_rules as [|[l0|] rest IH]; intros n w n' w' H; simpl in H.
  - injection H as <- <-. repeat split; try reflexivity.
    intros l Hl. inversion Hl.
  - apply bind_ret_inv in H as ([] & w1 & Hd & H).
    unfold delete_rule in Hd.
    destruct (heap w !! l0) eqn:Hl0; [|discriminate].
    injection Hd as <-.
    apply IH in H as (Hdev & Htr & Hfree & Hkeep). simpl in *.
    repeat split; try assumption.
    + intros l Hl. destruct (decide (Some l ∈ rest)) as [Hin|Hnin].
      * apply Hfree, Hin.
      * rewrite (Hkeep l Hnin).
        apply elem_of_cons in Hl as [[= ->]|Hl]; [|contradiction].
        apply lookup_delete_eq.
    + intros l Hl. apply not_elem_of_cons in Hl as [Hne Hl].
      rewrite (Hkeep l Hl). apply lookup_delete_ne. congruence.
  - apply IH in H as (Hdev & Htr & Hfree & Hkeep).
    repeat split; try assumption.
    + intros l Hl. apply elem_of_cons in Hl as [[=]|Hl]. apply Hfree, Hl.
    + intros l Hl. apply not_elem_of_cons in Hl as [_ Hl]. apply Hkeep, Hl.
Qed.

(** On a vector of valid, distinct pointers the loop runs to its end. *)
Lemma delete_rules_returns port_rules : forall n w,
  deletable port_rules (heap w) ->
  exists n' w', delete_rules port_rules n w = Ret (n', w').
Proof.
  induction port_rules as [|[l0|] rest IH]; intros n w Hok; simpl in *.
  - eexists _, _. reflexivity.
  - destruct Hok as ([r Hr] & Hnin & Hrest).
    assert (Hd : delete_rule l0 w =
                 Ret (tt, World (dev_flow_dir w) (delete l0 (heap w)) (trace w))).
    { unfold delete_rule. rewrite Hr. reflexivity. }
    rewrite (bind_ret_intro _ _ _ _ _ Hd).
    apply IH. simpl. clear -Hnin Hrest.
    induction rest as [|[l|] rest IHr]; simpl in *; [exact I| |].
    + apply not_elem_of_cons in Hnin as [Hne Hnin].
      destruct Hrest as ([r Hr] & Hn & Hrest).
      repeat split; [|assumption|apply IHr; assumption].
      exists r. rewrite lookup_delete_ne; [assumption|congruence].
    + apply not_elem_of_cons in Hnin as [_ Hnin]. apply IHr; assumption.
  - apply IH, Hok.
Qed.

Lemma memory_clean_inv port w n w' :
  memory_clean port w = Ret (n, w') ->
  exists fd, dev_flow_dir w !! port = Some fd /\
    dev_flow_dir w' = dev_flow_dir w /\
    (forall l, Some l ∈ _rule_list fd -> heap w' !! l = None).
Proof.
  unfold memory_clean. intros H.
  apply bind_ret_inv in H as (fd & w1 & Hd & H).
  apply dev_ret_inv in Hd as [Hfd ->]. exists fd. split; [assumption|].
  destruct (_rule_list fd) as [|p rest] eqn:Hl; cbn [is_empty] in H.
  - apply bind_ret_inv in H as ([] & w1 & Hw & H). injection H as <- <-.
    apply when_emit_inv in Hw as [Hdev _]. split; [assumption|].
    intros l Hin. inversion Hin.
  - apply bind_ret_inv in H as (k & w1 & Hdel & H).
    apply delete_rules_inv in Hdel as (Hdev & _ & Hfree & _).
    apply bind_ret_inv in H as (fd' & w2 & Hd & H).
    apply dev_ret_inv in Hd as [_ ->].
    apply bind_ret_inv in H as ([] & w3 & Hw & H). injection H as <- <-.
    apply when_emit_inv in Hw as [Hdev' Hheap]. split; [congruence|].
    intros l Hin. rewrite Hheap. apply Hfree, Hin.
Qed.

Lemma flow_rules_count_registered port w fd :
  dev_flow_dir w !! port = Some fd ->
  flow_rules_count port w =
    Ret (if _active fd then uint32 (Z.of_nat (length (_rule_list fd))) else 0, w).
Proof.
  intros Hfd. unfold flow_rules_count.
  rewrite (bind_ret_intro _ _ _ _ _ (dev_registered _ _ _ Hfd)).
  destruct (_active fd); reflexivity.
Qed.

Lemma flow_rules_flush_inv rte_flow_flush rte_errno port w n w' :
  flow_rules_flush rte_flow_flush rte_errno port w = Ret (n, w') ->
  dev_flow_dir w' = dev_flow_dir w.
Proof.
  unfold flow_rules_flush. intros H.
  apply bind_ret_inv in H as (fd & w1 & Hd & H).
  apply dev_ret_inv in Hd as [Hfd ->].
  destruct (_active fd); cbn [negb] in H.
  - destruct (is_empty (_rule_list fd)).
    + apply bind_ret_inv in H as ([] & w1 & Hw & H). injection H as <- <-.
      apply when_emit_inv in Hw as [Hdev _]. assumption.
    + apply bind_ret_inv in H as ([] & w1 & He & H).
      injection He as <-.
      destruct (negb (rte_flow_flush port =? 0)).
      * apply bind_ret_inv in H as (r & w2 & Hc & H). injection H as <- <-.
        unfold flow_rule_complain in Hc.
        apply bind_ret_inv in Hc as ([] & w3 & He & Hc).
        injection He as <-. injection Hc as <- <-. reflexivity.
      * apply bind_ret_inv in H as ([] & w2 & Hw & H).
        apply when_emit_inv in Hw as [Hdev _].
        apply memory_clean_inv in H as (fd' & _ & Hdev' & _).
        rewrite Hdev', Hdev. reflexivity.
  - apply bind_ret_inv in H as ([] & w1 & Hw & H). injection H as <- <-.
    apply when_emit_inv in Hw as [Hdev _]. assumption.
Qed.

(** C10. [memory_clean] works on a copy of the rule vector. On a port with a
    Flow Director whose rule pointers are valid and distinct it returns; and
    whenever it returns, every rule object the vector points to has been
    deleted while the table entry of the port, hence its stored [_rule_list]
    and the size of that list, is what it was. The same holds for the table
    after [flow_rules_flush], so that [flow_rules_count] gives the same
    answer after the cleaning, and after the flush, as before. *)
Theorem memory_clean_keeps_rule_list
    (rte_flow_flush : Z -> Z) (rte_errno : Z) (port : Z) (w : world)
    (fd : FlowDirector) :
  dev_flow_dir w !! port = Some fd ->
  (deletable (_rule_list fd) (heap w) ->
     exists n w', memory_clean port w = Ret (n, w')) /\
  (forall n w', memory_clean port w = Ret (n, w') ->
     (forall l, Some l ∈ _rule_list fd -> heap w' !! l = None) /\
     _rule_list <$> (dev_flow_dir w' !! port) = Some (_rule_list fd)) /\
  (forall n w',
     memory_clean port w = Ret (n, w') \/
     flow_rules_flush rte_flow_flush rte_errno port w = Ret (n, w') ->
     exists c, flow_rules_count port w = Ret (c, w) /\
               flow_rules_count port w' = Ret (c, w') /\
               (_active fd = true ->
                c = uint32 (Z.of_nat (length (_rule_list fd))))).
Proof.
  intros Hfd. split; [|split].
  - intros Hok. unfold memory_clean.
    rewrite (bind_ret_intro _ _ _ _ _ (dev_registered _ _ _ Hfd)).
    destruct (_rule_list fd) as [|p rest] eqn:Hl; cbn [is_empty].
    + destruct (_verbose fd); eexists _, _; reflexivity.
    + destruct (delete_rules_returns (p :: rest) 0 w Hok) as (k & w1 & Hdel).
      rewrite (bind_ret_intro _ _ _ _ _ Hdel).
      apply delete_rules_inv in Hdel as (Hdev & _).
      assert (Hfd1 : dev_flow_dir w1 !! port = Some fd) by (rewrite Hdev; exact Hfd).
      rewrite (bind_ret_intro _ _ _ _ _ (dev_registered _ _ _ Hfd1)).
      destruct (_verbose fd); eexists _, _; reflexivity.
  - intros n w' H.
    apply memory_clean_inv in H as (fd' & Hfd' & Hdev & Hfree).
    assert (fd' = fd) as -> by congruence.
    split; [exact Hfree|]. rewrite Hdev, Hfd. reflexivity.
  - intros n w' H.
    assert (Hdev : dev_flow_dir w' = dev_flow_dir w).
    { destruct H as [H|H].
      - apply memory_clean_inv in H as (_ & _ & Hdev & _). exact Hdev.
      - apply flow_rules_flush_inv in H. exact H. }
    assert (Hfd' : dev_flow_dir w' !! port = Some fd) by (rewrite Hdev; exact Hfd).
    eexists. split; [apply flow_rules_count_registered, Hfd|].
    split; [apply flow_rules_count_registered, Hfd'|].
    intros ->. reflexivity.
Qed.

(** Cleaning the three rules of [world_three_rules] empties the heap and
    leaves the stored vector with its four entries. *)
Lemma memory_clean_keeps_rule_list_witness :
  memory_clean 0 world_three_rules = Ret (3, World {[ 0 := fd_three_rules ]} ∅ []) /\
  (forall n w', memory_clean 0 world_three_rules = Ret (n, w') ->
     (forall l, Some l ∈ _rule_list fd_three_rules -> heap w' !! l = None) /\
     _rule_list <$> (dev_flow_dir w' !! 0) = Some (_rule_list fd_three_rules)).
Proof.
  split; [vm_compute; reflexivity|].
  apply (memory_clean_keeps_rule_list (fun _ => 0) 0 0 world_three_rules fd_three_rules).
  reflexivity.
Defined.

End FlowDir.

(* ===================================================================== *)
(** * IP helpers ([elements/middlebox/ipelement.cc]) *)
(* ===================================================================== *)

Module IPElem.

(** ** Bytes and 16-bit words *)

Definition Z_of_byte (b : byte) : Z := Z.of_N (Byte.to_N b).

Definition byte_of_Z (z : Z) : byte :=
  match Byte.of_N (Z.to_N (z mod 256)) with
  | Some b => b
  | None => Byte.x00
  end.

(** [uint16_t] conversion of an [unsigned]. *)
Definition uint16 (z : Z) : Z := z mod 2 ^ 16.
Definition uint32 (z : Z) : Z := z mod 2 ^ 32.

(** A packet: its buffer and the offset of the network (IP) header in it, as
    [Packet::ip_header()] gives it. *)
Record Packet := MkPacket {
  buffer : list byte;
  ip_header : nat
}.

(** Modelled from the spec: [struct click_ip] (clicknet/ip.h is not in the
    tree). The packets are IPv4, so the members the helpers touch are taken
    at their byte offsets in the IPv4 header; the first byte holds the
    version in its high and [ip_hl] in its low four bits. *)
Definition off_ip_hl : nat := 0.
Definition off_ip_len : nat := 2.
Definition off_ip_sum : nat := 10.

(** Modelled from the spec: the end of the standard one's-complement
    algorithm, as [click_in_cksum] needs it: the carries above bit 15 are
    added back in, twice, and the 16-bit result is complemented. *)
Definition fold_complement (sum : Z) : Z :=
  let sum := Z.shiftr sum 16 + Z.land sum 0xffff in
  let sum := sum + Z.shiftr sum 16 in
  Z.land (Z.lnot sum) 0xffff.

Section Host.

(** Byte order of the machine the element runs on. *)
Variable host_big_endian : bool.

(** The 16-bit value the host reads from two consecutive bytes. *)
Definition word16 (b0 b1 : byte) : Z :=
  if host_big_endian then Z_of_byte b0 * 256 + Z_of_byte b1
  else Z_of_byte b1 * 256 + Z_of_byte b0.

(** The two bytes the host writes for a 16-bit value. *)
Definition bytes16 (v : Z) : byte * byte :=
  if host_big_endian then (byte_of_Z (v / 256), byte_of_Z v)
  else (byte_of_Z v, byte_of_Z (v / 256)).

(** [htons] and [ntohs]: the identity on a big-endian host, a swap of the two
    bytes on a little-endian one. *)
Definition bswap16 (v : Z) : Z := (v mod 256) * 256 + (v / 256) mod 256.
Definition htons (v : Z) : Z := if host_big_endian then uint16 v else bswap16 v.
Definition ntohs (v : Z) : Z := if host_big_endian then uint16 v else bswap16 v.

(** Reads and writes through the header pointer. An access that leaves the
    buffer has no defined result: [None]. *)
Definition load8 (p : Packet) (off : nat) : option Z :=
  Z_of_byte <$> buffer p !! (ip_header p + off)%nat.

Definition load16 (p : Packet) (off : nat) : option Z :=
  b0 ← buffer p !! (ip_header p + off)%nat;
  b1 ← buffer p !! (ip_header p + off + 1)%nat;
  Some (word16 b0 b1).

Definition store16 (p : Packet) (off : nat) (v : Z) : option Packet :=
  if decide (ip_header p + off + 1 < length (buffer p))%nat then
    let '(b0, b1) := bytes16 v in
    Some (MkPacket (<[(ip_header p + off + 1)%nat := b1]>
                      (<[(ip_header p + off)%nat := b0]> (buffer p)))
                   (ip_header p))
  else None.

(** [len] bytes starting at the header. *)
Definition header_bytes (p : Packet) (len : nat) : option (list byte) :=
  let bs := take len (drop (ip_header p) (buffer p)) in
  if decide (length bs = len) then Some bs else None.

(** ** The Internet checksum *)

(** Modelled from the spec: the summing loop of [click_in_cksum] (Click's
    lib/in_cksum.c is not in the tree). The 16-bit words of a byte string
    are added as the host reads them; an odd last byte is completed with a
    zero byte. *)
Fixpoint sum_words (bs : list byte) : Z :=
  match bs with
  | b0 :: b1 :: rest => word16 b0 b1 + sum_words rest
  | [b0] => word16 b0 Byte.x00
  | [] => 0
  end.

(** Modelled from the spec: [click_in_cksum] (Click's lib/in_cksum.c) is not
    in the tree. The spec calls it the standard one's-complement algorithm:
    add the 16-bit words, fold the carries back in twice, and complement. *)
Definition click_in_cksum (bs : list byte) : Z :=
  fold_complement (sum_words bs).

(** ** The helpers *)

Definition packetTotalLength (packet : Packet) : option Z :=
  ip_len ← load16 packet off_ip_len;
  Some (ntohs ip_len).

Definition setPacketTotalLength (packet : Packet) (length : Z) : option Packet :=
  store16 packet off_ip_len (htons (uint16 length)).

Definition computeChecksum (packet : Packet) : option Packet :=
  ip_len ← load16 packet off_ip_len;
  b0 ← load8 packet off_ip_hl;
  let ip_hl := Z.land b0 15 in
  let plen := uint32 (ntohs ip_len - Z.shiftl ip_hl 2) in   (* computed, never used *)
  let hlen := Z.shiftl ip_hl 2 in
  packet ← store16 packet off_ip_sum 0;
  hdr ← header_bytes packet (Z.to_nat hlen);
  store16 packet off_ip_sum (click_in_cksum hdr).

(** [ip_hl] of the header, and what makes the header a valid one: a header
    length of at least five words that the buffer holds in full. *)
Definition ip_hl (p : Packet) : option Z :=
  b0 ← load8 p off_ip_hl; Some (Z.land b0 15).

Definition valid_ip_header (p : Packet) (hl : Z) : Prop :=
  ip_hl p = Some hl /\ 5 <= hl /\
  (ip_header p + Z.to_nat (4 * hl) <= length (buffer p))%nat.

(** The [4 * hl] bytes of the header of [p] with the two bytes of [ip_sum]
    cleared: what the checksum is folded over. *)
Definition header_sum_cleared (p : Packet) (hl : Z) : list byte :=
  take (Z.to_nat (4 * hl))
       (drop (ip_header p)
             (<[(ip_header p + 11)%nat := Byte.x00]>
                (<[(ip_header p + 10)%nat := Byte.x00]> (buffer p)))).

End Host.

(** A 24-byte buffer: four bytes of link header and a 20-byte IPv4 header
    (version 4, [ip_hl] 5, total length 20, TTL 64, protocol 6,
    10.0.0.1 -> 10.0.0.2) whose checksum field holds a stale value. *)
Definition sample_packet : Packet :=
  MkPacket [xaa; xbb; x08; x00;
            x45; x00; x00; x14; x00; x01; x00; x00; x40; x06; xde; xad;
            x0a; x00; x00; x01; x0a; x00; x00; x02] 4.

(** ** Arithmetic of bytes and words *)

Lemma Z_of_byte_range b : 0 <= Z_of_byte b < 256.
Proof.
  unfold Z_of_byte. pose proof (Byte.to_N_bounded b). lia.
Qed.

Lemma Z_of_byte_of_Z z : Z_of_byte (byte_of_Z z) = z mod 256.
Proof.
  unfold Z_of_byte, byte_of_Z.
  assert (Hr : 0 <= z mod 256 < 256) by (apply Z.mod_pos_bound; lia).
  destruct (Byte.of_N (Z.to_N (z mod 256))) as [b|] eqn:Hb.
  - apply Byte.to_of_N in Hb. rewrite Hb. lia.
  - apply Byte.of_N_None_iff in Hb. lia.
Qed.

(** ** Arithmetic of the checksum *)

Lemma land_ffff x : Z.land x 0xffff = x mod 65536.
Proof. change 0xffff with (Z.ones 16). apply Z.land_ones. lia. Qed.

(** [65535 - fold_complement s] is [s] reduced modulo 65535 into
    [0 .. 65535], and is 0 only for [s = 0]. *)
Lemma fold_complement_spec s :
  0 <= s < 2147483648 ->
  exists k, 0 <= k /\ 0 <= 65535 - fold_complement s <= 65535 /\
            65535 - fold_complement s = s - 65535 * k /\
            (0 < s -> 0 < 65535 - fold_complement s).
Proof.
  intros Hs. unfold fold_complement. cbv zeta.
  rewrite !land_ffff. rewrite !Z.shiftr_div_pow2 by lia.
  unfold Z.lnot. change (2 ^ 16) with 65536 in *.
  set (q := s / 65536). set (r := s mod 65536).
  assert (Hqr : s = 65536 * q + r) by (apply Z.div_mod; lia).
  assert (Hr : 0 <= r < 65536) by (apply Z.mod_pos_bound; lia).
  assert (Hq : 0 <= q < 32768)
    by (split; [apply Z.div_pos; lia | apply Z.div_lt_upper_bound; lia]).
  clearbody q r.
  destruct (Z_lt_le_dec (q + r) 65536) as [Hlt|Hge].
  - rewrite (Z.div_small (q + r)) by lia.
    replace (Z.pred (- (q + r + 0))) with (65535 - (q + r) + (-1) * 65536) by lia.
    rewrite Z.mod_add by lia. rewrite Z.mod_small by lia.
    exists q. lia.
  - replace ((q + r) / 65536) with 1
      by (apply Z.div_unique with (r := q + r - 65536); lia).
    replace (Z.pred (- (q + r + 1))) with (65535 - (q + r - 65535) + (-2) * 65536) by lia.
    rewrite Z.mod_add by lia. rewrite Z.mod_small by lia.
    exists (q + 1). lia.
Qed.

(** A sum completed with its own folded complement folds to zero. *)
Lemma fold_complement_verifies s :
  0 <= s < 1073741824 -> fold_complement (s + fold_complement s) = 0.
Proof.
  intros Hs.
  destruct (fold_complement_spec s ltac:(lia)) as (k & Hk & Hr & Heq & Hpos).
  destruct (fold_complement_spec (s + fold_complement s) ltac:(lia))
    as (k' & Hk' & Hr' & Heq' & Hpos').
  assert (H : 0 < s + fold_complement s) by lia.
  specialize (Hpos' H). lia.
Qed.

Section HostFacts.

Variable be : bool.

Lemma word16_range b0 b1 : 0 <= word16 be b0 b1 < 2 ^ 16.
Proof.
  pose proof (Z_of_byte_range b0). pose proof (Z_of_byte_range b1).
  unfold word16. destruct be; lia.
Qed.

Lemma word16_bytes16 v :
  0 <= v < 2 ^ 16 ->
  word16 be (fst (bytes16 be v)) (snd (bytes16 be v)) = v.
Proof.
  intros Hv. unfold word16, bytes16.
  destruct be; cbn [fst snd]; rewrite !Z_of_byte_of_Z;
    rewrite (Z.mod_small (v / 256)) by (split; [apply Z.div_pos; lia | apply Z.div_lt_upper_bound; lia]);
    pose proof (Z.div_mod v 256); lia.
Qed.

Lemma bswap16_range v : 0 <= bswap16 v < 2 ^ 16.
Proof.
  unfold bswap16.
  pose proof (Z.mod_pos_bound v 256). pose proof (Z.mod_pos_bound (v / 256) 256). lia.
Qed.

Lemma bswap16_involutive v : 0 <= v < 2 ^ 16 -> bswap16 (bswap16 v) = v.
Proof.
  intros Hv. unfold bswap16.
  assert (H1 : 0 <= v mod 256 < 256) by (apply Z.mod_pos_bound; lia).
  assert (H2 : 0 <= v / 256 < 256)
    by (split; [apply Z.div_pos; lia | apply Z.div_lt_upper_bound; lia]).
  rewrite (Z.mod_small (v / 256)) by lia.
  replace ((v mod 256 * 256 + v / 256) mod 256) with (v / 256).
  2:{ rewrite Z.add_comm, Z.mod_add by lia. rewrite Z.mod_small; lia. }
  replace ((v mod 256 * 256 + v / 256) / 256) with (v mod 256).
  2:{ rewrite Z.add_comm, Z.div_add by lia. rewrite (Z.div_small (v / 256)); lia. }
  rewrite (Z.mod_small (v mod 256)) by lia.
  pose proof (Z.div_mod v 256). lia.
Qed.

Lemma htons_range v : 0 <= htons be v < 2 ^ 16.
Proof.
  unfold htons, uint16. destruct be; [apply Z.mod_pos_bound; lia | apply bswap16_range].
Qed.

Lemma ntohs_htons n : 0 <= n < 2 ^ 16 -> ntohs be (htons be n) = n.
Proof.
  intros Hn. unfold ntohs, htons, uint16. destruct be.
  - rewrite (Z.mod_small n) by lia. apply Z.mod_small, Hn.
  - apply bswap16_involutive, Hn.
Qed.

(** ** Stores and loads *)

Lemma store16_frame p off v p' :
  store16 be p off v = Some p' ->
  ip_header p' = ip_header p /\
  length (buffer p') = length (buffer p) /\
  (forall i : nat, i <> (ip_header p + off)%nat -> i <> (ip_header p + off + 1)%nat ->
             buffer p' !! i = buffer p !! i).
Proof.
  unfold store16. case_decide as Hlt; [|discriminate].
  destruct (bytes16 be v) as [b0 b1]. intros [= <-]. cbn [ip_header buffer].
  split; [reflexivity|]. split.
  - rewrite !length_insert. reflexivity.
  - intros i H0 H1. rewrite !list_lookup_insert_ne by congruence. reflexivity.
Qed.

Lemma store16_fits p off v :
  (ip_header p + off + 1 < length (buffer p))%nat ->
  exists p', store16 be p off v = Some p'.
Proof.
  intros Hlt. unfold store16. case_decide; [|contradiction].
  destruct (bytes16 be v). eexists. reflexivity.
Qed.

Lemma load16_store16 p off v p' :
  store16 be p off v = Some p' ->
  0 <= v < 2 ^ 16 ->
  load16 be p' off = Some v.
Proof.
  unfold store16. case_decide as Hlt; [|discriminate].
  pose proof (word16_bytes16 v) as Hw.
  destruct (bytes16 be v) as [b0 b1]. intros [= <-] Hv.
  unfold load16. cbn [ip_header buffer fst snd] in *.
  set (i := (ip_header p + off)%nat) in *.
  assert (H0 : <[(i + 1)%nat := b1]> (<[i := b0]> (buffer p)) !! i = Some b0).
  { rewrite list_lookup_insert_ne by lia. apply list_lookup_insert_eq. lia. }
  assert (H1 : <[(i + 1)%nat := b1]> (<[i := b0]> (buffer p)) !! (i + 1)%nat = Some b1).
  { apply list_lookup_insert_eq. rewrite length_insert. lia. }
  rewrite H0, H1. cbn. rewrite Hw by exact Hv. reflexivity.
Qed.

(** C7. Setting the total length and reading it back. For a packet whose
    buffer holds the 20 bytes of an IP header and for every length
    [0 <= n < 2^16], [setPacketTotalLength] succeeds, a following
    [packetTotalLength] returns [n], and the setter changes nothing but the
    two bytes of [ip_len]: the header offset, the buffer length and every
    other byte stay as they were. *)
Theorem total_length_set_get (p : Packet) (n : Z) :
  (ip_header p + 20 <= length (buffer p))%nat ->
  0 <= n < 2 ^ 16 ->
  exists p', setPacketTotalLength be p n = Some p' /\
    packetTotalLength be p' = Some n /\
    ip_header p' = ip_header p /\
    length (buffer p') = length (buffer p) /\
    (forall i : nat, i <> (ip_header p + 2)%nat -> i <> (ip_header p + 3)%nat ->
               buffer p' !! i = buffer p !! i).
Proof.
  intros Hfit Hn. unfold setPacketTotalLength, packetTotalLength.
  destruct (store16_fits p off_ip_len (htons be (uint16 n))) as [p' Hst].
  { unfold off_ip_len. lia. }
  exists p'. split; [exact Hst|].
  rewrite (load16_store16 _ _ _ _ Hst (htons_range _)). cbn.
  split.
  - f_equal. unfold uint16. rewrite (Z.mod_small n) by lia. apply ntohs_htons, Hn.
  - apply store16_frame in Hst as (Hh & Hl & Hb).
    split; [exact Hh|]. split; [exact Hl|].
    intros i H2 H3. apply Hb; unfold off_ip_len; lia.
Qed.

Lemma load16_fits p off :
  (ip_header p + off + 1 < length (buffer p))%nat ->
  exists v, load16 be p off = Some v.
Proof.
  intros Hlt. unfold load16.
  destruct (lookup_lt_is_Some_2 (buffer p) (ip_header p + off)%nat) as [b0 ->]; [lia|].
  destruct (lookup_lt_is_Some_2 (buffer p) (ip_header p + off + 1)%nat) as [b1 ->]; [lia|].
  eexists. reflexivity.
Qed.

Lemma bytes16_zero : bytes16 be 0 = (Byte.x00, Byte.x00).
Proof. unfold bytes16. destruct be; reflexivity. Qed.

Lemma click_in_cksum_range bs : 0 <= click_in_cksum be bs < 2 ^ 16.
Proof.
  unfold click_in_cksum, fold_complement. cbv zeta.
  rewrite land_ffff. apply Z.mod_pos_bound. lia.
Qed.

Lemma sum_words_bound bs :
  0 <= sum_words be bs <= 65535 * Z.of_nat (length bs).
Proof.
  induction bs as [bs IH] using (well_founded_induction
    (well_founded_ltof _ (@length byte))).
  destruct bs as [|b0 [|b1 rest]]; cbn [sum_words length].
  - lia.
  - pose proof (word16_range b0 Byte.x00). lia.
  - pose proof (word16_range b0 b1).
    pose proof (IH rest ltac:(unfold ltof; cbn; lia)). lia.
Qed.

(** Replacing one aligned 16-bit word changes the sum by the difference of
    the two words. *)
Lemma sum_words_set_word (k : nat) : forall bs b0 b1 c0 c1,
  bs !! (2 * k)%nat = Some c0 -> bs !! (2 * k + 1)%nat = Some c1 ->
  sum_words be (<[(2 * k + 1)%nat := b1]> (<[(2 * k)%nat := b0]> bs))
    = sum_words be bs - word16 be c0 c1 + word16 be b0 b1.
Proof.
  induction k as [|k IH]; intros bs b0 b1 c0 c1 H0 H1.
  - destruct bs as [|x [|y rest]]; try discriminate.
    cbn in H0, H1. injection H0 as ->. injection H1 as ->.
    cbn [sum_words]. cbn. lia.
  - destruct bs as [|x [|y rest]]; try discriminate.
    replace (2 * S k)%nat with (S (S (2 * k))) in * by lia.
    cbn in H0, H1.
    change (<[(S (S (2 * k)) + 1)%nat := b1]> (<[S (S (2 * k)) := b0]> (x :: y :: rest)))
      with (x :: y :: <[(2 * k + 1)%nat := b1]> (<[(2 * k)%nat := b0]> rest)).
    cbn [sum_words]. rewrite (IH rest b0 b1 c0 c1 H0 H1). lia.
Qed.

Lemma ip_hl_range p hl : ip_hl p = Some hl -> 0 <= hl <= 15.
Proof.
  unfold ip_hl. destruct (load8 p off_ip_hl) as [b0|]; [|discriminate].
  cbn. intros [= <-].
  assert (H : Z.land b0 15 = b0 mod 16)
    by (change 15 with (Z.ones 4); apply Z.land_ones; lia).
  rewrite H. pose proof (Z.mod_pos_bound b0 16). lia.
Qed.

Lemma word16_zero : word16 be Byte.x00 Byte.x00 = 0.
Proof. unfold word16. destruct be; reflexivity. Qed.

Lemma header_sum_cleared_facts p hl :
  5 <= hl -> (ip_header p + Z.to_nat (4 * hl) <= length (buffer p))%nat ->
  length (header_sum_cleared p hl) = Z.to_nat (4 * hl) /\
  header_sum_cleared p hl !! 10%nat = Some Byte.x00 /\
  header_sum_cleared p hl !! 11%nat = Some Byte.x00.
Proof.
  intros H5 Hfit. unfold header_sum_cleared. split; [|split].
  - rewrite length_take, length_drop, !length_insert. lia.
  - rewrite lookup_take_lt by lia. rewrite lookup_drop.
    rewrite list_lookup_insert_ne by lia. apply list_lookup_insert_eq. lia.
  - rewrite lookup_take_lt by lia. rewrite lookup_drop.
    apply list_lookup_insert_eq. rewrite length_insert. lia.
Qed.

(** C6. [computeChecksum] rewrites the header checksum and nothing else. For
    a packet with a valid IP header of [hl] words the call succeeds; the
    [ip_sum] field of the result is the one's-complement checksum of exactly
    the [4 * hl] header bytes taken with [ip_sum] cleared, so that the
    checksum over the [4 * hl] bytes of the new header is zero; and apart
    from the two bytes of [ip_sum] every byte of the buffer, in particular
    every byte before the header and from its end on, is what it was. *)
Theorem computeChecksum_header_only (p : Packet) (hl : Z) :
  valid_ip_header p hl ->
  exists p', computeChecksum be p = Some p' /\
    load16 be p' off_ip_sum = Some (click_in_cksum be (header_sum_cleared p hl)) /\
    (exists hdr, header_bytes p' (Z.to_nat (4 * hl)) = Some hdr /\
                 click_in_cksum be hdr = 0) /\
    ip_header p' = ip_header p /\
    length (buffer p') = length (buffer p) /\
    (forall i : nat, i <> (ip_header p + 10)%nat -> i <> (ip_header p + 11)%nat ->
               buffer p' !! i = buffer p !! i) /\
    (forall i : nat, (i < ip_header p \/ ip_header p + Z.to_nat (4 * hl) <= i)%nat ->
               buffer p' !! i = buffer p !! i).
Proof.
  intros (Hhl & H5 & Hfit).
  pose proof (ip_hl_range p hl Hhl) as Hhl15.
  destruct (header_sum_cleared_facts p hl H5 Hfit) as (Hlen0 & H10 & H11).
  assert (Hlen : (ip_header p + 20 <= length (buffer p))%nat) by lia.
  unfold computeChecksum.
  destruct (load16_fits p off_ip_len) as [ip_len ->]; [unfold off_ip_len; lia|]. cbn.
  unfold ip_hl in Hhl.
  destruct (load8 p off_ip_hl) as [b0|]; [|discriminate]. cbn in Hhl |- *.
  injection Hhl as Hhl. rewrite Hhl.
  rewrite Z.shiftl_mul_pow2 by lia. change (2 ^ 2) with 4. rewrite (Z.mul_comm hl 4).
  assert (Hst0 : store16 be p off_ip_sum 0 =
                 Some (MkPacket (<[(ip_header p + 11)%nat := Byte.x00]>
                                   (<[(ip_header p + 10)%nat := Byte.x00]> (buffer p)))
                                (ip_header p))).
  { unfold store16, off_ip_sum. case_decide; [|lia].
    rewrite bytes16_zero. do 3 f_equal. lia. }
  rewrite Hst0. cbn.
  unfold header_bytes at 1. cbn [ip_header buffer]. fold (header_sum_cleared p hl).
  case_decide as Hl; [|contradiction].
  cbn.
  set (c := click_in_cksum be (header_sum_cleared p hl)).
  match goal with |- context [store16 be ?q _ _] =>
    destruct (store16_fits q off_ip_sum c) as [p' Hst]
  end.
  { cbn [ip_header buffer]. rewrite !length_insert. unfold off_ip_sum. lia. }
  exists p'. split; [exact Hst|].
  split; [exact (load16_store16 _ _ _ _ Hst (click_in_cksum_range _))|].
  split.
  - pose proof (word16_bytes16 c (click_in_cksum_range _)) as Hw.
    unfold store16 in Hst. case_decide; [|discriminate].
    destruct (bytes16 be c) as [c0 c1]. injection Hst as <-.
    cbn [ip_header buffer fst snd] in *. unfold off_ip_sum.
    unfold header_bytes. cbn [ip_header buffer].
    set (B0 := <[(ip_header p + 11)%nat := Byte.x00]>
                 (<[(ip_header p + 10)%nat := Byte.x00]> (buffer p))) in *.
    rewrite !drop_insert_ge by lia.
    replace (ip_header p + 10 + 1 - ip_header p)%nat with (2 * 5 + 1)%nat by lia.
    replace (ip_header p + 10 - ip_header p)%nat with (2 * 5)%nat by lia.
    rewrite !take_insert_lt by lia.
    subst B0. fold (header_sum_cleared p hl).
    case_decide as Hl'.
    2:{ exfalso. apply Hl'. rewrite !length_insert. exact Hlen0. }
    eexists. split; [reflexivity|].
    unfold click_in_cksum.
    rewrite (sum_words_set_word 5 _ c0 c1 Byte.x00 Byte.x00 H10 H11).
    rewrite word16_zero, Hw, Z.sub_0_r.
    apply fold_complement_verifies.
    pose proof (sum_words_bound (header_sum_cleared p hl)). lia.
  - apply store16_frame in Hst as (Hh & Hn & Hb). cbn [ip_header buffer] in *.
    rewrite !length_insert in Hn.
    assert (Hframe : forall i : nat, i <> (ip_header p + 10)%nat ->
                       i <> (ip_header p + 11)%nat -> buffer p' !! i = buffer p !! i).
    { intros i Hi10 Hi11. rewrite Hb by (unfold off_ip_sum; lia).
      rewrite !list_lookup_insert_ne by lia. reflexivity. }
    repeat split; try assumption.
    intros i Hi. apply Hframe; lia.
Qed.

End HostFacts.

(** On a little-endian host, length 1500 written into [sample_packet] reads
    back as 1500. *)
Lemma total_length_set_get_witness :
  exists p', setPacketTotalLength false sample_packet 1500 = Some p' /\
    packetTotalLength false p' = Some 1500 /\
    ip_header p' = ip_header sample_packet /\
    length (buffer p') = length (buffer sample_packet) /\
    (forall i : nat, i <> (ip_header sample_packet + 2)%nat ->
                i <> (ip_header sample_packet + 3)%nat ->
                buffer p' !! i = buffer sample_packet !! i).
Proof.
  apply (total_length_set_get false sample_packet 1500).
  - vm_compute. lia.
  - lia.
Defined.

(** [sample_packet] has a valid header of five words; its checksum is
    recomputed as 0x66e1 (the bytes 66 e1, in network order). *)
Lemma computeChecksum_header_only_witness :
  valid_ip_header sample_packet 5 /\
  computeChecksum false sample_packet =
    Some (MkPacket [xaa; xbb; x08; x00;
                    x45; x00; x00; x14; x00; x01; x00; x00; x40; x06; x66; xe1;
                    x0a; x00; x00; x01; x0a; x00; x00; x02] 4) /\
  exists p', computeChecksum false sample_packet = Some p' /\
    load16 false p' off_ip_sum
      = Some (click_in_cksum false (header_sum_cleared sample_packet 5)) /\
    (exists hdr, header_bytes p' (Z.to_nat (4 * 5)) = Some hdr /\
                 click_in_cksum false hdr = 0) /\
    ip_header p' = ip_header sample_packet /\
    length (buffer p') = length (buffer sample_packet) /\
    (forall i : nat, i <> (ip_header sample_packet + 10)%nat ->
                i <> (ip_header sample_packet + 11)%nat ->
                buffer p' !! i = buffer sample_packet !! i) /\
    (forall i : nat, (i < ip_header sample_packet \/
                 ip_header sample_packet + Z.to_nat (4 * 5) <= i)%nat ->
                buffer p' !! i = buffer sample_packet !! i).
Proof.
  assert (Hv : valid_ip_header sample_packet 5).
  { split; [reflexivity|]. split; [lia|]. vm_compute. lia. }
  split; [exact Hv|]. split; [vm_compute; reflexivity|].
  exact (computeChecksum_header_only false sample_packet 5 Hv).
Defined.

End IPElem.

(* ===================================================================== *)
(** * HTTP handler interface ([elements/userlevel/httpserver.cc]) *)
(* ===================================================================== *)

Module HTTP.

Import Stdlib.Strings.String Stdlib.Strings.Ascii.
Local Open Scope string_scope.

(** ** The operations of Click's [String] that [ahc_echo] uses *)

(** Modelled from the spec: Click's [String] class (lib/string.cc) is not in
    the tree, and the spec does not describe it; its operations are taken
    with their documented meaning. [s.find_left(c)]: index of the first [c],
    or -1. *)
Fixpoint find_left (s : string) (c : ascii) : Z :=
  match s with
  | EmptyString => -1
  | String a s' =>
      if Ascii.eqb a c then 0
      else let r := find_left s' c in if (r <? 0)%Z then -1 else r + 1
  end.

(** The first [n] characters, and what follows them. *)
Fixpoint str_take (n : nat) (s : string) : string :=
  match n, s with
  | S n', String a s' => String a (str_take n' s')
  | _, _ => EmptyString
  end.

Fixpoint str_drop (n : nat) (s : string) : string :=
  match n, s with
  | S n', String _ s' => str_drop n' s'
  | _, _ => s
  end.

(** [s.substring(pos, len)] and [s.substring(pos)], for the non-negative
    arguments the function passes. *)
Definition substring2 (s : string) (pos len : Z) : string :=
  str_take (Z.to_nat len) (str_drop (Z.to_nat pos) s).
Definition substring1 (s : string) (pos : Z) : string :=
  str_drop (Z.to_nat pos) s.

(** [s[0] == c]; an empty string has no such first character. *)
Definition first_is (s : string) (c : ascii) : bool :=
  match s with
  | String a _ => Ascii.eqb a c
  | EmptyString => false
  end.

Definition slash : ascii := "/"%char.

(** Status codes of libmicrohttpd. *)
Definition MHD_HTTP_OK : Z := 200.
Definition MHD_HTTP_BAD_REQUEST : Z := 400.
Definition MHD_HTTP_METHOD_NOT_ALLOWED : Z := 405.

Section Server.

(** The router the server belongs to: its elements, the state the handlers
    act on, and the handlers themselves. *)
Variable Element : Type.
Variable St : Type.

Record Handler := MkHandler {
  visible : bool;
  readable : bool;
  writable : bool;
  read_param : bool;                                  (* flags() & f_read_param *)
  call_read : Element -> string -> St -> string * St; (* parameter is "" without f_read_param *)
  call_write : string -> Element -> St -> Z * St
}.

Variable find : string -> option Element.             (* router()->find(name) *)
Variable root_element : Element.                      (* router()->root_element() *)
Variable handler : Element -> string -> option Handler.  (* Router::handler(e, hname) *)

(** What one call of the access handler hands back to libmicrohttpd: either
    [MHD_YES] with the connection's upload buffer and no response, or a
    response with its status and body (the queuing of the response inside
    libmicrohttpd is not modelled). *)
Inductive answer :=
| Continue (con_cls : option string)                  (* return MHD_YES, no response queued *)
| Respond (status : Z) (body : string).

(** The element-resolution loop. [fuel] bounds the iterations; every
    iteration that goes on consumes at least one character of [path]. *)
Fixpoint find_element (fuel : nat) (path : string)
    (e : option Element) (ename fullpath : string)
    : option (option Element * string * string) :=
  match fuel with
  | O => None
  | S fuel' =>
      let pos := find_left path slash in
      let en := if (pos =? -1)%Z then path else substring2 path 0 pos in
      match find (fullpath ++ en) with
      | None => Some (e, ename, path)
      | Some et =>
          if (pos =? -1)%Z then Some (Some et, en, "")
          else find_element fuel' (substring1 path (pos + 1)) (Some et) en (en ++ "/")
      end
  end.

(** The path after the element name, cut into handler name and parameter. *)
Definition split_handler (path : string) : string * string :=
  let pos := find_left path slash in
  if (pos =? -1)%Z then (path, "")
  else (substring2 path 0 pos, substring1 path (pos + 1)).

Definition bad_handler (url hname ename : string) : answer :=
  Respond 404 ("Invalid path '" ++ url ++ "' or no " ++ hname ++ " in " ++ ename).

Definition ahc_echo (url method upload_data : string) (con_cls : option string)
    (st : St) : option (answer * St) :=
  match con_cls with
  | None => Some (Continue (Some ""), st)
  | Some data0 =>
      let path := match url with String _ rest => rest | EmptyString => "" end in
      let path := if first_is path slash then substring1 path 1 else path in
      '(e, ename, path) ← find_element (S (length path)) path None "" "";
      let '(hname, param) := split_handler path in
      let e_or_404 :=
        match e with
        | Some e => inl e
        | None =>
            if (hname =? "") || (ename =? "") then inl root_element
            else inr (Respond 404 ("No element named '" ++ ename ++ "'"))
        end in
      match e_or_404 with
      | inr resp => Some (resp, st)
      | inl e =>
          let hname :=
            if (hname =? "") && (method =? "GET")
            then (if (0 <? Z.of_nat (length ename))%Z then "handlers" else "list")
            else hname in
          if method =? "GET" then
            match handler e hname with
            | Some h =>
                if visible h then
                  if readable h then
                    let '(body, st') :=
                      if read_param h then call_read h e param st
                      else call_read h e "" st in
                    Some (Respond MHD_HTTP_OK body, st')
                  else Some (Respond MHD_HTTP_BAD_REQUEST "This request is not readable", st)
                else Some (bad_handler url hname ename, st)
            | None => Some (bad_handler url hname ename, st)
            end
          else if method =? "POST" then
            match handler e hname with
            | Some h =>
                if visible h then
                  if negb (length upload_data =? 0)%nat then
                    Some (Continue (Some (data0 ++ upload_data)), st)
                  else
                    let data := data0 in
                    if writable h then
                      let '(ret, st') := call_write h data e st in
                      Some (Respond MHD_HTTP_OK (if (ret =? 0)%Z then "success" else "error"), st')
                    else Some (Respond MHD_HTTP_BAD_REQUEST "This request is not writable", st)
                else Some (bad_handler url hname ename, st)
            | None => Some (bad_handler url hname ename, st)
            end
          else if method =? "DELETE" then
            let hname := "delete_" ++ hname in
            match handler e hname with
            | Some h =>
                if visible h then
                  let '(ret, st') := call_write h param e st in
                  Some (Respond MHD_HTTP_OK (if (ret =? 0)%Z then "success" else "error"), st')
                else Some (bad_handler url hname ename, st)
            | None => Some (bad_handler url hname ename, st)
            end
          else Some (Respond MHD_HTTP_METHOD_NOT_ALLOWED "Unsupported method", st)
      end
  end.

(** The URL [/ename/h] or [/ename/h/param]. *)
Definition handler_url (ename h : string) (param : option string) : string :=
  "/" ++ ename ++ "/" ++ h ++
  match param with Some p => "/" ++ p | None => "" end.

Definition param_of (param : option string) : string :=
  match param with Some p => p | None => "" end.

End Server.

(** A router with one element, called [fd], that has a visible handler
    [delete_rules]. The handler records its parameter in the state and
    answers 0 for the parameter [3], -1 otherwise. *)
Definition demo_find (name : string) : option nat :=
  if name =? "fd" then Some 1%nat else None.
Definition demo_delete_rules : Handler nat (list string) :=
  MkHandler nat (list string) true false true false
    (fun _ _ st => ("", st))
    (fun param _ st => (if param =? "3" then 0 else -1, param :: st)).
Definition demo_handler (e : nat) (hname : string) : option (Handler nat (list string)) :=
  if (Nat.eqb e 1 && (hname =? "delete_rules"))%bool then Some demo_delete_rules else None.

(** ** Facts about the string operations *)

Lemma find_left_bounds s c :
  find_left s c = -1 \/ (0 <= find_left s c < Z.of_nat (length s))%Z.
Proof.
  induction s as [|a s IH]; cbn [find_left String.length]; [left; reflexivity|].
  destruct (Ascii.eqb a c); [right; lia|].
  destruct IH as [-> | IH]; [left; reflexivity|].
  destruct (find_left s c <? 0)%Z eqn:E; [left; reflexivity|]. right. lia.
Qed.

Lemma append_cons a s t : String a s ++ t = String a (s ++ t).
Proof. reflexivity. Qed.

Lemma append_nil_l s : "" ++ s = s.
Proof. reflexivity. Qed.

Lemma find_left_app s t c :
  find_left s c = -1 ->
  find_left (s ++ String c t) c = Z.of_nat (length s).
Proof.
  induction s as [|a s IH]; rewrite ?append_cons, ?append_nil_l;
    cbn [find_left String.length]; intros H.
  - rewrite Ascii.eqb_refl. reflexivity.
  - destruct (Ascii.eqb a c); [discriminate|].
    destruct (find_left_bounds s c) as [E | E].
    + rewrite (IH E). destruct (Z.of_nat (length s) <? 0)%Z eqn:L; lia.
    + destruct (find_left s c <? 0)%Z eqn:L; lia.
Qed.

Lemma str_take_app s t : str_take (length s) (s ++ t) = s.
Proof.
  induction s as [|a s IH]; rewrite ?append_cons, ?append_nil_l; cbn.
  - destruct t; reflexivity.
  - rewrite IH. reflexivity.
Qed.

Lemma str_drop_app s t : str_drop (length s) (s ++ t) = t.
Proof.
  induction s as [|a s IH]; rewrite ?append_cons, ?append_nil_l; cbn.
  - destruct t; reflexivity.
  - exact IH.
Qed.

Lemma str_drop_length n s : length (str_drop n s) = (length s - n)%nat.
Proof.
  revert s. induction n as [|n IH]; intros [|a s]; cbn; try reflexivity. apply IH.
Qed.

Lemma append_assoc s t u : (s ++ t) ++ u = s ++ (t ++ u).
Proof.
  induction s as [|a s IH]; [reflexivity|].
  rewrite !append_cons, IH. reflexivity.
Qed.

Lemma length_append s t : length (s ++ t) = (length s + length t)%nat.
Proof.
  induction s as [|a s IH]; [reflexivity|].
  rewrite append_cons. cbn [String.length]. rewrite IH. reflexivity.
Qed.

Lemma append_nil_r s : s ++ "" = s.
Proof.
  induction s as [|a s IH]; [reflexivity|].
  rewrite append_cons, IH. reflexivity.
Qed.

Lemma split_at_slash s t :
  find_left s slash = -1 ->
  find_left (s ++ "/" ++ t) slash = Z.of_nat (length s) /\
  substring2 (s ++ "/" ++ t) 0 (Z.of_nat (length s)) = s /\
  substring1 (s ++ "/" ++ t) (Z.of_nat (length s) + 1) = t.
Proof.
  intros H. split; [exact (find_left_app s t slash H)|]. split.
  - unfold substring2. rewrite Nat2Z.id. cbn [Z.to_nat str_drop]. apply str_take_app.
  - unfold substring1.
    replace (Z.to_nat (Z.of_nat (length s) + 1)) with (length (s ++ "/")).
    + rewrite <- (append_assoc s "/" t). apply str_drop_app.
    + rewrite length_append. cbn. lia.
Qed.

Section ServerFacts.

Context {Element St : Type}.
Variable find : string -> option Element.
Variable root_element : Element.
Variable handler : Element -> string -> option (Handler Element St).

#[local] Abbreviation ahc_echo := (ahc_echo Element St find root_element handler).

(** The resolution loop never runs out of fuel. *)
Lemma find_element_total fuel : forall path e ename fullpath,
  (length path < fuel)%nat ->
  exists r, find_element Element find fuel path e ename fullpath = Some r.
Proof.
  induction fuel as [|fuel IH]; intros path e ename fullpath Hlt; [lia|].
  cbn [find_element].
  destruct (find (fullpath ++ _)) as [et|]; [|eexists; reflexivity].
  destruct (find_left_bounds path slash) as [-> | Hb]; cbn.
  - eexists; reflexivity.
  - destruct (find_left path slash =? -1)%Z eqn:E; [eexists; reflexivity|].
    apply IH. unfold substring1. rewrite str_drop_length. lia.
Qed.

(** Every call of the access handler comes back. *)
Lemma ahc_echo_total url method upload con_cls st :
  exists r, ahc_echo url method upload con_cls st = Some r.
Proof.
  unfold HTTP.ahc_echo. destruct con_cls as [data0|]; [|eexists; reflexivity].
  match goal with |- context [find_element _ _ (S (length ?p)) ?p ?e ?n ?f] =>
    destruct (find_element_total (S (length p)) p e n f) as [[[e' en'] p'] ->]; [lia|]
  end.
  cbn. destruct (split_handler p') as [hname param].
  destruct e' as [e'|]; [|destruct ((hname =? "") || (en' =? ""))].
  3: eexists; reflexivity.
  all: repeat match goal with
       | |- context [if ?b then _ else _] => destruct b
       | |- context [match handler ?a ?b with _ => _ end] => destruct (handler a b)
       | |- context [let '(_, _) := ?x in _] => destruct x
       end; eexists; reflexivity.
Qed.

(** The path [ename/h] or [ename/h/param] resolves to the element called
    [ename], with [h] as handler name and [param] as parameter. *)
Lemma resolve_handler_url ename h param e :
  find_left ename slash = -1 ->
  find_left h slash = -1 ->
  find ename = Some e ->
  find (ename ++ "/" ++ h) = None ->
  let path := ename ++ "/" ++ h ++ match param with Some p => "/" ++ p | None => "" end in
  exists path',
    find_element Element find (S (length path)) path None "" "" = Some (Some e, ename, path') /\
    split_handler path' = (h, param_of param).
Proof.
  intros Hen Hh Hfind Hnone path.
  exists (h ++ match param with Some p => "/" ++ p | None => "" end).
  destruct (split_at_slash ename (h ++ match param with Some p => "/" ++ p | None => "" end) Hen)
    as (Hpos & Htake & Hdrop).
  split.
  - assert (Hlen : (2 <= S (length path))%nat).
    { subst path. rewrite length_append, append_cons. cbn [String.length]. lia. }
    destruct (S (length path)) as [|[|fuel]]; [lia|lia|].
    subst path. cbn [find_element]. rewrite Hpos, Htake.
    replace (Z.of_nat (length ename) =? -1)%Z with false by (symmetry; apply Z.eqb_neq; lia).
    rewrite append_nil_l, Hfind, Hdrop.
    destruct param as [p|].
    + destruct (split_at_slash h p Hh) as (Hpos' & Htake' & _).
      rewrite Hpos', Htake'.
      replace (Z.of_nat (length h) =? -1)%Z with false by (symmetry; apply Z.eqb_neq; lia).
      rewrite append_assoc, Hnone. reflexivity.
    + rewrite append_nil_r, Hh. change (-1 =? -1)%Z with true. cbv iota.
      rewrite append_assoc, Hnone. reflexivity.
  - unfold split_handler. destruct param as [p|]; cbn [param_of].
    + destruct (split_at_slash h p Hh) as (Hpos' & Htake' & Hdrop').
      rewrite Hpos', Htake', Hdrop'.
      replace (Z.of_nat (length h) =? -1)%Z with false by (symmetry; apply Z.eqb_neq; lia).
      reflexivity.
    + rewrite append_nil_r, Hh. reflexivity.
Qed.

Lemma first_is_not_slash ename rest :
  ename <> "" -> find_left ename slash = -1 ->
  first_is (ename ++ rest) slash = false.
Proof.
  destruct ename as [|a en]; [congruence|]. intros _.
  rewrite append_cons. cbn [find_left first_is].
  destruct (Ascii.eqb a slash); [discriminate | reflexivity].
Qed.

(** A DELETE request whose path resolves to element [e] called [ename],
    handler name [hname] and parameter [param]. *)
Lemma ahc_echo_delete_resolved c path e ename path' hname param upload data st :
  first_is path slash = false ->
  find_element Element find (S (length path)) path None "" "" = Some (Some e, ename, path') ->
  split_handler path' = (hname, param) ->
  ahc_echo (String c path) "DELETE" upload (Some data) st =
    Some match handler e ("delete_" ++ hname) with
         | Some hd =>
             if visible _ _ hd then
               (Respond MHD_HTTP_OK
                  (if (fst (call_write _ _ hd param e st) =? 0)%Z
                   then "success" else "error"),
                snd (call_write _ _ hd param e st))
             else (bad_handler (String c path) ("delete_" ++ hname) ename, st)
         | None => (bad_handler (String c path) ("delete_" ++ hname) ename, st)
         end.
Proof.
  intros Hfirst Hres Hsplit.
  unfold HTTP.ahc_echo. cbv zeta. rewrite Hfirst, Hres.
  cbn [mbind option_bind]. rewrite Hsplit.
  rewrite andb_false_r.
  change ("DELETE" =? "GET") with false. change ("DELETE" =? "POST") with false.
  change ("DELETE" =? "DELETE") with true. cbv iota.
  destruct (handler e ("delete_" ++ hname)) as [hd|]; [|reflexivity].
  destruct (visible _ _ hd); [|reflexivity].
  destruct (call_write _ _ hd param e st) as [ret st']. reflexivity.
Qed.

(** What a DELETE request for [/ename/h] or [/ename/h/param] is answered. *)
Lemma ahc_echo_delete ename h param e upload data st :
  ename <> "" ->
  find_left ename slash = -1 ->
  find_left h slash = -1 ->
  find ename = Some e ->
  find (ename ++ "/" ++ h) = None ->
  ahc_echo (handler_url ename h param) "DELETE" upload (Some data) st =
    Some match handler e ("delete_" ++ h) with
         | Some hd =>
             if visible _ _ hd then
               (Respond MHD_HTTP_OK
                  (if (fst (call_write _ _ hd (param_of param) e st) =? 0)%Z
                   then "success" else "error"),
                snd (call_write _ _ hd (param_of param) e st))
             else (bad_handler (handler_url ename h param) ("delete_" ++ h) ename, st)
         | None => (bad_handler (handler_url ename h param) ("delete_" ++ h) ename, st)
         end.
Proof.
  intros Hne Hen Hh Hfind Hnone.
  destruct (resolve_handler_url ename h param e Hen Hh Hfind Hnone) as (path' & Hres & Hsplit).
  exact (ahc_echo_delete_resolved "/" _ e ename path' h (param_of param) upload data st
           (first_is_not_slash ename _ Hne Hen) Hres Hsplit).
Qed.

(** C8. A DELETE request that names element [ename] and handler [h], with or
    without a parameter after the handler name, is served by the handler
    [delete_h] of that element. When this handler exists and is visible, its
    write callback is run on the parameter (the rest of the path, or the
    empty string) and the element, the state becomes what the callback
    leaves, and the response is 200 with body [success] when the callback
    returned 0 and [error] otherwise. When the element has no handler of
    that name, or an invisible one, the response is 404 and the state is
    untouched. *)
Theorem delete_invokes_delete_handler ename h param e upload data st :
  ename <> "" ->
  find_left ename slash = -1 ->
  find_left h slash = -1 ->
  find ename = Some e ->
  find (ename ++ "/" ++ h) = None ->
  (forall hd, handler e ("delete_" ++ h) = Some hd -> visible _ _ hd = true ->
     ahc_echo (handler_url ename h param) "DELETE" upload (Some data) st =
       Some (Respond 200
               (if (fst (call_write _ _ hd (param_of param) e st) =? 0)%Z
                then "success" else "error"),
             snd (call_write _ _ hd (param_of param) e st))) /\
  (handler e ("delete_" ++ h) = None ->
     exists body,
       ahc_echo (handler_url ename h param) "DELETE" upload (Some data) st =
         Some (Respond 404 body, st)) /\
  (forall hd, handler e ("delete_" ++ h) = Some hd -> visible _ _ hd = false ->
     exists body,
       ahc_echo (handler_url ename h param) "DELETE" upload (Some data) st =
         Some (Respond 404 body, st)).
Proof.
  intros Hne Hen Hh Hfind Hnone.
  pose proof (ahc_echo_delete ename h param e upload data st Hne Hen Hh Hfind Hnone) as Heq.
  split; [|split].
  - intros hd Hhd Hvis. rewrite Heq, Hhd, Hvis. reflexivity.
  - intros Hhd. rewrite Heq, Hhd. eexists. reflexivity.
  - intros hd Hhd Hvis. rewrite Heq, Hhd, Hvis. eexists. reflexivity.
Qed.

End ServerFacts.

(** [DELETE /fd/rules/3] runs [delete_rules] of [fd] on the parameter [3]:
    200 and [success]; [DELETE /fd/rules/9] is answered 200 and [error]. *)
Lemma delete_invokes_delete_handler_witness :
  ahc_echo nat (list string) demo_find 0%nat demo_handler
           "/fd/rules/3" "DELETE" "" (Some "") []
    = Some (Respond 200 "success", ["3"]) /\
  ahc_echo nat (list string) demo_find 0%nat demo_handler
           "/fd/rules/9" "DELETE" "" (Some "") []
    = Some (Respond 200 "error", ["9"]) /\
  exists body,
    ahc_echo nat (list string) demo_find 0%nat demo_handler
             "/fd/flows/3" "DELETE" "" (Some "") []
      = Some (Respond 404 body, []).
Proof.
  split; [|split].
  - apply (proj1 (delete_invokes_delete_handler demo_find 0%nat demo_handler
                    "fd" "rules" (Some "3") 1%nat "" "" []
                    ltac:(discriminate) eq_refl eq_refl eq_refl eq_refl)
                 demo_delete_rules eq_refl eq_refl).
  - apply (proj1 (delete_invokes_delete_handler demo_find 0%nat demo_handler
                    "fd" "rules" (Some "9") 1%nat "" "" []
                    ltac:(discriminate) eq_refl eq_refl eq_refl eq_refl)
                 demo_delete_rules eq_refl eq_refl).
  - apply (proj1 (proj2 (delete_invokes_delete_handler demo_find 0%nat demo_handler
                    "fd" "flows" (Some "3") 1%nat "" "" []
                    ltac:(discriminate) eq_refl eq_refl eq_refl eq_refl))
                 eq_refl).
Defined.

End HTTP.

(* ===================================================================== *)
(** * Byte-stream maintainer (modelled from the specification) *)
(* ===================================================================== *)

Module Maintainer.

(** The implementation of [ByteStreamMaintainer] (bytestreammaintainer.hh
    and .cc) is not in the tree; [modificationlist.hh] only names the class.
    The definitions of this module follow section 4.3 of the specification,
    over unbounded integers. *)

(** Modelled from the spec: the state of a [ByteStreamMaintainer] direction,
    "the sequence of committed [(pos_i, delta_i)] pairs, sorted by [pos_i]
    ascending". *)
Definition entry : Type := Z * Z.
Definition entries : Type := list entry.

(** Modelled from the spec: [cum(x)] of [ByteStreamMaintainer], the sum of
    [delta_i] over all [i] with [pos_i <= x]. *)
Fixpoint cum (S : entries) (x : Z) : Z :=
  match S with
  | [] => 0
  | (pos, delta) :: S' => (if pos <=? x then delta else 0) + cum S' x
  end.

(** Modelled from the spec: [ByteStreamMaintainer::mapSeq],
    [mapSeq(x) = x + cum(x)]. *)
Definition mapSeq (S : entries) (x : Z) : Z := x + cum S x.

(** The bytes inserted, and the bytes removed, by all entries together. *)
Fixpoint inserted_total (S : entries) : Z :=
  match S with
  | [] => 0
  | (_, delta) :: S' => Z.max delta 0 + inserted_total S'
  end.

Fixpoint removed_total (S : entries) : Z :=
  match S with
  | [] => 0
  | (_, delta) :: S' => Z.max (- delta) 0 + removed_total S'
  end.

(** The first [x] in [lo, lo + n) with [p x], and [lo + n] when there is none. *)
Fixpoint first_from (p : Z -> bool) (lo : Z) (n : nat) : Z :=
  match n with
  | O => lo
  | S n' => if p lo then lo else first_from p (lo + 1) n'
  end.

(** Modelled from the spec: [ByteStreamMaintainer::mapSeqRev], "the
    smallest [x] with [mapSeq(x) >= y]". No [x] below [y - inserted_total]
    qualifies and [y + removed_total] does, so the search runs between the
    two; [mapSeqRev_smallest] below shows that it finds that smallest [x]. *)
Definition mapSeqRev (S : entries) (y : Z) : Z :=
  first_from (fun x => y <=? mapSeq S x)
             (y - inserted_total S)
             (Z.to_nat (inserted_total S + removed_total S)).

(** Modelled from the spec: [ByteStreamMaintainer::mapAck],
    [mapAck(y) = mapSeqRev(y)]. *)
Definition mapAck (S : entries) (y : Z) : Z := mapSeqRev S y.

(** Two offsets of the same sign. *)
Definition sameSign (first second : Z) : bool :=
  Bool.eqb (first <? 0) (second <? 0).

(** Modelled from the spec: [ByteStreamMaintainer::insertInMapping(pos,
    delta)], a new entry at [pos], in position order; an entry already at
    [pos] is summed with [delta], and is deleted when deltas of opposite
    signs sum to zero. *)
Fixpoint insertInMapping (pos delta : Z) (S : entries) : entries :=
  match S with
  | [] => [(pos, delta)]
  | (p, d) :: S' =>
      if pos <? p then (pos, delta) :: S
      else if pos =? p then
        if sameSign d delta then (p, d + delta) :: S'
        else if d + delta =? 0 then S' else (p, d + delta) :: S'
      else (p, d) :: insertInMapping pos delta S'
  end.

(** Modelled from the spec: the invariant of the entry list of a
    [ByteStreamMaintainer]: positions strictly increasing, and no two
    consecutive entries with offsets of the same sign. *)
Fixpoint increasing (S : entries) : Prop :=
  match S with
  | (p, _) :: (((q, _) :: _) as S') => p < q /\ increasing S'
  | _ => True
  end.

Fixpoint alternating (S : entries) : Prop :=
  match S with
  | (_, d) :: (((_, d') :: _) as S') => sameSign d d' = false /\ alternating S'
  | _ => True
  end.

Definition invariant (S : entries) : Prop := increasing S /\ alternating S.

(** The sum of the deltas of the entries with [x < pos <= y]. *)
Fixpoint between (S : entries) (x y : Z) : Z :=
  match S with
  | [] => 0
  | (pos, delta) :: S' =>
      (if (x <? pos) && (pos <=? y) then delta else 0) + between S' x y
  end.

(** Modelled from the spec: the removed regions of a [ByteStreamMaintainer].
    The spec does not define them; with [mapSeq(x) = x + cum(x)] an entry
    [(pos, delta)], [delta < 0], makes [pos - 1] and [pos - delta] neighbours
    in the modified space, so it removes the [-delta] original positions
    [pos, ..., pos - delta - 1]. [removed S x]: position [x] lies in the
    removed region of some entry. *)
Definition in_region (e : entry) (x : Z) : bool :=
  (snd e <? 0) && (fst e <=? x) && (x <? fst e - snd e).

Definition removed (S : entries) (x : Z) : bool :=
  existsb (fun e => in_region e x) S.

(** The removed regions do not overlap: each one ends before any removal
    that comes later in the sequence begins. *)
Fixpoint regions_disjoint (S : entries) : Prop :=
  match S with
  | [] => True
  | (p, d) :: S' =>
      (d < 0 -> Forall (fun e => snd e < 0 -> p - d <= fst e) S') /\
      regions_disjoint S'
  end.

(** Sample states: one removal of two bytes at 10; two removals that
    overlap, with an insertion between them; a removal followed by an
    insertion. *)
Definition S_remove2 : entries := [(10, -2)].
Definition S_overlap : entries := [(10, -5); (11, 1); (12, -5)].
Definition S_mixed : entries := [(10, -2); (20, 3)].

(** ** The scenarios of the specification *)

(** S4 and S5: four bytes inserted at payload offset 10 of the segment that
    starts at 1001. The next segment, at 1021, is sent as 1025, and the
    acknowledgement 1025 of the peer is rewritten to 1021. *)
Example scenario_S4_S5 :
  mapSeq [(1011, 4)] 1001 = 1001 /\
  mapSeq [(1011, 4)] 1021 = 1025 /\
  mapAck [(1011, 4)] 1025 = 1021.
Proof. repeat split; reflexivity. Qed.

(** S6: four bytes removed near the end of a segment; the next segment is
    sent four lower. *)
Example scenario_S6 :
  mapSeq [(1019, -4)] 1031 = 1027.
Proof. reflexivity. Qed.

(** [insertInMapping] keeps the positions in order and folds entries at the
    same position. *)
Example insertInMapping_samples :
  insertInMapping 15 2 [(10, 4); (20, -1)] = [(10, 4); (15, 2); (20, -1)] /\
  insertInMapping 10 3 [(10, 4); (20, -1)] = [(10, 7); (20, -1)] /\
  insertInMapping 20 1 [(10, 4); (20, -1)] = [(10, 4)].
Proof. repeat split; reflexivity. Qed.

(** ** Bounds and the search *)

Lemma totals_nonneg S : 0 <= inserted_total S /\ 0 <= removed_total S.
Proof.
  induction S as [|[p d] S' IH]; cbn [inserted_total removed_total]; lia.
Qed.

Lemma cum_bounds S x : - removed_total S <= cum S x <= inserted_total S.
Proof.
  induction S as [|[p d] S' IH]; cbn [cum inserted_total removed_total]; [lia|].
  destruct (p <=? x); lia.
Qed.

Lemma first_from_spec p n : forall lo,
  p (lo + Z.of_nat n) = true ->
  p (first_from p lo n) = true /\
  lo <= first_from p lo n <= lo + Z.of_nat n /\
  (forall x, lo <= x < first_from p lo n -> p x = false).
Proof.
  induction n as [|n IH]; intros lo Hhi; cbn [first_from].
  - rewrite Z.add_0_r in Hhi. repeat split; try lia. exact Hhi.
  - destruct (p lo) eqn:Hlo.
    + repeat split; try lia. exact Hlo.
    + destruct (IH (lo + 1)) as (Hp & Hr & Hmin).
      { rewrite <- Hhi. f_equal. lia. }
      repeat split; try lia; [exact Hp|].
      intros x Hx. destruct (Z.eq_dec x lo) as [->|Hne]; [exact Hlo|].
      apply Hmin. lia.
Qed.

(** [mapSeqRev] computes what the specification defines: the smallest [x]
    with [mapSeq(x) >= y]. *)
Lemma mapSeqRev_smallest S y :
  y <= mapSeq S (mapSeqRev S y) /\
  (forall x, y <= mapSeq S x -> mapSeqRev S y <= x).
Proof.
  pose proof (totals_nonneg S) as [Hi Hr].
  unfold mapSeqRev.
  set (p := fun x => y <=? mapSeq S x).
  set (lo := y - inserted_total S).
  set (n := Z.to_nat (inserted_total S + removed_total S)).
  destruct (first_from_spec p n lo) as (Hp & Hrange & Hmin).
  { subst p lo n. cbv beta. apply Z.leb_le. unfold mapSeq.
    pose proof (cum_bounds S (y - inserted_total S +
                  Z.of_nat (Z.to_nat (inserted_total S + removed_total S)))). lia. }
  split.
  - apply Z.leb_le. exact Hp.
  - intros x Hx.
    destruct (Z_lt_le_dec x (first_from p lo n)) as [Hlt|Hle]; [|exact Hle].
    assert (Hlo : lo <= x).
    { subst lo. unfold mapSeq in Hx. pose proof (cum_bounds S x). lia. }
    specialize (Hmin x (conj Hlo Hlt)). subst p. cbv beta in Hmin.
    apply Z.leb_gt in Hmin. lia.
Qed.

(** ** Differences of [mapSeq] *)

Lemma cum_between S x y : x <= y -> cum S y = cum S x + between S x y.
Proof.
  intros Hxy. induction S as [|[p d] S' IH]; cbn [cum between]; [lia|].
  rewrite IH.
  destruct (p <=? y) eqn:E1, (p <=? x) eqn:E2, (x <? p) eqn:E3; cbn [andb]; lia.
Qed.

Lemma mapSeq_between S x y :
  x <= y -> mapSeq S y - mapSeq S x = (y - x) + between S x y.
Proof. intros Hxy. unfold mapSeq. rewrite (cum_between S x y Hxy). lia. Qed.

(** ** Positions outside the removed regions *)

(** Raising the start of the interval up to a point below all removals can
    only lose insertions. *)
Lemma between_raise S lo lo' x :
  Forall (fun e => snd e < 0 -> lo' < fst e) S -> lo <= lo' ->
  between S lo' x <= between S lo x.
Proof.
  intros HS Hlo. induction HS as [|[q d] S' Hq _ IH]; cbn [between]; [lia|].
  cbn in Hq.
  destruct (lo' <? q) eqn:E1, (lo <? q) eqn:E2, (q <=? x) eqn:E3; cbn [andb]; lia.
Qed.

Lemma between_outside_regions x S : forall lo,
  regions_disjoint S -> removed S x = false -> lo < x ->
  - (x - lo - 1) <= between S lo x.
Proof.
  induction S as [|[p d] S' IH]; intros lo Hdis Hrem Hlo; cbn [between]; [lia|].
  destruct Hdis as [Hlater Hdis]. cbn [removed existsb] in Hrem.
  apply orb_false_elim in Hrem as [Hreg Hrem]. fold (removed S' x) in Hrem.
  unfold in_region in Hreg. cbn [fst snd] in Hreg.
  destruct ((lo <? p) && (p <=? x)) eqn:E.
  - apply andb_prop in E as [E1 E2]. apply Z.ltb_lt in E1. apply Z.leb_le in E2.
    destruct (Z_lt_le_dec d 0) as [Hneg|Hpos].
    + assert (Hend : p - d <= x).
      { destruct (d <? 0) eqn:F1, (p <=? x) eqn:F2, (x <? p - d) eqn:F3;
          cbn [andb] in Hreg; try discriminate; lia. }
      assert (Hbelow : Forall (fun e => snd e < 0 -> p - d - 1 < fst e) S').
      { apply (Forall_impl _ _ _ (Hlater Hneg)). intros [q dq]. cbn. lia. }
      pose proof (between_raise S' lo (p - d - 1) x Hbelow ltac:(lia)).
      pose proof (IH (p - d - 1) Hdis Hrem ltac:(lia)). lia.
    + pose proof (IH lo Hdis Hrem Hlo). lia.
  - pose proof (IH lo Hdis Hrem Hlo). lia.
Qed.

Lemma mapSeq_strict_outside_regions S x' x :
  regions_disjoint S -> removed S x = false -> x' < x ->
  mapSeq S x' < mapSeq S x.
Proof.
  intros Hdis Hrem Hlt.
  pose proof (mapSeq_between S x' x ltac:(lia)).
  pose proof (between_outside_regions x S x' Hdis Hrem Hlt). lia.
Qed.

(** C2 (as amended). For every entry sequence [S] and every modified-space
    value [y], [mapSeq (mapSeqRev y) >= y]. When the removed regions of [S]
    do not overlap, [mapSeqRev (mapSeq x) = x] for every original-space
    position [x] outside every removed region. *)
Theorem mapSeq_mapSeqRev_roundtrip (S : entries) :
  (forall y, y <= mapSeq S (mapSeqRev S y)) /\
  (regions_disjoint S ->
   forall x, removed S x = false -> mapSeqRev S (mapSeq S x) = x).
Proof.
  split.
  - intros y. apply (mapSeqRev_smallest S y).
  - intros Hdis x Hrem.
    destruct (mapSeqRev_smallest S (mapSeq S x)) as [Hge Hmin].
    pose proof (Hmin x ltac:(lia)) as Hle.
    destruct (Z_lt_le_dec (mapSeqRev S (mapSeq S x)) x) as [Hlt|]; [|lia].
    pose proof (mapSeq_strict_outside_regions S _ x Hdis Hrem Hlt). lia.
Qed.

(** In [S_mixed] the removal at 10 and the insertion at 20 do not overlap;
    position 12, just after the removed bytes, maps to 10 and back to 12. *)
Lemma mapSeq_mapSeqRev_roundtrip_witness :
  mapSeq S_mixed 12 = 10 /\ mapSeqRev S_mixed (mapSeq S_mixed 12) = 12.
Proof.
  split; [reflexivity|].
  apply (proj2 (mapSeq_mapSeqRev_roundtrip S_mixed)).
  - cbn. repeat split; intros; repeat constructor; cbn; lia.
  - reflexivity.
Defined.

(** C2 as stated fails when removed regions overlap. [S_overlap] satisfies
    the list invariant, position 17 lies outside both removed regions
    (10..14 and 12..16), yet [mapSeq 17 = 8] and the smallest position
    mapped to 8 or more is 8. *)
Lemma mapSeqRev_mapSeq_overlap_counterexample :
  invariant S_overlap /\
  removed S_overlap 17 = false /\
  mapSeq S_overlap 17 = 8 /\
  mapSeqRev S_overlap (mapSeq S_overlap 17) = 8 /\
  mapSeqRev S_overlap (mapSeq S_overlap 17) <> 17.
Proof.
  split; [cbn; repeat split; lia|].
  repeat split; try reflexivity. vm_compute. discriminate.
Qed.

(** C3 (as amended). When the removed regions of [S] do not overlap,
    [mapSeq] does not decrease towards any position outside the removed
    regions: for all [x < y] with [y] outside every removed region,
    [mapSeq x <= mapSeq y], and even [mapSeq x < mapSeq y]. Removals of any
    length are covered; [x] may lie anywhere. *)
Theorem mapSeq_monotone_outside_regions (S : entries) (x y : Z) :
  regions_disjoint S -> removed S y = false -> x < y ->
  mapSeq S x <= mapSeq S y /\ mapSeq S x < mapSeq S y.
Proof.
  intros Hdis Hrem Hxy.
  pose proof (mapSeq_strict_outside_regions S x y Hdis Hrem Hxy). lia.
Qed.

(** Scenario S6 of the specification, four bytes removed at 1019: from
    1018, before the removal, to 1023, the first position after the removed
    bytes, [mapSeq] goes from 1018 to 1019. *)
Lemma mapSeq_monotone_outside_regions_witness :
  mapSeq [(1019, -4)] 1018 = 1018 /\ mapSeq [(1019, -4)] 1023 = 1019 /\
  mapSeq [(1019, -4)] 1018 <= mapSeq [(1019, -4)] 1023.
Proof.
  split; [reflexivity|]. split; [reflexivity|].
  apply (mapSeq_monotone_outside_regions [(1019, -4)] 1018 1023).
  - cbn. repeat split; intros; constructor.
  - reflexivity.
  - lia.
Defined.

(** C3 as stated fails, in two ways. [S_remove2] satisfies the invariant
    and [9 < 10], but 10 is a removed position and [mapSeq] drops from 9 to
    8. [S_overlap] satisfies the invariant, [9 < 17] and 17 lies outside
    both removed regions (10..14 and 12..16), but the regions overlap and
    [mapSeq] drops from 9 to 8. *)
Lemma mapSeq_not_monotone_counterexample :
  (invariant S_remove2 /\ 9 < 10 /\ removed S_remove2 10 = true /\
   mapSeq S_remove2 9 = 9 /\ mapSeq S_remove2 10 = 8 /\
   mapSeq S_remove2 10 < mapSeq S_remove2 9) /\
  (invariant S_overlap /\ 9 < 17 /\ removed S_overlap 17 = false /\
   mapSeq S_overlap 9 = 9 /\ mapSeq S_overlap 17 = 8 /\
   mapSeq S_overlap 17 < mapSeq S_overlap 9).
Proof.
  split.
  - split; [cbn; split; exact I|]. repeat split; reflexivity.
  - split; [cbn; repeat split; lia|]. repeat split; reflexivity.
Qed.

End Maintainer.

(* ===================================================================== *)
(** * Modification list ([include/click/modificationlist.hh]) *)
(* ===================================================================== *)

Module ModList.

(** [struct ModificationNode]; the [next] pointer is the tail of the list. *)
Record ModificationNode := MkNode {
  position : Z;      (* unsigned int *)
  offset : Z         (* int: positive when bytes are added, negative when removed *)
}.

(** [class ModificationList]: the linked list behind [head] and the flag
    [committed], which "becomes true when a commit is made". *)
Record ModificationList := MkList {
  head : list ModificationNode;
  committed : bool
}.

(** [isCommitted()], defined in the header. *)
Definition isCommitted (ml : ModificationList) : bool := committed ml.

(** The header declares [sameSign], [mergeNodes], [addModification],
    [commit] and [clear]; their bodies (modificationlist.cc) are not in the
    tree. They are modelled from section 4.2 of the specification and from
    the comments of the header. *)

(** Modelled from the spec: [ModificationList::sameSign], whose body is
    missing; the header says "True if both integers have the same sign". *)
Definition sameSign (first second : Z) : bool :=
  Bool.eqb (first <? 0) (second <? 0).

(** Modelled from the spec: the insertion step of
    [ModificationList::addModification], whose body is missing: "inserts
    into the list in position-sorted order", here before the first node
    with a greater position. *)
Fixpoint insertNode (n : ModificationNode) (l : list ModificationNode)
    : list ModificationNode :=
  match l with
  | [] => [n]
  | m :: rest =>
      if position n <? position m then n :: l else m :: insertNode n rest
  end.

(** A node that survives the merge: one whose offset is not zero. *)
Definition keep (cur : ModificationNode) : list ModificationNode :=
  if offset cur =? 0 then [] else [cur].

(** Modelled from the spec: [ModificationList::mergeNodes], whose body is
    missing. One scan over the list: two adjacent nodes at the same position
    with offsets of the same sign coalesce into their sum; with offsets of
    opposite signs they cancel in part, and the node goes when nothing is
    left. *)
Fixpoint mergeFrom (cur : ModificationNode) (rest : list ModificationNode)
    : list ModificationNode :=
  match rest with
  | [] => keep cur
  | n :: rest' =>
      if position cur =? position n then
        if sameSign (offset cur) (offset n)
        then mergeFrom (MkNode (position cur) (offset cur + offset n)) rest'
        else mergeFrom (MkNode (position cur) (offset cur + offset n)) rest'
      else keep cur ++ mergeFrom n rest'
  end.

Definition mergeNodes (l : list ModificationNode) : list ModificationNode :=
  match l with
  | [] => []
  | cur :: rest => mergeFrom cur rest
  end.

(** Modelled from the spec: [ModificationList::addModification(position,
    offset)], whose body is missing. "If committed, returns false. Otherwise
    inserts into the list in position-sorted order, then runs mergeNodes()";
    the header adds that the answer is true when the modification has been
    taken into account. The result is the answer and the list after the
    call. *)
Definition addModification (ml : ModificationList) (position offset : Z)
    : bool * ModificationList :=
  if committed ml then (false, ml)
  else (true, MkList (mergeNodes (insertNode (MkNode position offset) (head ml)))
                     (committed ml)).

(** Modelled from the spec: [ModificationList::clear], whose body is
    missing: the nodes go back to the pool; [committed] stays. *)
Definition clear (ml : ModificationList) : ModificationList :=
  MkList [] (committed ml).

Section Commit.

(** The original-space sequence number of a position of the packet. *)
Variable original_position : Z -> Z.

(** Modelled from the spec: [ModificationList::commit(maintainer)], whose
    body is missing: every node, in order, becomes an entry of the
    maintainer; the list is marked committed and cleared. *)
Definition commit (ml : ModificationList) (maintainer : Maintainer.entries)
    : ModificationList * Maintainer.entries :=
  let maintainer :=
    fold_left (fun m n => Maintainer.insertInMapping
                            (original_position (position n)) (offset n) m)
              (head ml) maintainer in
  (clear (MkList (head ml) true), maintainer).

End Commit.

(** A sequence of [addModification] calls: the answers, and the list after
    the last call. *)
Fixpoint addModifications (ml : ModificationList) (calls : list (Z * Z))
    : list bool * ModificationList :=
  match calls with
  | [] => ([], ml)
  | (pos, off) :: calls' =>
      let '(b, ml1) := addModification ml pos off in
      let '(bs, ml2) := addModifications ml1 calls' in
      (b :: bs, ml2)
  end.

(** Position-sorted order. *)
Definition position_sorted (l : list ModificationNode) : Prop :=
  Sorted.StronglySorted (fun a b => position a <= position b) l.

(** ** Properties *)

(** Two edits at the same position merge; opposite edits cancel. *)
Example mergeNodes_samples :
  mergeNodes [MkNode 4 1; MkNode 4 2; MkNode 9 2] = [MkNode 4 3; MkNode 9 2] /\
  mergeNodes [MkNode 4 3; MkNode 4 (-1); MkNode 9 2] = [MkNode 4 2; MkNode 9 2] /\
  mergeNodes [MkNode 4 3; MkNode 4 (-3); MkNode 9 2] = [MkNode 9 2].
Proof. repeat split; reflexivity. Qed.

Lemma insertNode_Permutation n l : Permutation (n :: l) (insertNode n l).
Proof.
  induction l as [|m rest IH]; cbn [insertNode]; [reflexivity|].
  destruct (position n <? position m); [reflexivity|].
  rewrite Permutation_swap. apply Permutation_skip, IH.
Qed.

Lemma insertNode_sorted n l : position_sorted l -> position_sorted (insertNode n l).
Proof.
  unfold position_sorted. intros Hs.
  induction Hs as [|m rest Hrest IH Hm]; cbn [insertNode].
  - constructor; constructor.
  - destruct (position n <? position m) eqn:E.
    + apply Z.ltb_lt in E. constructor; [constructor; assumption|].
      constructor; [lia|].
      apply (List.Forall_impl (fun b => position n <= position b)) in Hm;
        [exact Hm | intros b Hb; lia].
    + apply Z.ltb_ge in E. constructor; [exact IH|].
      apply (Permutation_Forall (insertNode_Permutation n rest)).
      constructor; [exact E | exact Hm].
Qed.

Lemma addModification_committed ml pos off :
  committed ml = true -> addModification ml pos off = (false, ml).
Proof. unfold addModification. intros ->. reflexivity. Qed.

Lemma addModifications_committed ml calls :
  committed ml = true ->
  addModifications ml calls = (repeat false (length calls), ml).
Proof.
  intros Hc. induction calls as [|[pos off] calls IH]; cbn [addModifications]; [reflexivity|].
  rewrite (addModification_committed ml pos off Hc), IH. reflexivity.
Qed.

(** C4. Once a commit has been made, every later [addModification] returns
    [false] and leaves the list as it is, however many calls follow. Before
    any commit, [addModification] returns [true] and the new list is
    [mergeNodes] of the old nodes with the edit inserted among them: the
    insertion adds the edit and nothing else, and keeps position-sorted
    order. *)
Theorem addModification_after_commit
    (original_position : Z -> Z) (ml : ModificationList)
    (maintainer : Maintainer.entries) (pos off : Z) (calls : list (Z * Z)) :
  let ml' := fst (commit original_position ml maintainer) in
  (committed ml' = true /\
   addModification ml' pos off = (false, ml') /\
   addModifications ml' calls = (repeat false (length calls), ml')) /\
  (forall l : ModificationList, committed l = true ->
     addModification l pos off = (false, l) /\
     addModifications l calls = (repeat false (length calls), l)) /\
  (forall l : ModificationList, committed l = false ->
     let inserted := insertNode (MkNode pos off) (head l) in
     addModification l pos off = (true, MkList (mergeNodes inserted) false) /\
     Permutation (MkNode pos off :: head l) inserted /\
     (position_sorted (head l) -> position_sorted inserted)).
Proof.
  cbn zeta. split; [|split].
  - split; [reflexivity|]. split.
    + apply addModification_committed. reflexivity.
    + apply addModifications_committed. reflexivity.
  - intros l Hc. split.
    + apply addModification_committed, Hc.
    + apply addModifications_committed, Hc.
  - intros l Hc. repeat split.
    + unfold addModification. rewrite Hc. reflexivity.
    + apply insertNode_Permutation.
    + apply insertNode_sorted.
Qed.

(** A committed list refuses the edit [(5, 3)]; an uncommitted list with
    nodes at 4 and 9 takes it between the two. *)
Lemma addModification_after_commit_witness :
  addModification (MkList [] true) 5 3 = (false, MkList [] true) /\
  addModification (MkList [MkNode 4 1; MkNode 9 2] false) 5 3
    = (true, MkList [MkNode 4 1; MkNode 5 3; MkNode 9 2] false).
Proof.
  pose proof (addModification_after_commit (fun x => x) (MkList [] false) [] 5 3 [])
    as H.
  cbv zeta in H. destruct H as (_ & Hc & Hn). split.
  - apply (Hc (MkList [] true)). reflexivity.
  - apply (Hn (MkList [MkNode 4 1; MkNode 9 2] false)). reflexivity.
Defined.

End ModList.

(* ===================================================================== *)
(** * Flow Director: further properties of the rule cache *)
(* ===================================================================== *)

Module FlowDirFacts.

Import FlowDir.

(** The number of non-null pointers of a rule vector. *)
Definition non_null (port_rules : list ptr) : Z :=
  Z.of_nat (length (filter (fun p : ptr => is_Some p) port_rules)).

(** Every pointer of the vector is non-null and points to a live object. *)
Definition all_live (port_rules : list ptr) (h : gmap loc port_flow) : Prop :=
  Forall (fun p : ptr => exists l r, p = Some l /\ h !! l = Some r) port_rules.

(** The events that ask the NIC to flush its rules. *)
Definition is_flush (e : event) : bool :=
  match e with CallFlowFlush _ => true | _ => false end.

(** ** The search loop of [flow_rule_get] *)

(** On a vector of live rules the loop of [flow_rule_get] changes nothing
    and answers the first pointer whose rule carries the identifier, or the
    null pointer when no rule does. *)
Theorem flow_rule_search_first_match (rid : Z) (port_rules : list ptr) (w : world) :
  all_live port_rules (heap w) ->
  exists p, flow_rule_search rid port_rules w = Ret (p, w) /\
    match p with
    | Some l =>
        exists before after r,
          port_rules = before ++ Some l :: after /\
          heap w !! l = Some r /\ rule_id r = rid /\
          (forall l' r', Some l' ∈ before -> heap w !! l' = Some r' -> rule_id r' <> rid)
    | None =>
        forall l r, Some l ∈ port_rules -> heap w !! l = Some r -> rule_id r <> rid
    end.
Proof.
  intros Hlive. induction Hlive as [|p rest (l & r & -> & Hl) _ IH].
  - exists None. split; [reflexivity|]. intros l r Hin. inversion Hin.
  - cbn [flow_rule_search].
    assert (Hd : deref (Some l) w = Ret (r, w)) by (unfold deref; rewrite Hl; reflexivity).
    rewrite (bind_ret_intro _ _ _ _ _ Hd).
    destruct (rid =? rule_id r) eqn:E.
    + apply Z.eqb_eq in E. exists (Some l). split; [reflexivity|].
      exists [], rest, r. repeat split; [exact Hl | congruence |].
      intros l' r' Hin. inversion Hin.
    + apply Z.eqb_neq in E. destruct IH as (p & Hp & Hspec).
      exists p. split; [exact Hp|]. destruct p as [l1|].
      * destruct Hspec as (before & after & r1 & -> & Hl1 & Hr1 & Hbefore).
        exists (Some l :: before), after, r1. repeat split; try assumption.
        intros l' r' Hin Hl'. apply elem_of_cons in Hin as [[= ->]|Hin].
        -- rewrite Hl in Hl'. injection Hl' as <-. congruence.
        -- exact (Hbefore l' r' Hin Hl').
      * intros l' r' Hin Hl'. apply elem_of_cons in Hin as [[= ->]|Hin].
        -- rewrite Hl in Hl'. injection Hl' as <-. congruence.
        -- exact (Hspec l' r' Hin Hl').
Qed.

(** In [world_one_rule] the loop does find rule 7, which [flow_rule_get]
    never reports. *)
Lemma flow_rule_search_first_match_witness :
  exists p, flow_rule_search 7 [Some 1%positive] world_one_rule = Ret (p, world_one_rule) /\
    match p with
    | Some l =>
        exists before after r,
          [Some 1%positive] = before ++ Some l :: after /\
          heap world_one_rule !! l = Some r /\ rule_id r = 7 /\
          (forall l' r', Some l' ∈ before -> heap world_one_rule !! l' = Some r' ->
                         rule_id r' <> 7)
    | None =>
        forall l r, Some l ∈ [Some 1%positive] -> heap world_one_rule !! l = Some r ->
                    rule_id r <> 7
    end.
Proof.
  apply (flow_rule_search_first_match 7 [Some 1%positive] world_one_rule).
  repeat constructor. exists 1%positive, (PortFlow 7 42). split; reflexivity.
Defined.

(** ** [memory_clean] and [flow_rules_flush] *)

Lemma non_null_nonneg port_rules : 0 <= non_null port_rules.
Proof. unfold non_null. lia. Qed.

Lemma non_null_cons_Some l rest : non_null (Some l :: rest) = 1 + non_null rest.
Proof.
  unfold non_null. rewrite filter_cons_True by (eexists; reflexivity).
  cbn [length]. lia.
Qed.

Lemma non_null_cons_None rest : non_null (None :: rest) = non_null rest.
Proof.
  unfold non_null. rewrite filter_cons_False; [reflexivity|].
  intros [x Hx]. discriminate.
Qed.

Lemma non_null_le_length port_rules : non_null port_rules <= Z.of_nat (length port_rules).
Proof.
  unfold non_null. pose proof (length_filter (fun p : ptr => is_Some p) port_rules). lia.
Qed.

(** The counter of the deleting loop counts the non-null pointers. *)
Lemma delete_rules_count port_rules : forall n w n' w',
  delete_rules port_rules n w = Ret (n', w') ->
  0 <= n -> n + non_null port_rules < 2 ^ 32 ->
  n' = n + non_null port_rules.
Proof.
  induction port_rules as [|[l|] rest IH]; intros n w n' w' H Hn Hlt.
  - cbn in H. injection H as <- <-. unfold non_null. cbn. lia.
  - cbn [delete_rules] in H. apply bind_ret_inv in H as ([] & w1 & _ & H).
    rewrite non_null_cons_Some in *. pose proof (non_null_nonneg rest).
    assert (Hu : FlowDir.uint32 (n + 1) = n + 1)
      by (unfold FlowDir.uint32; apply Z.mod_small; lia).
    rewrite Hu in H. apply IH in H; lia.
  - cbn [delete_rules] in H. rewrite non_null_cons_None in *.
    apply IH in H; lia.
Qed.

(** A pointer that is no longer allocated stops the deleting loop. *)
Lemma delete_rules_dangling port_rules : forall n w,
  (exists l, Some l ∈ port_rules) ->
  (forall l, Some l ∈ port_rules -> heap w !! l = None) ->
  delete_rules port_rules n w = Fault InvalidDelete.
Proof.
  induction port_rules as [|[l|] rest IH]; intros n w (l0 & Hin) Hfree.
  - inversion Hin.
  - cbn [delete_rules]. apply bind_fault. unfold delete_rule.
    rewrite (Hfree l) by (left). reflexivity.
  - cbn [delete_rules]. apply IH.
    + apply elem_of_cons in Hin as [[=]|Hin]. exists l0. exact Hin.
    + intros l Hl. apply Hfree. right. exact Hl.
Qed.

(** What [memory_clean] gives back and leaves behind. On a port whose rule
    pointers are allocated and distinct, it returns the number of non-null
    pointers of the stored vector, frees exactly the objects they point to,
    and keeps the table and every other object. *)
Theorem memory_clean_counts_rules (port : Z) (w : world) (fd : FlowDirector) :
  dev_flow_dir w !! port = Some fd ->
  deletable (_rule_list fd) (heap w) ->
  Z.of_nat (length (_rule_list fd)) < 2 ^ 32 ->
  exists w', memory_clean port w = Ret (non_null (_rule_list fd), w') /\
    dev_flow_dir w' = dev_flow_dir w /\
    (forall l, Some l ∈ _rule_list fd -> heap w' !! l = None) /\
    (forall l, Some l ∉ _rule_list fd -> heap w' !! l = heap w !! l).
Proof.
  intros Hfd Hok Hlen. unfold memory_clean.
  rewrite (bind_ret_intro _ _ _ _ _ (dev_registered _ _ _ Hfd)).
  destruct (_rule_list fd) as [|p rest] eqn:Hl; cbn [is_empty].
  - destruct (_verbose fd); eexists; (split; [reflexivity|]);
      repeat split; try reflexivity; intros l Hin; inversion Hin.
  - rewrite <- Hl in *.
    destruct (delete_rules_returns (_rule_list fd) 0 w Hok) as (k & w1 & Hdel).
    rewrite (bind_ret_intro _ _ _ _ _ Hdel).
    pose proof (non_null_le_length (_rule_list fd)) as Hnn.
    pose proof (delete_rules_count _ _ _ _ _ Hdel ltac:(lia) ltac:(lia)) as Hk.
    rewrite Z.add_0_l in Hk. subst k.
    apply delete_rules_inv in Hdel as (Hdev & Htr & Hfree & Hkeep).
    assert (Hfd1 : dev_flow_dir w1 !! port = Some fd) by (rewrite Hdev; exact Hfd).
    rewrite (bind_ret_intro _ _ _ _ _ (dev_registered _ _ _ Hfd1)).
    destruct (_verbose fd); eexists; (split; [reflexivity|]); cbn; repeat split; assumption.
Qed.

(** The three rules of [world_three_rules] are counted and freed. *)
Lemma memory_clean_counts_rules_witness :
  exists w', memory_clean 0 world_three_rules = Ret (3, w') /\
    dev_flow_dir w' = dev_flow_dir world_three_rules /\
    (forall l, Some l ∈ _rule_list fd_three_rules -> heap w' !! l = None) /\
    (forall l, Some l ∉ _rule_list fd_three_rules ->
               heap w' !! l = heap world_three_rules !! l).
Proof.
  apply (memory_clean_counts_rules 0 world_three_rules fd_three_rules).
  - reflexivity.
  - cbn. repeat split; try (eexists; reflexivity);
      intros H; repeat (apply elem_of_cons in H as [H|H]; [discriminate|]);
      inversion H.
  - cbn. lia.
Defined.

(** Because the stored vector keeps its pointers, cleaning a port a second
    time deletes objects that are already gone: after a [memory_clean] that
    returned, a second one on the same port stops on an invalid [delete] as
    soon as the vector holds a non-null pointer. *)
Theorem memory_clean_twice_faults (port : Z) (w w' : world) (fd : FlowDirector) (n : Z) :
  dev_flow_dir w !! port = Some fd ->
  (exists l, Some l ∈ _rule_list fd) ->
  memory_clean port w = Ret (n, w') ->
  memory_clean port w' = Fault InvalidDelete.
Proof.
  intros Hfd Hsome H.
  apply memory_clean_inv in H as (fd' & Hfd' & Hdev & Hfree).
  assert (fd' = fd) as -> by congruence.
  assert (Hfd1 : dev_flow_dir w' !! port = Some fd) by (rewrite Hdev; exact Hfd).
  unfold memory_clean.
  rewrite (bind_ret_intro _ _ _ _ _ (dev_registered _ _ _ Hfd1)).
  destruct (_rule_list fd) as [|p rest] eqn:Hl.
  - destruct Hsome as (l & Hin). inversion Hin.
  - cbn [is_empty]. apply bind_fault.
    apply delete_rules_dangling; assumption.
Qed.

Lemma memory_clean_twice_faults_witness :
  exists w', memory_clean 0 world_three_rules = Ret (3, w') /\
             memory_clean 0 w' = Fault InvalidDelete.
Proof.
  eexists. split; [vm_compute; reflexivity|].
  apply (memory_clean_twice_faults 0 world_three_rules _ fd_three_rules 3).
  - reflexivity.
  - exists 1%positive. left.
  - vm_compute. reflexivity.
Defined.

Section Flush.

Variable rte_flow_flush : Z -> Z.
Variable rte_errno : Z.

#[local] Abbreviation flow_rules_flush := (flow_rules_flush rte_flow_flush rte_errno).

(** How [flow_rules_flush] deals with the NIC. On a port with a Flow
    Director:
    - when the director is inactive or its rule vector is empty, the answer
      is 0 and neither the NIC nor the memory is touched;
    - when the NIC refuses the flush, no rule object is freed and the answer
      is [-rte_errno] converted to [uint32_t], that is an error code
      where the caller expects a number of rules;
    - when the NIC accepts it, the answer is that of [memory_clean] on the
      state reached. In all cases [rte_flow_flush] is called at most once. *)
Theorem flow_rules_flush_cases (port : Z) (w : world) (fd : FlowDirector) :
  dev_flow_dir w !! port = Some fd ->
  (_active fd = false \/ _rule_list fd = [] ->
     exists w', flow_rules_flush port w = Ret (0, w') /\
       heap w' = heap w /\ dev_flow_dir w' = dev_flow_dir w /\
       filter is_flush (trace w') = filter is_flush (trace w)) /\
  (_active fd = true -> _rule_list fd <> [] -> rte_flow_flush port <> 0 ->
     flow_rules_flush port w =
       Ret (FlowDir.uint32 (- rte_errno),
            World (dev_flow_dir w) (heap w)
                  ((trace w ++ [CallFlowFlush port]) ++ [MsgComplain port]))) /\
  (_active fd = true -> _rule_list fd <> [] -> rte_flow_flush port = 0 ->
     exists w1, trace w1 = trace w ++ CallFlowFlush port ::
                             (if _verbose fd then [MsgNicFlushed port] else []) /\
       heap w1 = heap w /\ dev_flow_dir w1 = dev_flow_dir w /\
       flow_rules_flush port w = memory_clean port w1).
Proof.
  intros Hfd. unfold FlowDir.flow_rules_flush.
  rewrite (bind_ret_intro _ _ _ _ _ (dev_registered _ _ _ Hfd)).
  split; [|split].
  - intros Hcase.
    assert (Hquiet : forall w0 : world,
      exists w', (when (_verbose fd) (emit (MsgNothingToFlush port));; ret 0) w0
                   = Ret (0, w') /\
        heap w' = heap w0 /\ dev_flow_dir w' = dev_flow_dir w0 /\
        filter is_flush (trace w') = filter is_flush (trace w0)).
    { intros w0. destruct (_verbose fd); eexists; (split; [reflexivity|]); cbn.
      - repeat split. rewrite filter_app. cbn. apply app_nil_r.
      - repeat split. }
    destruct (_active fd) eqn:Ha; cbn [negb]; [|apply Hquiet].
    destruct Hcase as [Hcase|Hcase]; [discriminate|].
    rewrite Hcase. cbn [is_empty]. apply Hquiet.
  - intros Ha Hne Hrf. rewrite Ha. cbn [negb].
    destruct (_rule_list fd) as [|p rest]; [congruence|]. cbn [is_empty].
    apply Z.eqb_neq in Hrf.
    unfold mbind, M_bind, bind, emit, flow_rule_complain. cbn.
    rewrite Hrf. cbn. reflexivity.
  - intros Ha Hne Hrf. rewrite Ha. cbn [negb].
    destruct (_rule_list fd) as [|p rest]; [congruence|]. cbn [is_empty].
    unfold mbind, M_bind, bind, emit. cbn. rewrite Hrf. cbn.
    exists (World (dev_flow_dir w) (heap w)
                  (trace w ++ CallFlowFlush port ::
                     (if _verbose fd then [MsgNicFlushed port] else []))).
    destruct (_verbose fd); cbn; repeat split; rewrite <- ?app_assoc; reflexivity.
Qed.

End Flush.

(** A NIC that refuses to flush port 0 with [rte_errno = 22]: the three rules
    of [world_three_rules] stay, and the caller is told 4294967274. *)
Lemma flow_rules_flush_cases_witness :
  flow_rules_flush (fun _ => -1) 22 0 world_three_rules =
    Ret (4294967274,
         World (dev_flow_dir world_three_rules) (heap world_three_rules)
               [CallFlowFlush 0; MsgComplain 0]).
Proof.
  apply (proj1 (proj2 (flow_rules_flush_cases (fun _ => -1) 22 0 world_three_rules
                         fd_three_rules eq_refl)));
    [reflexivity | discriminate | discriminate].
Defined.

End FlowDirFacts.

(* ===================================================================== *)
(** * HTTP handler interface: GET, POST and the other methods *)
(* ===================================================================== *)

Module HTTPFacts.

Import Stdlib.Strings.String Stdlib.Strings.Ascii.
Import HTTP.
Local Open Scope string_scope.

Section Serving.

Context {Element St : Type}.
Variable find : string -> option Element.
Variable root_element : Element.
Variable handler : Element -> string -> option (Handler Element St).

#[local] Abbreviation ahc_echo := (ahc_echo Element St find root_element handler).

(** The path of a request: the URL without its first character, and without
    one more slash when it starts with one. *)
Definition request_path (url : string) : string :=
  let path := match url with String _ rest => rest | EmptyString => "" end in
  if first_is path slash then substring1 path 1 else path.

(** The second half of [ahc_echo], from "Then find handler" on: the answer
    to a request once element [e] (called [ename]), handler name [hname] and
    parameter [param] are known. *)
Definition serve (e : Element) (ename hname param url method upload_data data0 : string)
    (st : St) : answer * St :=
  let hname :=
    if (hname =? "") && (method =? "GET")
    then (if (0 <? Z.of_nat (length ename))%Z then "handlers" else "list")
    else hname in
  if method =? "GET" then
    match handler e hname with
    | Some h =>
        if visible _ _ h then
          if readable _ _ h then
            let '(body, st') :=
              if read_param _ _ h then call_read _ _ h e param st
              else call_read _ _ h e "" st in
            (Respond MHD_HTTP_OK body, st')
          else (Respond MHD_HTTP_BAD_REQUEST "This request is not readable", st)
        else (bad_handler url hname ename, st)
    | None => (bad_handler url hname ename, st)
    end
  else if method =? "POST" then
    match handler e hname with
    | Some h =>
        if visible _ _ h then
          if negb (length upload_data =? 0)%nat then
            (Continue (Some (data0 ++ upload_data)), st)
          else
            if writable _ _ h then
              let '(ret, st') := call_write _ _ h data0 e st in
              (Respond MHD_HTTP_OK (if (ret =? 0)%Z then "success" else "error"), st')
            else (Respond MHD_HTTP_BAD_REQUEST "This request is not writable", st)
        else (bad_handler url hname ename, st)
    | None => (bad_handler url hname ename, st)
    end
  else if method =? "DELETE" then
    let hname := "delete_" ++ hname in
    match handler e hname with
    | Some h =>
        if visible _ _ h then
          let '(ret, st') := call_write _ _ h param e st in
          (Respond MHD_HTTP_OK (if (ret =? 0)%Z then "success" else "error"), st')
        else (bad_handler url hname ename, st)
    | None => (bad_handler url hname ename, st)
    end
  else (Respond MHD_HTTP_METHOD_NOT_ALLOWED "Unsupported method", st).

(** The calls libmicrohttpd makes for one POST request: a first call on a
    fresh connection, one call for each piece of the body, and a last call
    without data. The answer is that of the first call that queues a
    response. *)
Fixpoint post_calls (url : string) (chunks : list string) (con_cls : option string)
    (st : St) : option (answer * St) :=
  match chunks with
  | [] => ahc_echo url "POST" "" con_cls st
  | chunk :: chunks' =>
      match ahc_echo url "POST" chunk con_cls st with
      | Some (Continue con_cls', st') => post_calls url chunks' con_cls' st'
      | r => r
      end
  end.

Definition post_request (url : string) (chunks : list string) (st : St)
    : option (answer * St) :=
  match ahc_echo url "POST" "" None st with
  | Some (Continue con_cls, st') => post_calls url chunks con_cls st'
  | r => r
  end.

(** ** Resolution of the element *)

(** The loop names an element whenever it leaves one: as long as no element
    is found, the element name stays as it was. *)
Lemma find_element_name fuel : forall path e ename fullpath e' ename' path',
  find_element Element find fuel path e ename fullpath = Some (e', ename', path') ->
  (e = None -> ename = "") -> (e' = None -> ename' = "").
Proof.
  induction fuel as [|fuel IH]; intros path e ename fullpath e' ename' path' H Hinv;
    [discriminate|].
  cbn [find_element] in H.
  destruct (find (fullpath ++ _)) as [et|].
  - destruct (find_left path slash =? -1)%Z.
    + injection H as <- <- <-. discriminate.
    + refine (IH _ _ _ _ _ _ _ H _). discriminate.
  - injection H as <- <- <-. exact Hinv.
Qed.

(** Every request on a connection that has its buffer is answered by
    [serve], on the element the path resolves to or, when the path names
    none, on the root element. The answer "No element named" is never
    given. *)
Lemma ahc_echo_serves url method upload data st :
  exists oe ename path',
    find_element Element find (S (length (request_path url))) (request_path url) None "" ""
      = Some (oe, ename, path') /\
    (oe = None -> ename = "") /\
    ahc_echo url method upload (Some data) st =
      Some (serve (match oe with Some e => e | None => root_element end)
                  ename (fst (split_handler path')) (snd (split_handler path'))
                  url method upload data st).
Proof.
  destruct (find_element_total find (S (length (request_path url))) (request_path url)
              None "" "" ltac:(lia)) as [[[oe ename] path'] Hres].
  pose proof (find_element_name _ _ _ _ _ _ _ _ Hres (fun _ => eq_refl)) as Hname.
  exists oe, ename, path'. split; [exact Hres|]. split; [exact Hname|].
  unfold HTTP.ahc_echo. cbv zeta. fold (request_path url).
  rewrite Hres. cbn [mbind option_bind].
  destruct (split_handler path') as [hname param]. cbn [fst snd].
  assert (Hor : match oe with
                | Some e => inl e
                | None => if (hname =? "") || (ename =? "") then inl root_element
                          else inr (Respond 404 ("No element named '" ++ ename ++ "'"))
                end = (inl (match oe with Some e => e | None => root_element end)
                        : Element + answer)).
  { destruct oe as [e|]; [reflexivity|]. rewrite (Hname eq_refl).
    rewrite orb_true_r. reflexivity. }
  rewrite Hor. unfold serve. cbv zeta.
  repeat match goal with
  | |- context [if ?b then _ else _] => destruct b
  | |- context [match handler ?a ?b with _ => _ end] => destruct (handler a b)
  | |- context [let '(_, _) := ?x in _] => destruct x
  end; reflexivity.
Qed.

(** Any method other than GET, POST and DELETE is refused with status 405,
    whatever the URL, and neither a handler nor the state is touched. *)
Theorem other_methods_not_allowed url method upload data st :
  method <> "GET" -> method <> "POST" -> method <> "DELETE" ->
  ahc_echo url method upload (Some data) st =
    Some (Respond 405 "Unsupported method", st).
Proof.
  intros HG HP HD.
  destruct (ahc_echo_serves url method upload data st) as (oe & ename & path' & _ & _ & ->).
  unfold serve. cbv zeta.
  apply String.eqb_neq in HG, HP, HD. rewrite HG, HP, HD. reflexivity.
Qed.

Lemma request_path_handler_url ename h param :
  ename <> "" -> find_left ename slash = -1 ->
  request_path (handler_url ename h param)
    = ename ++ "/" ++ h ++ match param with Some p => "/" ++ p | None => "" end.
Proof.
  intros Hne Hen. unfold request_path, handler_url. cbv zeta.
  change ("/" ++ ename ++ "/" ++ h ++ match param with Some p => "/" ++ p | None => "" end)
    with (String "/" (ename ++ "/" ++ h ++
                        match param with Some p => "/" ++ p | None => "" end)).
  cbv iota. rewrite (first_is_not_slash ename _ Hne Hen). reflexivity.
Qed.

(** A request for [/ename/h] or [/ename/h/param], whatever its method, is
    served on the element called [ename] with handler name [h]. *)
Lemma ahc_echo_handler_url ename h param e method upload data st :
  ename <> "" ->
  find_left ename slash = -1 ->
  find_left h slash = -1 ->
  find ename = Some e ->
  find (ename ++ "/" ++ h) = None ->
  ahc_echo (handler_url ename h param) method upload (Some data) st =
    Some (serve e ename h (param_of param) (handler_url ename h param)
                method upload data st).
Proof.
  intros Hne Hen Hh Hfind Hnone.
  destruct (ahc_echo_serves (handler_url ename h param) method upload data st)
    as (oe & en & path' & Hres & _ & ->).
  destruct (resolve_handler_url find ename h param e Hen Hh Hfind Hnone)
    as (path2 & Hres2 & Hsplit).
  cbv zeta in Hres2.
  rewrite (request_path_handler_url ename h param Hne Hen) in Hres.
  rewrite Hres2 in Hres. injection Hres as <- <- <-.
  rewrite Hsplit. reflexivity.
Qed.

(** GET on [/ename/h] or [/ename/h/param]. The handler [h] of the element
    is read: when it is visible and readable the answer is 200 with what
    the read callback returns, and the callback sees the parameter only if
    the handler takes one; a visible handler that is not readable gives
    400; a missing or invisible handler gives 404. Only a read callback can
    change the state. *)
Theorem get_reads_handler ename h param e upload data st :
  ename <> "" -> h <> "" ->
  find_left ename slash = -1 ->
  find_left h slash = -1 ->
  find ename = Some e ->
  find (ename ++ "/" ++ h) = None ->
  (forall hd, handler e h = Some hd -> visible _ _ hd = true -> readable _ _ hd = true ->
     ahc_echo (handler_url ename h param) "GET" upload (Some data) st =
       let r := call_read _ _ hd e (if read_param _ _ hd then param_of param else "") st in
       Some (Respond 200 (fst r), snd r)) /\
  (forall hd, handler e h = Some hd -> visible _ _ hd = true -> readable _ _ hd = false ->
     ahc_echo (handler_url ename h param) "GET" upload (Some data) st =
       Some (Respond 400 "This request is not readable", st)) /\
  (handler e h = None \/ (exists hd, handler e h = Some hd /\ visible _ _ hd = false) ->
     exists body,
       ahc_echo (handler_url ename h param) "GET" upload (Some data) st =
         Some (Respond 404 body, st)).
Proof.
  intros Hne Hhne Hen Hh Hfind Hnone.
  pose proof (fun m => ahc_echo_handler_url ename h param e m upload data st
                         Hne Hen Hh Hfind Hnone) as Heq.
  assert (Hh0 : (h =? "") = false) by (apply String.eqb_neq; exact Hhne).
  split; [|split].
  - intros hd Hhd Hv Hr. rewrite Heq. unfold serve. cbv zeta.
    rewrite Hh0. cbn [andb]. change ("GET" =? "GET") with true. cbv iota.
    rewrite Hhd, Hv, Hr.
    destruct (read_param _ _ hd);
      destruct (call_read _ _ hd e _ st) as [body st']; reflexivity.
  - intros hd Hhd Hv Hr. rewrite Heq. unfold serve. cbv zeta.
    rewrite Hh0. cbn [andb]. change ("GET" =? "GET") with true. cbv iota.
    rewrite Hhd, Hv, Hr. reflexivity.
  - intros Hcase. rewrite Heq. unfold serve. cbv zeta.
    rewrite Hh0. cbn [andb]. change ("GET" =? "GET") with true. cbv iota.
    destruct Hcase as [Hhd | (hd & Hhd & Hv)].
    + rewrite Hhd. eexists. reflexivity.
    + rewrite Hhd, Hv. eexists. reflexivity.
Qed.

(** A path whose first component is not the name of an element is served on
    the root element, with that component as the handler name: for every
    method the answer to [/h] or [/h/param] is that of [serve] on
    [root_element]. *)
Theorem unknown_element_served_by_root h param method upload data st :
  h <> "" ->
  find_left h slash = -1 ->
  find h = None ->
  ahc_echo ("/" ++ h ++ match param with Some p => "/" ++ p | None => "" end)
           method upload (Some data) st =
    Some (serve root_element "" h (param_of param)
                ("/" ++ h ++ match param with Some p => "/" ++ p | None => "" end)
                method upload data st).
Proof.
  intros Hne Hh Hfind.
  set (url := "/" ++ h ++ match param with Some p => "/" ++ p | None => "" end).
  destruct (ahc_echo_serves url method upload data st)
    as (oe & en & path' & Hres & _ & ->).
  assert (Hpath : request_path url = h ++ match param with Some p => "/" ++ p | None => "" end).
  { unfold request_path, url. cbv zeta.
    change ("/" ++ h ++ match param with Some p => "/" ++ p | None => "" end)
      with (String "/" (h ++ match param with Some p => "/" ++ p | None => "" end)).
    cbv iota. rewrite (first_is_not_slash h _ Hne Hh). reflexivity. }
  rewrite Hpath in Hres. cbn [find_element] in Hres.
  rewrite append_nil_l in Hres.
  assert (Hsplit : split_handler (h ++ match param with Some p => "/" ++ p | None => "" end)
                   = (h, param_of param) /\
                   (if (find_left (h ++ match param with Some p => "/" ++ p | None => "" end)
                                  slash =? -1)%Z
                    then h ++ match param with Some p => "/" ++ p | None => "" end
                    else substring2 (h ++ match param with Some p => "/" ++ p | None => "" end) 0
                           (find_left (h ++ match param with Some p => "/" ++ p | None => "" end)
                                      slash)) = h).
  { unfold split_handler. destruct param as [p|]; cbn [param_of].
    - destruct (split_at_slash h p Hh) as (Hpos & Htake & Hdrop).
      rewrite Hpos, Htake, Hdrop.
      replace (Z.of_nat (length h) =? -1)%Z with false by (symmetry; apply Z.eqb_neq; lia).
      split; reflexivity.
    - rewrite append_nil_r, Hh. split; reflexivity. }
  destruct Hsplit as [Hsplit Hen]. rewrite Hen, Hfind in Hres.
  injection Hres as <- <- <-. rewrite Hsplit. reflexivity.
Qed.

(** The pieces of a body, put together. *)
Definition body_of (chunks : list string) : string := fold_right append "" chunks.

Lemma post_calls_accumulate ename h param e hd chunks : forall data0 st,
  ename <> "" ->
  find_left ename slash = -1 ->
  find_left h slash = -1 ->
  find ename = Some e ->
  find (ename ++ "/" ++ h) = None ->
  handler e h = Some hd -> visible _ _ hd = true ->
  Forall (fun chunk => chunk <> "") chunks ->
  post_calls (handler_url ename h param) chunks (Some data0) st =
    ahc_echo (handler_url ename h param) "POST" "" (Some (data0 ++ body_of chunks)) st.
Proof.
  induction chunks as [|chunk chunks IH];
    intros data0 st Hne Hen Hh Hfind Hnone Hhd Hv Hchunks.
  - cbn [post_calls body_of fold_right]. rewrite append_nil_r. reflexivity.
  - inversion Hchunks as [|? ? Hchunk Hrest]; subst.
    cbn [post_calls].
    rewrite (ahc_echo_handler_url ename h param e "POST" chunk data0 st
               Hne Hen Hh Hfind Hnone).
    unfold serve at 1. cbv zeta. rewrite andb_false_r.
    change ("POST" =? "GET") with false. change ("POST" =? "POST") with true. cbv iota.
    rewrite Hhd, Hv.
    assert (Hlen : (length chunk =? 0)%nat = false)
      by (destruct chunk; [congruence | reflexivity]).
    rewrite Hlen. cbn [negb].
    rewrite (IH (data0 ++ chunk) st Hne Hen Hh Hfind Hnone Hhd Hv Hrest).
    cbn [body_of fold_right]. rewrite append_assoc. reflexivity.
Qed.

(** POST on [/ename/h], with the body arriving in pieces. The pieces are
    collected in the connection's buffer without touching the state, and
    the write callback of a visible, writable handler [h] then runs once, on
    the whole body: 200 with [success] when it returns 0 and [error]
    otherwise. A visible handler that is not writable gives 400. *)
Theorem post_request_writes_body ename h param e hd chunks st :
  ename <> "" ->
  find_left ename slash = -1 ->
  find_left h slash = -1 ->
  find ename = Some e ->
  find (ename ++ "/" ++ h) = None ->
  handler e h = Some hd -> visible _ _ hd = true ->
  Forall (fun chunk => chunk <> "") chunks ->
  post_request (handler_url ename h param) chunks st =
    Some (if writable _ _ hd then
            let r := call_write _ _ hd (body_of chunks) e st in
            (Respond 200 (if (fst r =? 0)%Z then "success" else "error"), snd r)
          else (Respond 400 "This request is not writable", st)).
Proof.
  intros Hne Hen Hh Hfind Hnone Hhd Hv Hchunks.
  unfold post_request. change (ahc_echo (handler_url ename h param) "POST" "" None st)
    with (Some (@Continue (Some ""), st)).
  cbv iota beta.
  rewrite (post_calls_accumulate ename h param e hd chunks "" st
             Hne Hen Hh Hfind Hnone Hhd Hv Hchunks).
  rewrite append_nil_l.
  rewrite (ahc_echo_handler_url ename h param e "POST" "" (body_of chunks) st
             Hne Hen Hh Hfind Hnone).
  unfold serve. cbv zeta. rewrite andb_false_r.
  change ("POST" =? "GET") with false. change ("POST" =? "POST") with true. cbv iota.
  rewrite Hhd, Hv. cbn [length Nat.eqb negb].
  destruct (writable _ _ hd); [|reflexivity].
  destruct (call_write _ _ hd (body_of chunks) e st) as [ret st']. reflexivity.
Qed.

End Serving.

(** A second router: element [fd] with the writable handler [rules], which
    records what it is given, and the read-only handler [count]. *)
Definition demo_rules : Handler nat (list string) :=
  MkHandler nat (list string) true false true false
    (fun _ _ st => ("", st))
    (fun data _ st => (0, data :: st)).
Definition demo_count : Handler nat (list string) :=
  MkHandler nat (list string) true true false false
    (fun _ _ st => ("2", st))
    (fun _ _ st => (-1, st)).
Definition demo_handlers (e : nat) (hname : string) : option (Handler nat (list string)) :=
  if hname =? "rules" then Some demo_rules
  else if hname =? "count" then Some demo_count
  else None.

Lemma other_methods_not_allowed_witness :
  HTTP.ahc_echo nat (list string) demo_find 0%nat demo_handlers
                "/fd/rules" "PUT" "x" (Some "") []
    = Some (Respond 405 "Unsupported method", []).
Proof.
  apply (other_methods_not_allowed demo_find 0%nat demo_handlers); discriminate.
Defined.

Lemma get_reads_handler_witness :
  HTTP.ahc_echo nat (list string) demo_find 0%nat demo_handlers
                "/fd/count" "GET" "" (Some "") []
    = Some (Respond 200 "2", []) /\
  HTTP.ahc_echo nat (list string) demo_find 0%nat demo_handlers
                "/fd/rules" "GET" "" (Some "") []
    = Some (Respond 400 "This request is not readable", []).
Proof.
  split.
  - apply (proj1 (get_reads_handler demo_find 0%nat demo_handlers
                    "fd" "count" None 1%nat "" "" []
                    ltac:(discriminate) ltac:(discriminate) eq_refl eq_refl eq_refl eq_refl)
                 demo_count eq_refl eq_refl eq_refl).
  - apply (proj1 (proj2 (get_reads_handler demo_find 0%nat demo_handlers
                    "fd" "rules" None 1%nat "" "" []
                    ltac:(discriminate) ltac:(discriminate) eq_refl eq_refl eq_refl eq_refl))
                 demo_rules eq_refl eq_refl eq_refl).
Defined.

Lemma unknown_element_served_by_root_witness :
  HTTP.ahc_echo nat (list string) demo_find 0%nat demo_handlers
                "/count" "GET" "" (Some "") []
    = Some (Respond 200 "2", []).
Proof.
  apply (unknown_element_served_by_root demo_find 0%nat demo_handlers
           "count" None "GET" "" "" [] ltac:(discriminate) eq_refl eq_refl).
Defined.

Lemma post_request_writes_body_witness :
  post_request demo_find 0%nat demo_handlers "/fd/rules" ["ab"; "c"; "def"] []
    = Some (Respond 200 "success", ["abcdef"]).
Proof.
  apply (post_request_writes_body demo_find 0%nat demo_handlers
           "fd" "rules" None 1%nat demo_rules ["ab"; "c"; "def"] []
           ltac:(discriminate) eq_refl eq_refl eq_refl eq_refl eq_refl eq_refl).
  repeat constructor; discriminate.
Defined.

End HTTPFacts.

(* ===================================================================== *)
(** * IP helpers: wire format, byte order and the other accessors *)
(* ===================================================================== *)

Module IPElemFacts.

Import IPElem.

(** Modelled from the spec: [struct click_ip] (clicknet/ip.h is not in the
    tree); [ip_src] and [ip_dst] are at their offsets in the IPv4 header. *)
Definition off_ip_src : nat := 12.
Definition off_ip_dst : nat := 16.

Section Host.

Variable host_big_endian : bool.

(** The 32-bit value the host reads from four consecutive bytes. *)
Definition word32 (b0 b1 b2 b3 : byte) : Z :=
  if host_big_endian
  then ((Z_of_byte b0 * 256 + Z_of_byte b1) * 256 + Z_of_byte b2) * 256 + Z_of_byte b3
  else ((Z_of_byte b3 * 256 + Z_of_byte b2) * 256 + Z_of_byte b1) * 256 + Z_of_byte b0.

Definition load32 (p : Packet) (off : nat) : option Z :=
  b0 ← buffer p !! (ip_header p + off)%nat;
  b1 ← buffer p !! (ip_header p + off + 1)%nat;
  b2 ← buffer p !! (ip_header p + off + 2)%nat;
  b3 ← buffer p !! (ip_header p + off + 3)%nat;
  Some (word32 b0 b1 b2 b3).

(** [getSourceAddress] and [getDestinationAddress]: the address field read as
    one [uint32_t], without conversion. *)
Definition getSourceAddress (packet : Packet) : option Z := load32 packet off_ip_src.
Definition getDestinationAddress (packet : Packet) : option Z := load32 packet off_ip_dst.

End Host.

(** [getIPHeaderOffset]: the distance from the start of the data to the IP
    header, as a [uint16_t]. *)
Definition getIPHeaderOffset (packet : Packet) : Z :=
  uint16 (Z.of_nat (ip_header packet)).

(** The buffer of [p] with the two bytes of [ip_sum] cleared. *)
Definition sum_cleared (p : Packet) : list byte :=
  <[(ip_header p + 11)%nat := Byte.x00]> (<[(ip_header p + 10)%nat := Byte.x00]> (buffer p)).

(** The sums of the bytes at even and at odd positions of a byte string. *)
Fixpoint even_bytes (bs : list byte) : Z :=
  match bs with
  | b0 :: _ :: rest => Z_of_byte b0 + even_bytes rest
  | [b0] => Z_of_byte b0
  | [] => 0
  end.

Fixpoint odd_bytes (bs : list byte) : Z :=
  match bs with
  | _ :: b1 :: rest => Z_of_byte b1 + odd_bytes rest
  | _ => 0
  end.

(** ** The total length on the wire *)

Lemma insert2_overwrite (l : list byte) (i j : nat) (a b c d : byte) :
  i <> j ->
  <[j := a]> (<[i := b]> (<[j := c]> (<[i := d]> l))) = <[j := a]> (<[i := b]> l).
Proof.
  intros Hij.
  rewrite (list_insert_insert_ne (<[i := d]> l) i j b c Hij).
  rewrite list_insert_insert_eq.
  rewrite (list_insert_insert_eq l i b d). reflexivity.
Qed.

Lemma byte_of_Z_mod z z' : z mod 256 = z' mod 256 -> byte_of_Z z = byte_of_Z z'.
Proof. unfold byte_of_Z. intros ->. reflexivity. Qed.

Lemma bytes16_htons be n :
  bytes16 be (htons be (uint16 n)) = (byte_of_Z (n / 256), byte_of_Z n).
Proof.
  unfold bytes16, htons, uint16, bswap16. change (2 ^ 16) with 65536.
  destruct be; f_equal; apply byte_of_Z_mod.
  - rewrite (Z.mod_small (n mod 65536)) by (apply Z.mod_pos_bound; lia).
    Z.div_mod_to_equations. lia.
  - rewrite (Z.mod_small (n mod 65536)) by (apply Z.mod_pos_bound; lia).
    Z.div_mod_to_equations. lia.
  - Z.div_mod_to_equations. lia.
  - Z.div_mod_to_equations. lia.
Qed.

Lemma ntohs_word16 be b0 b1 :
  ntohs be (word16 be b0 b1) = Z_of_byte b0 * 256 + Z_of_byte b1.
Proof.
  pose proof (Z_of_byte_range b0). pose proof (Z_of_byte_range b1).
  unfold ntohs, word16, uint16, bswap16. change (2 ^ 16) with 65536.
  destruct be.
  - apply Z.mod_small. lia.
  - Z.div_mod_to_equations. lia.
Qed.

(** The total length travels in network byte order whatever the host is.
    [setPacketTotalLength] writes the high byte of the length and then its
    low byte, [packetTotalLength] reads them back in that order, a length
    that does not fit 16 bits is cut to its low 16 bits, and a second
    [setPacketTotalLength] replaces the first. *)
Theorem total_length_network_order (be : bool) (p : Packet) (n m : Z) :
  (ip_header p + 3 < length (buffer p))%nat ->
  let stored k := MkPacket (<[(ip_header p + 3)%nat := byte_of_Z k]>
                              (<[(ip_header p + 2)%nat := byte_of_Z (k / 256)]> (buffer p)))
                           (ip_header p) in
  setPacketTotalLength be p n = Some (stored n) /\
  packetTotalLength be (stored n) = Some (n mod 2 ^ 16) /\
  (forall b2 b3, buffer p !! (ip_header p + 2)%nat = Some b2 ->
                 buffer p !! (ip_header p + 3)%nat = Some b3 ->
                 packetTotalLength be p = Some (Z_of_byte b2 * 256 + Z_of_byte b3)) /\
  setPacketTotalLength be (stored n) m = setPacketTotalLength be p m.
Proof.
  intros Hfit stored.
  assert (Hset : forall q k, ip_header q = ip_header p ->
            length (buffer q) = length (buffer p) ->
            setPacketTotalLength be q k =
              Some (MkPacket (<[(ip_header p + 3)%nat := byte_of_Z k]>
                                (<[(ip_header p + 2)%nat := byte_of_Z (k / 256)]> (buffer q)))
                             (ip_header p))).
  { intros q k Hh Hl. unfold setPacketTotalLength, store16, off_ip_len.
    rewrite Hh, Hl. case_decide; [|lia].
    rewrite bytes16_htons. do 3 f_equal. lia. }
  assert (Hget : forall q b2 b3, ip_header q = ip_header p ->
            buffer q !! (ip_header p + 2)%nat = Some b2 ->
            buffer q !! (ip_header p + 3)%nat = Some b3 ->
            packetTotalLength be q = Some (Z_of_byte b2 * 256 + Z_of_byte b3)).
  { intros q b2 b3 Hh H2 H3. unfold packetTotalLength, load16, off_ip_len.
    rewrite Hh, H2. cbn.
    replace (ip_header p + 2 + 1)%nat with (ip_header p + 3)%nat by lia.
    rewrite H3. cbn. rewrite ntohs_word16. reflexivity. }
  split; [apply Hset; reflexivity|]. split; [|split].
  - rewrite (Hget (stored n) (byte_of_Z (n / 256)) (byte_of_Z n) eq_refl).
    + rewrite !Z_of_byte_of_Z. f_equal. change (2 ^ 16) with 65536.
      Z.div_mod_to_equations. lia.
    + subst stored. cbn [buffer].
      rewrite list_lookup_insert_ne by lia. apply list_lookup_insert_eq. lia.
    + subst stored. cbn [buffer].
      apply list_lookup_insert_eq. rewrite length_insert. lia.
  - intros b2 b3. apply Hget. reflexivity.
  - rewrite (Hset (stored n) m eq_refl)
      by (subst stored; cbn [buffer]; rewrite !length_insert; reflexivity).
    rewrite (Hset p m eq_refl eq_refl). subst stored. cbn [buffer]. do 2 f_equal.
    apply insert2_overwrite. lia.
Qed.

(** Length 70000 does not fit: on either host [sample_packet] then reads
    4464, that is 70000 - 65536. *)
Lemma total_length_network_order_witness :
  (exists p', setPacketTotalLength true sample_packet 70000 = Some p' /\
              setPacketTotalLength false sample_packet 70000 = Some p' /\
              packetTotalLength true p' = Some 4464 /\
              packetTotalLength false p' = Some 4464).
Proof.
  pose proof (total_length_network_order true sample_packet 70000 0
                ltac:(vm_compute; lia)) as (Ht & Hgt & _).
  pose proof (total_length_network_order false sample_packet 70000 0
                ltac:(vm_compute; lia)) as (Hf & Hgf & _).
  eexists. split; [exact Ht|]. split; [exact Hf|]. split; [exact Hgt | exact Hgf].
Defined.

(** ** The checksum *)

(** What [computeChecksum] returns, byte for byte. *)
Lemma computeChecksum_explicit be p hl :
  valid_ip_header p hl ->
  computeChecksum be p =
    let c := click_in_cksum be (header_sum_cleared p hl) in
    Some (MkPacket (<[(ip_header p + 11)%nat := snd (bytes16 be c)]>
                      (<[(ip_header p + 10)%nat := fst (bytes16 be c)]> (sum_cleared p)))
                   (ip_header p)).
Proof.
  intros (Hhl & H5 & Hfit).
  destruct (header_sum_cleared_facts p hl H5 Hfit) as (Hlen0 & _ & _).
  assert (Hlen : (ip_header p + 20 <= length (buffer p))%nat) by lia.
  unfold computeChecksum.
  destruct (load16_fits be p off_ip_len) as [ip_len ->]; [unfold off_ip_len; lia|]. cbn.
  unfold ip_hl in Hhl.
  destruct (load8 p off_ip_hl) as [b0|]; [|discriminate]. cbn in Hhl |- *.
  injection Hhl as Hhl. rewrite Hhl.
  rewrite Z.shiftl_mul_pow2 by lia. change (2 ^ 2) with 4. rewrite (Z.mul_comm hl 4).
  assert (Hst0 : store16 be p off_ip_sum 0 = Some (MkPacket (sum_cleared p) (ip_header p))).
  { unfold store16, off_ip_sum, sum_cleared. case_decide; [|lia].
    rewrite bytes16_zero. do 3 f_equal. lia. }
  rewrite Hst0. cbn.
  unfold header_bytes at 1. cbn [ip_header buffer].
  change (take (Z.to_nat (4 * hl)) (drop (ip_header p) (sum_cleared p)))
    with (header_sum_cleared p hl).
  case_decide as Hl; [|contradiction]. cbn.
  unfold store16, off_ip_sum. cbn [ip_header buffer].
  case_decide as Hb.
  2:{ exfalso. apply Hb. unfold sum_cleared. rewrite !length_insert. lia. }
  destruct (bytes16 be (click_in_cksum be (header_sum_cleared p hl))) as [c0 c1].
  cbn [fst snd]. do 3 f_equal. lia.
Qed.

(** The checksum does not depend on what the checksum field held: two
    packets that differ at most in the two bytes of [ip_sum] get the same
    result. In particular computing the checksum twice changes nothing the
    second time. *)
Theorem computeChecksum_ignores_old_sum (be : bool) (p q : Packet) (hl : Z) :
  valid_ip_header p hl ->
  ip_header q = ip_header p ->
  length (buffer q) = length (buffer p) ->
  (forall i : nat, i <> (ip_header p + 10)%nat -> i <> (ip_header p + 11)%nat ->
              buffer q !! i = buffer p !! i) ->
  computeChecksum be q = computeChecksum be p /\
  (forall p', computeChecksum be p = Some p' -> computeChecksum be p' = Some p').
Proof.
  intros Hv Hh Hlen Hsame.
  assert (Hgen : forall q' : Packet, ip_header q' = ip_header p ->
            length (buffer q') = length (buffer p) ->
            (forall i : nat, i <> (ip_header p + 10)%nat -> i <> (ip_header p + 11)%nat ->
                        buffer q' !! i = buffer p !! i) ->
            computeChecksum be q' = computeChecksum be p).
  { clear q Hh Hlen Hsame. intros q Hh Hlen Hsame.
    assert (Hcl : sum_cleared q = sum_cleared p).
    { unfold sum_cleared. rewrite Hh. apply list_eq. intros i.
      destruct (decide (i = ip_header p + 11)%nat) as [->|H11].
      - rewrite !list_lookup_insert_eq by (rewrite length_insert; destruct Hv as (_ & ? & ?); lia).
        reflexivity.
      - rewrite !(list_lookup_insert_ne _ (ip_header p + 11)%nat i) by congruence.
        destruct (decide (i = ip_header p + 10)%nat) as [->|H10].
        + rewrite !list_lookup_insert_eq by (destruct Hv as (_ & ? & ?); lia). reflexivity.
        + rewrite !list_lookup_insert_ne by congruence. apply Hsame; assumption. }
    assert (Hvq : valid_ip_header q hl).
    { destruct Hv as (Hhl & H5 & Hfit). split; [|split; [exact H5 | lia]].
      unfold ip_hl, load8 in *. rewrite Hh, Hsame by (unfold off_ip_hl; lia). exact Hhl. }
    rewrite (computeChecksum_explicit be q hl Hvq), (computeChecksum_explicit be p hl Hv).
    cbv zeta. unfold header_sum_cleared. fold (sum_cleared q). fold (sum_cleared p).
    rewrite Hh, Hcl. reflexivity. }
  split; [exact (Hgen q Hh Hlen Hsame)|].
  intros p' Hp'. rewrite <- Hp'. apply Hgen.
  - rewrite (computeChecksum_explicit be p hl Hv) in Hp'. cbv zeta in Hp'.
    injection Hp' as <-. reflexivity.
  - rewrite (computeChecksum_explicit be p hl Hv) in Hp'. cbv zeta in Hp'.
    injection Hp' as <-. cbn [buffer]. unfold sum_cleared. rewrite !length_insert. reflexivity.
  - intros i H10 H11.
    rewrite (computeChecksum_explicit be p hl Hv) in Hp'. cbv zeta in Hp'.
    injection Hp' as <-. cbn [buffer]. unfold sum_cleared.
    rewrite !list_lookup_insert_ne by congruence. reflexivity.
Qed.

Lemma computeChecksum_ignores_old_sum_witness :
  exists p', computeChecksum false sample_packet = Some p' /\
             computeChecksum false p' = Some p'.
Proof.
  eexists. split; [vm_compute; reflexivity|].
  apply (proj2 (computeChecksum_ignores_old_sum false sample_packet sample_packet 5
           ltac:(split; [reflexivity | split; [lia | vm_compute; lia]])
           eq_refl eq_refl (fun _ _ _ => eq_refl))).
  vm_compute. reflexivity.
Defined.

(** ** Byte order of the host *)

Lemma even_odd_bytes_bounds bs :
  0 <= even_bytes bs <= 255 * Z.of_nat (length bs) /\
  0 <= odd_bytes bs <= 255 * Z.of_nat (length bs).
Proof.
  induction bs as [bs IH] using (well_founded_induction
    (well_founded_ltof _ (@length byte))).
  destruct bs as [|b0 [|b1 rest]]; cbn [even_bytes odd_bytes length].
  - lia.
  - pose proof (Z_of_byte_range b0). lia.
  - pose proof (Z_of_byte_range b0). pose proof (Z_of_byte_range b1).
    pose proof (IH rest ltac:(unfold ltof; cbn; lia)). lia.
Qed.

(** A big-endian host sums the even bytes as high bytes, a little-endian
    host as low bytes. *)
Lemma sum_words_even_odd bs :
  sum_words true bs = 256 * even_bytes bs + odd_bytes bs /\
  sum_words false bs = 256 * odd_bytes bs + even_bytes bs.
Proof.
  induction bs as [bs IH] using (well_founded_induction
    (well_founded_ltof _ (@length byte))).
  destruct bs as [|b0 [|b1 rest]]; cbn [sum_words even_bytes odd_bytes].
  - split; reflexivity.
  - unfold word16. change (Z_of_byte Byte.x00) with 0. lia.
  - destruct (IH rest ltac:(unfold ltof; cbn; lia)) as [-> ->].
    unfold word16. lia.
Qed.

(** The checksum of the byte-swapped sum is the byte-swapped checksum: both
    hosts write the same two bytes. *)
Lemma checksum_bytes_swap A B :
  0 <= A < 4194304 -> 0 <= B < 4194304 ->
  bytes16 true (fold_complement (256 * A + B))
    = bytes16 false (fold_complement (256 * B + A)).
Proof.
  intros HA HB.
  destruct (fold_complement_spec (256 * A + B) ltac:(lia)) as (kb & Hkb & Hrb & Heqb & Hposb).
  destruct (fold_complement_spec (256 * B + A) ltac:(lia)) as (kl & Hkl & Hrl & Heql & Hposl).
  set (cb := fold_complement (256 * A + B)) in *.
  set (cl := fold_complement (256 * B + A)) in *.
  assert (Hzero : 256 * A + B = 0 -> cb = 65535 /\ cl = 65535).
  { intros H0. assert (A = 0) by lia. assert (B = 0) by lia. subst A B.
    subst cb cl. split; reflexivity. }
  set (x := (65535 - cb) / 256). set (y := (65535 - cb) mod 256).
  assert (Hxy : 65535 - cb = 256 * x + y) by (apply Z.div_mod; lia).
  assert (Hy : 0 <= y < 256) by (apply Z.mod_pos_bound; lia).
  assert (Hx : 0 <= x < 256)
    by (split; [apply Z.div_pos; lia | apply Z.div_lt_upper_bound; lia]).
  clearbody x y cb cl.
  assert (Hswap : 65535 - cl = 256 * y + x).
  { destruct (Z.eq_dec (256 * A + B) 0) as [H0|Hn0].
    - destruct (Hzero H0). lia.
    - assert (0 < 256 * A + B) by lia. assert (0 < 256 * B + A) by lia.
      specialize (Hposb ltac:(lia)). specialize (Hposl ltac:(lia)).
      assert (Hm : exists m, (65535 - cl) - (256 * y + x) = 65535 * m).
      { exists (x + 256 * kb - kl - A). lia. }
      destruct Hm as [m Hm]. lia. }
  unfold bytes16. f_equal; apply byte_of_Z_mod.
  - replace cb with (256 * (255 - x) + (255 - y)) by lia.
    replace cl with (256 * (255 - y) + (255 - x)) by lia.
    Z.div_mod_to_equations. lia.
  - replace cb with (256 * (255 - x) + (255 - y)) by lia.
    replace cl with (256 * (255 - y) + (255 - x)) by lia.
    Z.div_mod_to_equations. lia.
Qed.

(** [computeChecksum] does not depend on the byte order of the host: on a
    packet with a valid IP header a big-endian and a little-endian machine
    produce the same bytes. *)
Theorem computeChecksum_byte_order_independent (p : Packet) (hl : Z) :
  valid_ip_header p hl ->
  computeChecksum true p = computeChecksum false p.
Proof.
  intros Hv.
  rewrite (computeChecksum_explicit true p hl Hv), (computeChecksum_explicit false p hl Hv).
  cbv zeta. unfold click_in_cksum.
  destruct (sum_words_even_odd (header_sum_cleared p hl)) as [-> ->].
  pose proof (even_odd_bytes_bounds (header_sum_cleared p hl)) as [He Ho].
  destruct Hv as (Hhl & H5 & Hfit).
  pose proof (ip_hl_range p hl Hhl).
  destruct (header_sum_cleared_facts p hl H5 Hfit) as (Hlen & _ & _).
  rewrite Hlen in He, Ho.
  rewrite (checksum_bytes_swap (even_bytes (header_sum_cleared p hl))
             (odd_bytes (header_sum_cleared p hl))) by lia.
  reflexivity.
Qed.

Lemma computeChecksum_byte_order_independent_witness :
  computeChecksum true sample_packet = computeChecksum false sample_packet.
Proof.
  apply (computeChecksum_byte_order_independent sample_packet 5).
  split; [reflexivity | split; [lia | vm_compute; lia]].
Defined.

(** ** Length and checksum together *)

Lemma setPacketTotalLength_explicit be p n :
  (ip_header p + 3 < length (buffer p))%nat ->
  setPacketTotalLength be p n =
    Some (MkPacket (<[(ip_header p + 3)%nat := byte_of_Z n]>
                      (<[(ip_header p + 2)%nat := byte_of_Z (n / 256)]> (buffer p)))
                   (ip_header p)).
Proof.
  intros Hfit. unfold setPacketTotalLength, store16, off_ip_len.
  case_decide; [|lia]. rewrite bytes16_htons. do 3 f_equal. lia.
Qed.

Lemma packetTotalLength_bytes be q b2 b3 :
  buffer q !! (ip_header q + 2)%nat = Some b2 ->
  buffer q !! (ip_header q + 3)%nat = Some b3 ->
  packetTotalLength be q = Some (Z_of_byte b2 * 256 + Z_of_byte b3).
Proof.
  intros H2 H3. unfold packetTotalLength, load16, off_ip_len. rewrite H2. cbn.
  replace (ip_header q + 2 + 1)%nat with (ip_header q + 3)%nat by lia.
  rewrite H3. cbn. rewrite ntohs_word16. reflexivity.
Qed.

Lemma load32_frame be p q off :
  ip_header q = ip_header p ->
  (forall i : nat, (ip_header p + off <= i < ip_header p + off + 4)%nat ->
              buffer q !! i = buffer p !! i) ->
  load32 be q off = load32 be p off.
Proof.
  intros Hh Hsame. unfold load32. rewrite Hh, !Hsame by lia. reflexivity.
Qed.

(** The header of the packet [computeChecksum] returns sums to zero. *)
Lemma computeChecksum_verifies be p hl p' :
  valid_ip_header p hl ->
  computeChecksum be p = Some p' ->
  exists hdr, header_bytes p' (Z.to_nat (4 * hl)) = Some hdr /\ click_in_cksum be hdr = 0.
Proof.
  intros Hv Hp'. rewrite (computeChecksum_explicit be p hl Hv) in Hp'. cbv zeta in Hp'.
  injection Hp' as <-.
  destruct Hv as (Hhl & H5 & Hfit). pose proof (ip_hl_range p hl Hhl) as Hhl15.
  destruct (header_sum_cleared_facts p hl H5 Hfit) as (Hlen0 & H10 & H11).
  set (c := click_in_cksum be (header_sum_cleared p hl)).
  pose proof (word16_bytes16 be c (click_in_cksum_range be _)) as Hw.
  destruct (bytes16 be c) as [c0 c1]. cbn [fst snd] in *.
  unfold header_bytes. cbn [ip_header buffer].
  rewrite !drop_insert_ge by lia.
  replace (ip_header p + 11 - ip_header p)%nat with (2 * 5 + 1)%nat by lia.
  replace (ip_header p + 10 - ip_header p)%nat with (2 * 5)%nat by lia.
  rewrite !take_insert_lt by lia.
  change (take (Z.to_nat (4 * hl)) (drop (ip_header p) (sum_cleared p)))
    with (header_sum_cleared p hl).
  case_decide as Hl.
  2:{ exfalso. apply Hl. rewrite !length_insert. exact Hlen0. }
  eexists. split; [reflexivity|].
  unfold click_in_cksum.
  rewrite (sum_words_set_word be 5 _ c0 c1 Byte.x00 Byte.x00 H10 H11).
  rewrite word16_zero, Hw, Z.sub_0_r.
  apply fold_complement_verifies.
  pose proof (sum_words_bound be (header_sum_cleared p hl)). lia.
Qed.

(** Setting the total length and then recomputing the checksum leaves a
    consistent header: the length reads back as [n], the header checksums to
    zero, the header offset and both addresses are those of the original
    packet, and no byte outside [ip_len] and [ip_sum] has changed. Without
    the recomputation the checksum field keeps its old bytes. *)
Theorem set_length_then_checksum (be : bool) (p : Packet) (hl n : Z) :
  valid_ip_header p hl ->
  0 <= n < 2 ^ 16 ->
  exists p1 p2,
    setPacketTotalLength be p n = Some p1 /\
    load16 be p1 off_ip_sum = load16 be p off_ip_sum /\
    computeChecksum be p1 = Some p2 /\
    packetTotalLength be p2 = Some n /\
    (exists hdr, header_bytes p2 (Z.to_nat (4 * hl)) = Some hdr /\
                 click_in_cksum be hdr = 0) /\
    getIPHeaderOffset p2 = getIPHeaderOffset p /\
    getSourceAddress be p2 = getSourceAddress be p /\
    getDestinationAddress be p2 = getDestinationAddress be p /\
    (forall i : nat, i <> (ip_header p + 2)%nat -> i <> (ip_header p + 3)%nat ->
                i <> (ip_header p + 10)%nat -> i <> (ip_header p + 11)%nat ->
                buffer p2 !! i = buffer p !! i).
Proof.
  intros Hv Hn. pose proof Hv as (Hhl & H5 & Hfit).
  assert (Hfit3 : (ip_header p + 3 < length (buffer p))%nat) by lia.
  set (p1 := MkPacket (<[(ip_header p + 3)%nat := byte_of_Z n]>
                         (<[(ip_header p + 2)%nat := byte_of_Z (n / 256)]> (buffer p)))
                      (ip_header p)).
  assert (Hp1 : setPacketTotalLength be p n = Some p1)
    by exact (setPacketTotalLength_explicit be p n Hfit3).
  assert (Hlen1 : length (buffer p1) = length (buffer p))
    by (subst p1; cbn [buffer]; rewrite !length_insert; reflexivity).
  assert (Hframe1 : forall i : nat, i <> (ip_header p + 2)%nat -> i <> (ip_header p + 3)%nat ->
                      buffer p1 !! i = buffer p !! i).
  { intros i H2 H3. subst p1. cbn [buffer].
    rewrite !list_lookup_insert_ne by congruence. reflexivity. }
  assert (Hv1 : valid_ip_header p1 hl).
  { split; [|split; [exact H5 | rewrite Hlen1; exact Hfit]].
    unfold ip_hl, load8 in *. change (ip_header p1) with (ip_header p).
    rewrite Hframe1 by (unfold off_ip_hl; lia). exact Hhl. }
  pose proof (computeChecksum_explicit be p1 hl Hv1) as Hp2. cbv zeta in Hp2.
  set (c := click_in_cksum be (header_sum_cleared p1 hl)) in Hp2.
  match type of Hp2 with _ = Some ?r => set (p2 := r) in * end.
  assert (Hframe2 : forall i : nat, i <> (ip_header p + 10)%nat -> i <> (ip_header p + 11)%nat ->
                      buffer p2 !! i = buffer p1 !! i).
  { intros i H10 H11. subst p2. cbn [buffer]. unfold sum_cleared.
    change (ip_header p1) with (ip_header p).
    rewrite !list_lookup_insert_ne by congruence. reflexivity. }
  exists p1, p2. split; [exact Hp1|]. split.
  { unfold load16. change (ip_header p1) with (ip_header p).
    rewrite !Hframe1 by (unfold off_ip_sum; lia). reflexivity. }
  split; [exact Hp2|]. split.
  { rewrite (packetTotalLength_bytes be p2 (byte_of_Z (n / 256)) (byte_of_Z n)).
    - rewrite !Z_of_byte_of_Z. f_equal. Z.div_mod_to_equations. lia.
    - change (ip_header p2) with (ip_header p). rewrite Hframe2 by lia.
      subst p1. cbn [buffer].
      rewrite list_lookup_insert_ne by lia. apply list_lookup_insert_eq. lia.
    - change (ip_header p2) with (ip_header p). rewrite Hframe2 by lia.
      subst p1. cbn [buffer].
      apply list_lookup_insert_eq. rewrite length_insert. lia. }
  split; [exact (computeChecksum_verifies be p1 hl p2 Hv1 Hp2)|].
  split; [reflexivity|].
  split; [|split].
  - apply load32_frame; [reflexivity|]. intros i Hi. unfold off_ip_src in Hi.
    rewrite Hframe2, Hframe1 by lia. reflexivity.
  - apply load32_frame; [reflexivity|]. intros i Hi. unfold off_ip_dst in Hi.
    rewrite Hframe2, Hframe1 by lia. reflexivity.
  - intros i H2 H3 H10 H11. rewrite Hframe2, Hframe1 by assumption. reflexivity.
Qed.

(** [sample_packet] with total length 40. *)
Lemma set_length_then_checksum_witness :
  exists p1 p2,
    setPacketTotalLength false sample_packet 40 = Some p1 /\
    load16 false p1 off_ip_sum = load16 false sample_packet off_ip_sum /\
    computeChecksum false p1 = Some p2 /\
    packetTotalLength false p2 = Some 40 /\
    (exists hdr, header_bytes p2 (Z.to_nat (4 * 5)) = Some hdr /\
                 click_in_cksum false hdr = 0) /\
    getIPHeaderOffset p2 = getIPHeaderOffset sample_packet /\
    getSourceAddress false p2 = getSourceAddress false sample_packet /\
    getDestinationAddress false p2 = getDestinationAddress false sample_packet /\
    (forall i : nat, i <> (ip_header sample_packet + 2)%nat ->
                i <> (ip_header sample_packet + 3)%nat ->
                i <> (ip_header sample_packet + 10)%nat ->
                i <> (ip_header sample_packet + 11)%nat ->
                buffer p2 !! i = buffer sample_packet !! i).
Proof.
  apply (set_length_then_checksum false sample_packet 5 40).
  - split; [reflexivity | split; [lia | vm_compute; lia]].
  - lia.
Defined.

End IPElemFacts.

(* ===================================================================== *)
(** * DPDK device: queues ([lib/dpdkdevice.cc]) *)
(* ===================================================================== *)

Module DPDKQueues.

(** The largest size a [Vector] can have: its sizes are [int]s. *)
Definition INT_MAX : Z := 2 ^ 31 - 1.

(** The loop of [set_slot]: the first index whose slot is [false], or the
    size of the vector when every slot is [true]. *)
Fixpoint first_free (v : list bool) : nat :=
  match v with
  | [] => 0
  | b :: v' => if b then S (first_free v') else 0
  end.

(** [v.resize(n, false)] for [n] above the size of [v]. *)
Definition grow (v : list bool) (n : nat) : list bool :=
  v ++ replicate (n - length v) false.

(** [set_slot(v, id)]: the answer, the vector and [id] after the call. [id]
    is an [unsigned], so [id <= 0] means [id == 0]. A call that would have to
    resize the vector beyond [INT_MAX] slots has no defined result. *)
Definition set_slot (v : list bool) (id : Z) : option (bool * list bool * Z) :=
  let id := if id <=? 0 then Z.of_nat (first_free v) else id in
  if (Z.of_nat (length v) <=? id) && (INT_MAX <=? id) then None
  else
    let v := if Z.of_nat (length v) <=? id then grow v (Z.to_nat id + 1) else v in
    match v !! Z.to_nat id with
    | Some true => Some (false, v, id)
    | Some false => Some (true, <[Z.to_nat id := true]> v, id)
    | None => None
    end.

(** The number of slots that are taken. *)
Fixpoint taken (v : list bool) : nat :=
  match v with
  | [] => 0
  | b :: v' => ((if b then 1 else 0) + taken v')%nat
  end.

(** The part of [DevInfo] that [add_queue] works on, and the direction of a
    queue. *)
Record DevInfo := MkDevInfo {
  rx_queues : list bool;
  tx_queues : list bool;
  promisc : bool;
  n_rx_descs : Z;
  n_tx_descs : Z
}.

Inductive Dir := RX | TX.

(** The complaints of [add_queue] to the error handler. *)
Inductive complaint :=
| AfterInitialization     (* "Trying to configure DPDK device after initialization" *)
| PromiscDisagree         (* "... disagree on whether or not device should be in promiscuous mode" *)
| RxDescDisagree          (* "... disagree on the number of RX descriptors" *)
| SameRxQueue             (* "Some elements are assigned to the same RX queue" *)
| TxDescDisagree          (* "... disagree on the number of TX descriptors" *)
| SameTxQueue.            (* "Some elements are assigned to the same TX queue" *)

(** The outcome of [add_queue]: the [int] it returns, what it told the error
    handler, and the device information and queue identifier it leaves. *)
Record added := MkAdded {
  result : Z;
  complaints : list complaint;
  info_after : DevInfo;
  queue_id_after : Z
}.

Section AddQueue.

(** What [errh->error(...)] returns. *)
Variable errh_error : Z.

Definition fail (c : complaint) (info : DevInfo) (queue_id : Z) : option added :=
  Some (MkAdded errh_error [c] info queue_id).

Definition add_queue (_is_initialized : bool) (info : DevInfo) (dir : Dir)
    (queue_id : Z) (promisc0 : bool) (n_desc : Z) : option added :=
  if _is_initialized then fail AfterInitialization info queue_id
  else
    match dir with
    | RX =>
        if (0 <? Z.of_nat (length (rx_queues info)))
           && negb (Bool.eqb promisc0 (promisc info))
        then fail PromiscDisagree info queue_id
        else
          let info := MkDevInfo (rx_queues info) (tx_queues info)
                                (promisc info || promisc0)
                                (n_rx_descs info) (n_tx_descs info) in
          if (0 <? n_desc) && negb (n_desc =? n_rx_descs info)
             && (0 <? Z.of_nat (length (rx_queues info)))
          then fail RxDescDisagree info queue_id
          else
            let info := if 0 <? n_desc
                        then MkDevInfo (rx_queues info) (tx_queues info) (promisc info)
                                       n_desc (n_tx_descs info)
                        else info in
            '(ok, v, id) ← set_slot (rx_queues info) queue_id;
            let info := MkDevInfo v (tx_queues info) (promisc info)
                                  (n_rx_descs info) (n_tx_descs info) in
            if negb ok then fail SameRxQueue info id
            else Some (MkAdded 0 [] info id)
    | TX =>
        if (0 <? n_desc) && negb (n_desc =? n_tx_descs info)
           && (0 <? Z.of_nat (length (tx_queues info)))
        then fail TxDescDisagree info queue_id
        else
          let info := if 0 <? n_desc
                      then MkDevInfo (rx_queues info) (tx_queues info) (promisc info)
                                     (n_rx_descs info) n_desc
                      else info in
          '(ok, v, id) ← set_slot (tx_queues info) queue_id;
          let info := MkDevInfo (rx_queues info) v (promisc info)
                                (n_rx_descs info) (n_tx_descs info) in
          if negb ok then fail SameTxQueue info id
          else Some (MkAdded 0 [] info id)
    end.

Definition add_rx_queue (_is_initialized : bool) (info : DevInfo)
    (queue_id : Z) (promisc0 : bool) (n_desc : Z) : option added :=
  add_queue _is_initialized info RX queue_id promisc0 n_desc.

Definition add_tx_queue (_is_initialized : bool) (info : DevInfo)
    (queue_id : Z) (n_desc : Z) : option added :=
  add_queue _is_initialized info TX queue_id false n_desc.

End AddQueue.

(** ** [set_slot] *)

Lemma first_free_le v : (first_free v <= length v)%nat.
Proof. induction v as [|[] v IH]; cbn; lia. Qed.

Lemma first_free_below v : forall j, (j < first_free v)%nat -> v !! j = Some true.
Proof.
  induction v as [|[] v IH]; intros j Hj; cbn in Hj; try lia.
  destruct j as [|j]; [reflexivity|]. cbn. apply IH. lia.
Qed.

Lemma first_free_at v : v !! first_free v = Some false \/ first_free v = length v.
Proof.
  induction v as [|[] v IH]; cbn.
  - right. reflexivity.
  - destruct IH as [IH|IH]; [left; exact IH | right; lia].
  - left. reflexivity.
Qed.

Lemma taken_app v v' : taken (v ++ v') = (taken v + taken v')%nat.
Proof. induction v as [|b v IH]; cbn; [reflexivity | rewrite IH; lia]. Qed.

Lemma taken_replicate_false n : taken (replicate n false) = 0%nat.
Proof. induction n as [|n IH]; [reflexivity | exact IH]. Qed.

Lemma taken_grow v n : taken (grow v n) = taken v.
Proof. unfold grow. rewrite taken_app, taken_replicate_false. lia. Qed.

Lemma taken_insert_free v : forall i,
  v !! i = Some false -> taken (<[i := true]> v) = S (taken v).
Proof.
  induction v as [|b v IH]; intros [|i] Hi; try discriminate.
  - cbn in Hi. injection Hi as ->. reflexivity.
  - cbn in Hi. specialize (IH i Hi).
    change (taken (b :: <[i := true]> v) = S (taken (b :: v))).
    cbn [taken]. rewrite IH. lia.
Qed.

Lemma grow_lookup_old v n j b : v !! j = Some b -> grow v n !! j = Some b.
Proof. intros H. unfold grow. apply lookup_app_l_Some, H. Qed.

Lemma grow_lookup_new v n j :
  (length v <= j < n)%nat -> grow v n !! j = Some false.
Proof.
  intros Hj. unfold grow. rewrite lookup_app_r by lia.
  apply lookup_replicate. split; [reflexivity | lia].
Qed.

Lemma grow_length v n : (length v <= n)%nat -> length (grow v n) = n.
Proof. intros H. unfold grow. rewrite length_app, length_replicate. lia. Qed.

(** What taking the free slot [i] of [v] leaves in [v']. *)
Definition slot_set (v v' : list bool) (i : nat) : Prop :=
  v' !! i = Some true /\
  (forall j b, v !! j = Some b -> j <> i -> v' !! j = Some b) /\
  (forall j, (length v <= j < length v')%nat -> j <> i -> v' !! j = Some false) /\
  length v' = Nat.max (length v) (i + 1) /\
  taken v' = S (taken v).

Lemma set_free_slot v i :
  v !! i <> Some true ->
  let v0 := if Z.of_nat (length v) <=? Z.of_nat i then grow v (i + 1) else v in
  v0 !! i = Some false /\ slot_set v (<[i := true]> v0) i.
Proof.
  intros Hfree v0.
  assert (H0 : v0 !! i = Some false /\ length v0 = Nat.max (length v) (i + 1) /\
               taken v0 = taken v /\
               (forall j b, v !! j = Some b -> v0 !! j = Some b) /\
               (forall j, (length v <= j < length v0)%nat -> v0 !! j = Some false)).
  { subst v0. destruct (Z.leb_spec (Z.of_nat (length v)) (Z.of_nat i)) as [Hle|Hlt].
    - split; [apply grow_lookup_new; lia|]. split; [rewrite grow_length; lia|].
      split; [apply taken_grow|]. split.
      + intros j b Hj. apply grow_lookup_old, Hj.
      + intros j Hj. rewrite grow_length in Hj by lia. apply grow_lookup_new. lia.
    - destruct (lookup_lt_is_Some_2 v i ltac:(lia)) as [[] Hb]; [contradiction|].
      split; [exact Hb|]. split; [lia|]. split; [reflexivity|]. split; [auto|].
      intros j Hj. lia. }
  destruct H0 as (Hi & Hlen & Htaken & Hold & Hnew).
  split; [exact Hi|]. unfold slot_set. rewrite length_insert.
  split; [apply list_lookup_insert_eq; apply lookup_lt_Some in Hi; exact Hi|].
  split; [intros j b Hj Hne; rewrite list_lookup_insert_ne by congruence; apply Hold, Hj|].
  split; [intros j Hj Hne; rewrite list_lookup_insert_ne by congruence; apply Hnew, Hj|].
  split; [exact Hlen|]. rewrite (taken_insert_free v0 i Hi), Htaken. reflexivity.
Qed.

(** The queue a request for [queue_id] stands for. *)
Definition wanted (v : list bool) (queue_id : Z) : nat :=
  if queue_id <=? 0 then first_free v else Z.to_nat queue_id.

Lemma set_slot_inv (v : list bool) (id : Z) ok v' id' :
  set_slot v id = Some (ok, v', id') ->
  id' = Z.of_nat (wanted v id) /\
  if ok : bool then v !! wanted v id <> Some true /\ slot_set v v' (wanted v id)
  else v' = v /\ v !! wanted v id = Some true /\ 0 < id /\ id' = id.
Proof.
  unfold set_slot. set (i := wanted v id).
  assert (Hauto : v !! first_free v <> Some true).
  { pose proof (first_free_le v).
    destruct (first_free_at v) as [H'|H']; [rewrite H'; discriminate|].
    rewrite H', lookup_ge_None_2 by lia. discriminate. }
  assert (Hi : (if id <=? 0 then Z.of_nat (first_free v) else id) = Z.of_nat i /\
               (0 < id /\ Z.of_nat i = id \/ i = first_free v)).
  { subst i. unfold wanted. destruct (Z.leb_spec id 0); [lia|].
    rewrite Z2Nat.id by lia. lia. }
  destruct Hi as (-> & Hpos).
  destruct ((Z.of_nat (length v) <=? Z.of_nat i) && (INT_MAX <=? Z.of_nat i));
    [discriminate|].
  rewrite Nat2Z.id.
  destruct (decide (v !! i = Some true)) as [Htaken|Hfree].
  - destruct Hpos as [[Hpos Heq]| ->]; [|contradiction].
    apply lookup_lt_Some in Htaken as Hlt.
    replace (Z.of_nat (length v) <=? Z.of_nat i) with false
      by (symmetry; apply Z.leb_gt; lia).
    rewrite Htaken. intros [= <- <- <-]. auto.
  - destruct (set_free_slot v i Hfree) as (H0 & Hset). cbv zeta in H0.
    rewrite H0. intros [= <- <- <-]. auto.
Qed.

Lemma set_slot_cases (v : list bool) (id : Z) :
  id < INT_MAX -> Z.of_nat (length v) < INT_MAX ->
  let i := if id <=? 0 then first_free v else Z.to_nat id in
  (v !! i = Some true /\ 0 < id /\ set_slot v id = Some (false, v, id)) \/
  (v !! i <> Some true /\
   exists v', set_slot v id = Some (true, v', Z.of_nat i) /\ slot_set v v' i).
Proof.
  intros Hid Hlen i. pose proof (first_free_le v) as Hle.
  assert (Hauto : v !! first_free v <> Some true).
  { destruct (first_free_at v) as [H|H]; [rewrite H; discriminate|].
    rewrite H, lookup_ge_None_2 by lia. discriminate. }
  assert (Hi : (if id <=? 0 then Z.of_nat (first_free v) else id) = Z.of_nat i /\
               Z.of_nat i < INT_MAX /\ (0 < id \/ i = first_free v)).
  { subst i. destruct (Z.leb_spec id 0); [lia|]. rewrite Z2Nat.id by lia. lia. }
  destruct Hi as (Hi & Hmax & Hpos).
  unfold set_slot. rewrite Hi.
  replace ((Z.of_nat (length v) <=? Z.of_nat i) && (INT_MAX <=? Z.of_nat i)) with false.
  2:{ symmetry. apply andb_false_iff. right. apply Z.leb_gt. lia. }
  rewrite Nat2Z.id.
  destruct (decide (v !! i = Some true)) as [Htaken|Hfree].
  - left. destruct Hpos as [Hpos| ->]; [|contradiction].
    apply lookup_lt_Some in Htaken as Hlt.
    replace (Z.of_nat (length v) <=? Z.of_nat i) with false
      by (symmetry; apply Z.leb_gt; lia).
    rewrite Htaken. repeat split; [exact Hpos|].
    destruct (Z.leb_spec id 0); [lia|]. subst i. rewrite Z2Nat.id by lia. reflexivity.
  - right. split; [exact Hfree|].
    destruct (set_free_slot v i Hfree) as (H0 & Hset). cbv zeta in H0.
    rewrite H0. eexists. split; [reflexivity | exact Hset].
Qed.

(** Asking for any queue ([id = 0]) always succeeds: the lowest free slot is
    taken, a new one being added when all are in use. Every slot below it
    was taken already, no other slot changes, and the number of taken slots
    grows by one. *)
Theorem set_slot_auto (v : list bool) :
  Z.of_nat (length v) < INT_MAX ->
  exists v', set_slot v 0 = Some (true, v', Z.of_nat (first_free v)) /\
    (forall j, (j < first_free v)%nat -> v !! j = Some true) /\
    v !! first_free v <> Some true /\
    v' !! first_free v = Some true /\
    (forall j b, v !! j = Some b -> j <> first_free v -> v' !! j = Some b) /\
    length v' = Nat.max (length v) (first_free v + 1) /\
    taken v' = S (taken v).
Proof.
  intros Hlen. pose proof (first_free_le v) as Hle.
  assert (Hfree : v !! first_free v <> Some true).
  { destruct (first_free_at v) as [H|H]; [rewrite H; discriminate|].
    rewrite H, lookup_ge_None_2 by lia. discriminate. }
  destruct (set_free_slot v (first_free v) Hfree) as (H0 & Hset & Hold & _ & Hl & Ht).
  unfold set_slot. change (0 <=? 0) with true. cbv iota zeta.
  replace ((Z.of_nat (length v) <=? Z.of_nat (first_free v))
           && (INT_MAX <=? Z.of_nat (first_free v))) with false.
  2:{ symmetry. apply andb_false_iff. right. apply Z.leb_gt. lia. }
  rewrite Nat2Z.id. cbv zeta in H0.
  rewrite H0. eexists. split; [reflexivity|].
  split; [apply first_free_below|]. repeat split; assumption.
Qed.

(** Asking for queue [id > 0]: the call fails, and changes nothing, exactly
    when that slot is taken; otherwise it takes the slot, filling the vector
    with free slots up to it when it is too short. *)
Theorem set_slot_explicit (v : list bool) (id : Z) :
  0 < id < INT_MAX ->
  (v !! Z.to_nat id = Some true -> set_slot v id = Some (false, v, id)) /\
  (v !! Z.to_nat id <> Some true ->
     exists v', set_slot v id = Some (true, v', id) /\
       slot_set v v' (Z.to_nat id)).
Proof.
  intros Hid. unfold set_slot.
  replace (id <=? 0) with false by (symmetry; apply Z.leb_gt; lia).
  replace ((Z.of_nat (length v) <=? id) && (INT_MAX <=? id)) with false.
  2:{ symmetry. apply andb_false_iff. right. apply Z.leb_gt. lia. }
  split.
  - intros Htaken. apply lookup_lt_Some in Htaken as Hlt.
    replace (Z.of_nat (length v) <=? id) with false by (symmetry; apply Z.leb_gt; lia).
    rewrite Htaken. reflexivity.
  - intros Hfree.
    destruct (set_free_slot v (Z.to_nat id) Hfree) as (H0 & Hset).
    rewrite Z2Nat.id in * by lia. rewrite H0.
    eexists. split; [reflexivity | exact Hset].
Qed.

Lemma set_slot_auto_witness :
  Z.of_nat (length [true; true; false; true]) < INT_MAX /\
  exists v', set_slot [true; true; false; true] 0 = Some (true, v', 2) /\
    v' !! 2%nat = Some true /\ length v' = 4%nat /\ taken v' = 4%nat.
Proof.
  split; [vm_compute; reflexivity|].
  destruct (set_slot_auto [true; true; false; true] ltac:(vm_compute; reflexivity))
    as (v' & H & _ & _ & Hset & _ & Hlen & Htaken).
  exists v'. repeat split; assumption.
Defined.

Lemma set_slot_explicit_witness :
  set_slot [true; false; true] 2 = Some (false, [true; false; true], 2) /\
  exists v', set_slot [true] 3 = Some (true, v', 3) /\
    slot_set [true] v' 3.
Proof.
  split.
  - apply (proj1 (set_slot_explicit [true; false; true] 2 ltac:(vm_compute; split; reflexivity))).
    reflexivity.
  - apply (proj2 (set_slot_explicit [true] 3 ltac:(vm_compute; split; reflexivity))).
    discriminate.
Defined.

(** ** [add_queue] *)

Definition sized (info : DevInfo) : Prop :=
  Z.of_nat (length (rx_queues info)) < INT_MAX /\
  Z.of_nat (length (tx_queues info)) < INT_MAX.

(** The queues of one direction. *)
Definition queues (dir : Dir) (info : DevInfo) : list bool :=
  match dir with RX => rx_queues info | TX => tx_queues info end.

Definition n_descs (dir : Dir) (info : DevInfo) : Z :=
  match dir with RX => n_rx_descs info | TX => n_tx_descs info end.

(** When the device takes a request. *)
Definition agrees (info : DevInfo) (dir : Dir) (queue_id : Z) (promisc0 : bool)
    (n_desc : Z) : Prop :=
  (dir = RX -> queues dir info = [] \/ promisc0 = promisc info) /\
  (n_desc <= 0 \/ n_desc = n_descs dir info \/ queues dir info = []) /\
  (queue_id <= 0 \/ queues dir info !! Z.to_nat queue_id <> Some true).

(** The device information an accepted request leaves, with [v'] the
    queues of its direction. *)
Definition accepted (info : DevInfo) (dir : Dir) (promisc0 : bool) (n_desc : Z)
    (v' : list bool) : DevInfo :=
  match dir with
  | RX => MkDevInfo v' (tx_queues info) (promisc info || promisc0)
            (if 0 <? n_desc then n_desc else n_rx_descs info) (n_tx_descs info)
  | TX => MkDevInfo (rx_queues info) v' (promisc info)
            (n_rx_descs info) (if 0 <? n_desc then n_desc else n_tx_descs info)
  end.

Lemma length_pos_false {A} (l : list A) :
  (0 <? Z.of_nat (length l)) = false <-> l = [].
Proof.
  destruct l; cbn [length]; split; intros H; try reflexivity; discriminate.
Qed.

Lemma length_pos_true {A} (l : list A) :
  (0 <? Z.of_nat (length l)) = true <-> l <> [].
Proof.
  destruct l; cbn [length]; split; intros H; try congruence; try discriminate.
  reflexivity.
Qed.

Lemma eqb_false_neq (a b : bool) : negb (Bool.eqb a b) = true <-> a <> b.
Proof. destruct a, b; cbn; split; intros H; congruence. Qed.

Section AddQueueFacts.

Variable errh_error : Z.

#[local] Abbreviation add_queue' := (add_queue errh_error).

Ltac simp :=
  cbn [andb negb orb rx_queues tx_queues promisc n_rx_descs n_tx_descs
       mbind option_bind].

Ltac slot v q :=
  let ok := fresh "ok" in
  destruct (set_slot v q) as [[[ok ?v'] ?id']|] eqn:Hs; simp; [|exact I];
  apply set_slot_inv in Hs as (Hid & Hs); destruct ok; simp;
  [destruct Hs as (Hf & Hset); subst | destruct Hs as (-> & Ht & Hpos & ->)].

Ltac free_slot Hf :=
  unfold wanted in Hf;
  match goal with
  | |- ?q <= 0 \/ _ => destruct (Z.leb_spec q 0); [left; lia | right; exact Hf]
  end.

Ltac taken_slot Ht Hpos :=
  unfold wanted in Ht;
  match type of Hpos with
  | 0 < ?q => replace (q <=? 0) with false in Ht by (symmetry; apply Z.leb_gt; lia)
  end;
  intros (_ & _ & [?|?]); [lia | contradiction].

Lemma add_queue_run (info : DevInfo) (dir : Dir) (queue_id : Z)
    (promisc0 : bool) (n_desc : Z) :
  let v := queues dir info in
  let i := wanted v queue_id in
  match add_queue' false info dir queue_id promisc0 n_desc with
  | None => True
  | Some r =>
      (~ agrees info dir queue_id promisc0 n_desc /\
       exists c, r = MkAdded errh_error [c] info queue_id) \/
      (agrees info dir queue_id promisc0 n_desc /\ v !! i <> Some true /\
       exists v', slot_set v v' i /\
         r = MkAdded 0 [] (accepted info dir promisc0 n_desc v') (Z.of_nat i))
  end.
Proof.
  intros v i. subst v i. unfold agrees, accepted.
  destruct info as [rx tx pr nrx ntx].
  destruct dir; cbn [queues n_descs rx_queues tx_queues promisc n_rx_descs n_tx_descs].
  - unfold add_queue, fail. cbn [rx_queues tx_queues promisc n_rx_descs n_tx_descs].
    destruct (0 <? Z.of_nat (length rx)) eqn:Hlen;
      [apply length_pos_true in Hlen | apply length_pos_false in Hlen].
    + destruct (negb (Bool.eqb promisc0 pr)) eqn:Hpr; simp.
      { apply eqb_false_neq in Hpr. left.
        split; [intros (H & _); destruct (H eq_refl); congruence | eauto]. }
      assert (promisc0 = pr) as -> by (destruct promisc0, pr; cbn in Hpr; congruence).
      rewrite orb_diag.
      destruct (Z.ltb_spec 0 n_desc) as [Hn|Hn]; simp.
      * destruct (Z.eqb_spec n_desc nrx) as [->|Hne]; simp.
        -- slot rx queue_id.
           ++ right. split; [|split; [exact Hf | eauto]].
              split; [auto|]. split; [auto|]. free_slot Hf.
           ++ left. split; [taken_slot Ht Hpos | eauto].
        -- left. split; [intros (_ & [H|[H|H]] & _); [lia | congruence | congruence] | eauto].
      * slot rx queue_id.
        -- right. split; [|split; [exact Hf | eauto]].
           split; [auto|]. split; [left; lia|]. free_slot Hf.
        -- left. split; [taken_slot Ht Hpos | eauto].
    + subst rx. simp. rewrite ?andb_false_r. simp.
      destruct (Z.ltb_spec 0 n_desc) as [Hn|Hn]; simp.
      * slot (@nil bool) queue_id; [|discriminate].
        right. split; [|split; [exact Hf | eauto]].
        split; [auto|]. split; [auto|]. free_slot Hf.
      * slot (@nil bool) queue_id; [|discriminate].
        right. split; [|split; [exact Hf | eauto]].
        split; [auto|]. split; [auto|]. free_slot Hf.
  - unfold add_queue, fail. cbn [rx_queues tx_queues promisc n_rx_descs n_tx_descs].
    destruct (0 <? Z.of_nat (length tx)) eqn:Hlen;
      [apply length_pos_true in Hlen | apply length_pos_false in Hlen].
    + rewrite ?andb_true_r.
      destruct (Z.ltb_spec 0 n_desc) as [Hn|Hn]; simp.
      * destruct (Z.eqb_spec n_desc ntx) as [->|Hne]; simp.
        -- slot tx queue_id.
           ++ right. split; [|split; [exact Hf | eauto]].
              split; [discriminate|]. split; [auto|]. free_slot Hf.
           ++ left. split; [taken_slot Ht Hpos | eauto].
        -- left. split; [intros (_ & [H|[H|H]] & _); [lia | congruence | congruence] | eauto].
      * slot tx queue_id.
        -- right. split; [|split; [exact Hf | eauto]].
           split; [discriminate|]. split; [left; lia|]. free_slot Hf.
        -- left. split; [taken_slot Ht Hpos | eauto].
    + subst tx. simp. rewrite ?andb_false_r. simp.
      destruct (Z.ltb_spec 0 n_desc) as [Hn|Hn]; simp.
      * slot (@nil bool) queue_id; [|discriminate].
        right. split; [|split; [exact Hf | eauto]].
        split; [discriminate|]. split; [auto|]. free_slot Hf.
      * slot (@nil bool) queue_id; [|discriminate].
        right. split; [|split; [exact Hf | eauto]].
        split; [discriminate|]. split; [auto|]. free_slot Hf.
Qed.

Lemma add_queue_initialized (info : DevInfo) dir queue_id promisc0 n_desc :
  add_queue' true info dir queue_id promisc0 n_desc
  = Some (MkAdded errh_error [AfterInitialization] info queue_id).
Proof. reflexivity. Qed.

Lemma add_queue_inv _is_initialized (info : DevInfo) dir queue_id promisc0 n_desc r :
  add_queue' _is_initialized info dir queue_id promisc0 n_desc = Some r ->
  ((_is_initialized = true \/ ~ agrees info dir queue_id promisc0 n_desc) /\
   exists c, r = MkAdded errh_error [c] info queue_id) \/
  (_is_initialized = false /\ agrees info dir queue_id promisc0 n_desc /\
   queues dir info !! wanted (queues dir info) queue_id <> Some true /\
   exists v', slot_set (queues dir info) v' (wanted (queues dir info) queue_id) /\
     r = MkAdded 0 [] (accepted info dir promisc0 n_desc v')
           (Z.of_nat (wanted (queues dir info) queue_id))).
Proof.
  destruct _is_initialized.
  - rewrite add_queue_initialized. intros [= <-]. left. eauto.
  - intros H. pose proof (add_queue_run info dir queue_id promisc0 n_desc) as Hrun.
    cbv zeta in Hrun. rewrite H in Hrun.
    destruct Hrun as [(Hno & c & ->)|(Hyes & Hf & v' & Hset & ->)]; [left | right]; eauto 10.
Qed.

Lemma add_queue_total _is_initialized (info : DevInfo) dir queue_id promisc0 n_desc :
  sized info -> queue_id < INT_MAX ->
  exists r, add_queue' _is_initialized info dir queue_id promisc0 n_desc = Some r.
Proof.
  intros [Hrx Htx] Hq. destruct _is_initialized; [rewrite add_queue_initialized; eauto|].
  unfold add_queue, fail. destruct dir; simp.
  - destruct (_ && negb (Bool.eqb promisc0 (promisc info))); [eauto|].
    destruct (_ && _ && _); [eauto|].
    destruct (0 <? n_desc); simp;
      destruct (set_slot_cases (rx_queues info) queue_id Hq Hrx)
        as [(_ & _ & ->)|(_ & v' & -> & _)]; simp; eauto.
  - destruct (_ && _ && _); [eauto|].
    destruct (0 <? n_desc); simp;
      destruct (set_slot_cases (tx_queues info) queue_id Hq Htx)
        as [(_ & _ & ->)|(_ & v' & -> & _)]; simp; eauto.
Qed.

Lemma add_queue_keeps_taken _is_initialized (info : DevInfo) dir queue_id promisc0
    n_desc r dir' j :
  add_queue' _is_initialized info dir queue_id promisc0 n_desc = Some r ->
  queues dir' info !! j = Some true ->
  queues dir' (info_after r) !! j = Some true.
Proof.
  intros H Hj. apply add_queue_inv in H.
  destruct H as [(_ & c & ->)|(_ & _ & Hf & v' & Hset & ->)]; [exact Hj|].
  cbn [info_after]. destruct Hset as (Hi & Hframe & _).
  destruct dir, dir'; cbn [queues accepted rx_queues tx_queues] in *; try exact Hj.
  - destruct (decide (j = wanted (rx_queues info) queue_id)) as [->|Hne]; [exact Hi|].
    apply Hframe; assumption.
  - destruct (decide (j = wanted (tx_queues info) queue_id)) as [->|Hne]; [exact Hi|].
    apply Hframe; assumption.
Qed.

(** A refused request changes nothing: whenever [add_queue] complains, it
    returns what the error handler returned, after exactly one complaint, and
    the device information and the caller's queue identifier are as before
    the call. *)
Theorem add_queue_refusal_changes_nothing _is_initialized (info : DevInfo) dir
    queue_id promisc0 n_desc r :
  add_queue' _is_initialized info dir queue_id promisc0 n_desc = Some r ->
  complaints r <> [] ->
  result r = errh_error /\ (exists c, complaints r = [c]) /\
  info_after r = info /\ queue_id_after r = queue_id.
Proof.
  intros H Hc. apply add_queue_inv in H.
  destruct H as [(_ & c & ->)|(_ & _ & _ & v' & _ & ->)]; [|contradiction].
  cbn. eauto.
Qed.

(** With vectors and identifier in the range of [int], [add_queue] answers,
    and it accepts the request (no complaint, result 0) exactly when the
    device is not initialized yet and the request agrees with the earlier
    ones: for RX the same promiscuous mode unless it is the first RX queue,
    no descriptor count or the one already set unless it is the first queue
    of its direction, and any queue or one that is not taken. *)
Theorem add_queue_accepts_iff _is_initialized (info : DevInfo) dir queue_id
    promisc0 n_desc :
  sized info -> queue_id < INT_MAX ->
  exists r, add_queue' _is_initialized info dir queue_id promisc0 n_desc = Some r /\
    (complaints r = [] <->
       _is_initialized = false /\ agrees info dir queue_id promisc0 n_desc) /\
    (complaints r = [] -> result r = 0).
Proof.
  intros Hs Hq.
  destruct (add_queue_total _is_initialized info dir queue_id promisc0 n_desc Hs Hq)
    as [r Hr].
  exists r. split; [exact Hr|]. apply add_queue_inv in Hr.
  destruct Hr as [(Hno & c & ->)|(Hi & Hyes & _ & v' & _ & ->)]; cbn.
  - split; [|discriminate]. split; [discriminate|].
    intros [Hi Hyes]. destruct Hno; [congruence | contradiction].
  - split; [|reflexivity]. split; auto.
Qed.

(** An accepted request takes the queue it stands for, the lowest free one
    for [queue_id = 0], which was free, and hands its number back in
    [queue_id]. Every other queue of that direction is as before, the queues
    and descriptor count of the other direction are untouched, a positive
    [n_desc] becomes the descriptor count of the direction, and an RX
    request adds its promiscuous flag to the device's. *)
Theorem add_queue_takes_wanted_queue _is_initialized (info : DevInfo) dir queue_id
    promisc0 n_desc r :
  add_queue' _is_initialized info dir queue_id promisc0 n_desc = Some r ->
  complaints r = [] ->
  let i := wanted (queues dir info) queue_id in
  queue_id_after r = Z.of_nat i /\
  queues dir info !! i <> Some true /\
  slot_set (queues dir info) (queues dir (info_after r)) i /\
  info_after r = accepted info dir promisc0 n_desc (queues dir (info_after r)).
Proof.
  intros H Hc i. subst i. apply add_queue_inv in H.
  destruct H as [(_ & c & ->)|(_ & _ & Hf & v' & Hset & ->)]; [discriminate|].
  cbn [queue_id_after info_after].
  replace (queues dir (accepted info dir promisc0 n_desc v')) with v'
    by (destruct dir; reflexivity).
  auto.
Qed.

End AddQueueFacts.

(** ** Sequences of requests *)

(** One request for a queue, as an element makes it when it is configured:
    direction, queue identifier, promiscuous flag, descriptor count. *)
Definition request : Type := Dir * Z * bool * Z.

(** The device information after a sequence of calls of [add_queue] on a
    device that is not initialized. *)
Fixpoint add_queues (errh_error : Z) (info : DevInfo) (reqs : list request)
    : option DevInfo :=
  match reqs with
  | [] => Some info
  | (dir, queue_id, promisc0, n_desc) :: reqs' =>
      r ← add_queue errh_error false info dir queue_id promisc0 n_desc;
      add_queues errh_error (info_after r) reqs'
  end.

Lemma add_queues_keep_taken errh_error reqs : forall info info' dir j,
  add_queues errh_error info reqs = Some info' ->
  queues dir info !! j = Some true -> queues dir info' !! j = Some true.
Proof.
  induction reqs as [|[[[d q] p] n] reqs IH]; intros info info' dir j H Hj.
  - cbn in H. congruence.
  - cbn [add_queues] in H.
    destruct (add_queue errh_error false info d q p n) as [r|] eqn:Hr; [|discriminate].
    cbn [mbind option_bind] in H.
    apply (IH _ _ _ _ H). apply (add_queue_keeps_taken _ _ _ _ _ _ _ _ _ _ Hr Hj).
Qed.

(** No queue is given out twice: when a request was accepted with queue
    [i], no request of the same direction that is accepted later, after any
    other calls of [add_queue], accepted or refused, gets queue [i]. *)
Theorem add_queue_never_shares_a_queue errh_error (info : DevInfo) dir
    q1 p1 n1 r1 reqs info2 q2 p2 n2 r2 :
  add_queue errh_error false info dir q1 p1 n1 = Some r1 -> complaints r1 = [] ->
  add_queues errh_error (info_after r1) reqs = Some info2 ->
  add_queue errh_error false info2 dir q2 p2 n2 = Some r2 -> complaints r2 = [] ->
  queue_id_after r2 <> queue_id_after r1.
Proof.
  intros H1 Hc1 Hseq H2 Hc2.
  apply add_queue_inv in H1.
  destruct H1 as [(_ & c & ->)|(_ & _ & _ & v1 & (Hset1 & _) & ->)]; [discriminate|].
  cbn [queue_id_after info_after] in *.
  assert (Ht : queues dir info2 !! wanted (queues dir info) q1 = Some true).
  { apply (add_queues_keep_taken _ _ _ _ _ _ Hseq). destruct dir; exact Hset1. }
  apply add_queue_inv in H2.
  destruct H2 as [(_ & c & ->)|(_ & _ & Hf2 & v2 & _ & ->)]; [discriminate|].
  cbn [queue_id_after]. intros Heq. apply Nat2Z.inj in Heq.
  rewrite Heq in Hf2. contradiction.
Qed.

(** *** The theorems at work *)

Definition info0 : DevInfo := MkDevInfo [] [] false 256 256.
Definition info1 : DevInfo := MkDevInfo [true; false; true] [] true 512 256.

Lemma add_queue_refusal_changes_nothing_witness :
  add_queue (-22) false info1 RX 2 true 512
    = Some (MkAdded (-22) [SameRxQueue] info1 2) /\
  result (MkAdded (-22) [SameRxQueue] info1 2) = -22.
Proof.
  split; [reflexivity|].
  apply (add_queue_refusal_changes_nothing (-22) false info1 RX 2 true 512);
    [reflexivity | discriminate].
Defined.

Lemma add_queue_accepts_iff_witness :
  exists r, add_queue (-22) false info1 RX 0 true 1024 = Some r /\
    (complaints r = [] <-> false = false /\ agrees info1 RX 0 true 1024) /\
    (complaints r = [] -> result r = 0).
Proof.
  apply (add_queue_accepts_iff (-22) false info1 RX 0 true 1024);
    [split; vm_compute; reflexivity | vm_compute; reflexivity].
Defined.

Lemma add_queue_takes_wanted_queue_witness :
  add_queue (-22) false info1 RX 0 true 0
    = Some (MkAdded 0 [] (MkDevInfo [true; true; true] [] true 512 256) 1) /\
  queue_id_after (MkAdded 0 [] (MkDevInfo [true; true; true] [] true 512 256) 1)
    = Z.of_nat (wanted (queues RX info1) 0).
Proof.
  split; [reflexivity|].
  apply (add_queue_takes_wanted_queue (-22) false info1 RX 0 true 0); reflexivity.
Defined.

Lemma add_queue_never_shares_a_queue_witness :
  queue_id_after (MkAdded 0 [] (MkDevInfo [true; true; true] [true] false 256 256) 2)
  <> queue_id_after (MkAdded 0 [] (MkDevInfo [true] [] false 256 256) 0).
Proof.
  apply (add_queue_never_shares_a_queue (-22) info0 RX 0 false 0 _
           [(RX, 0, false, 256); (TX, 0, false, 0); (RX, 1, true, 0)]
           (MkDevInfo [true; true] [true] false 256 256) 0 false 0);
    reflexivity.
Defined.

End DPDKQueues.

(** * [DPDKDeviceArg::parse] (lib/dpdkdevice.cc): a port number or a PCI address *)

Module PCIArg.

Import IPElem.

Definition uint8 (z : Z) : Z := z mod 2 ^ 8.

(** The value of a hexadecimal digit, as the three comparisons of the loop
    find it. *)
Definition digit (c : byte) : option Z :=
  let c := Z_of_byte c in
  if (48 <=? c) && (c <=? 57) then Some (c - 48)
  else if (97 <=? c) && (c <=? 102) then Some (c - 97 + 10)
  else if (65 <=? c) && (c <=? 70) then Some (c - 65 + 10)
  else None.

Definition colon : byte := ":"%byte.
Definition dot : byte := "."%byte.

(** The locals of the loop when it is left: [unsigned data[4]], [d] and
    [p]. *)
Record scan := MkScan { data : list Z; d : Z; p : Z }.

(** The loop over the characters of the string. [data] starts with whatever
    the four words hold, [d] and [p] with 0. The result says whether the loop
    ran to the end of the string ([s == end]) or was left by [break]; [None]
    is an access outside [data]. *)
Fixpoint pci_scan (s : list byte) (data : list Z) (d p : Z) : option (scan * bool) :=
  match s with
  | [] => Some (MkScan data d p, true)
  | c :: s' =>
      match digit c with
      | None =>
          if (((Z_of_byte c =? Z_of_byte colon) && (d <? 2))
              || ((Z_of_byte c =? Z_of_byte dot) && (d =? 2)))
             && ((p =? 1) || ((d <? 3) && (p =? 2))
                 || ((d =? 0) && ((p =? 3) || (p =? 4))))
             && (d <? 3)
          then pci_scan s' data (d + 1) 0
          else Some (MkScan data d p, false)
      | Some digit =>
          if ((d =? 0) && (p =? 4)) || ((0 <? d) && (p =? 2))
             || ((d =? 3) && (p =? 1)) || (d =? 4)
          then Some (MkScan data d p, false)
          else
            old ← data !! Z.to_nat d;
            let v := uint32 ((if p =? 0 then 0 else uint32 (Z.shiftl old 4)) + digit) in
            pci_scan s' (<[Z.to_nat d := v]> data) d (p + 1)
      end
  end.

(** The test after the loop: [s == end && p != 0 && d != 3]. *)
Definition format_error (r : scan * bool) : bool :=
  snd r && negb (p (fst r) =? 0) && negb (d (fst r) =? 3).

Inductive parsed :=
| Device (port_id : Z)      (* [result = DPDKDevice::get_device(port_id)], [true] *)
| InvalidFormat             (* "invalid id or invalid PCI address format", [false] *)
| CannotResolve.            (* "Cannot resolve PCI address to DPDK device", [false] *)

Section Parse.

(** [IntArg().parse(str, port_id)]: the port number when the string is one. *)
Variable int_arg : list byte -> option Z.
Variable get_port_from_pci : Z -> Z -> Z -> Z -> Z.
Variable rte_eth_dev_count : Z.

Definition resolve (port_id : Z) : parsed :=
  if (0 <=? port_id) && (port_id <? rte_eth_dev_count) then Device port_id
  else CannotResolve.

Definition parse (str : list byte) (data0 : list Z) : option parsed :=
  match int_arg str with
  | Some port_id => Some (resolve port_id)
  | None =>
      r ← pci_scan str data0 0 0;
      if format_error r then Some InvalidFormat
      else
        d0 ← data (fst r) !! 0%nat; d1 ← data (fst r) !! 1%nat;
        d2 ← data (fst r) !! 2%nat; d3 ← data (fst r) !! 3%nat;
        Some (resolve (uint8 (get_port_from_pci d0 d1 d2 d3)))
  end.

End Parse.

(** The number a run of hexadecimal digits stands for. *)
Fixpoint hexval_from (acc : Z) (cs : list byte) : Z :=
  match cs with
  | [] => acc
  | c :: cs' => hexval_from (acc * 16 + default 0 (digit c)) cs'
  end.

Definition hexval (cs : list byte) : Z := hexval_from 0 cs.

Definition is_hex (c : byte) : Prop := digit c <> None.

(** A character that is neither a hexadecimal digit nor a separator. *)
Definition foreign (c : byte) : Prop :=
  digit c = None /\ c <> colon /\ c <> dot.

(** The digits the loop takes in group [d]. *)
Definition limit (d : Z) : Z := if d =? 0 then 4 else if d =? 3 then 1 else 2.

Lemma digit_range c v : digit c = Some v -> 0 <= v < 16.
Proof.
  unfold digit. pose proof (Z_of_byte_range c).
  repeat (case_match; try discriminate); intros [= <-]; lia.
Qed.

Lemma Z_of_byte_inj a b : Z_of_byte a = Z_of_byte b -> a = b.
Proof.
  unfold Z_of_byte. intros H. apply N2Z.inj in H.
  assert (Hab : Some a = Some b)
    by (rewrite <- (Byte.of_to_N a), <- (Byte.of_to_N b), H; reflexivity).
  congruence.
Qed.

Lemma scan_digits cs : forall rest data d p acc,
  Forall is_hex cs -> 0 <= d <= 3 -> length data = 4%nat ->
  (p = 0 /\ acc = 0 /\ cs <> []) \/
    (0 < p /\ data !! Z.to_nat d = Some acc /\ 0 <= acc < 16 ^ p) ->
  p + Z.of_nat (length cs) <= limit d ->
  pci_scan (cs ++ rest) data d p
  = pci_scan rest (<[Z.to_nat d := hexval_from acc cs]> data) d
      (p + Z.of_nat (length cs)).
Proof.
  induction cs as [|c cs IH]; intros rest data d p acc Hhex Hd Hlen Hacc Hlim.
  - destruct Hacc as [(_ & _ & H)|(Hp & Hacc & _)]; [congruence|].
    cbn [app length hexval_from]. rewrite list_insert_id by exact Hacc.
    f_equal. cbn. lia.
  - apply Forall_cons in Hhex as [Hc Hhex].
    cbn [length] in Hlim. rewrite Nat2Z.inj_succ in Hlim.
    destruct (digit c) as [v|] eqn:Hv; [|contradiction].
    pose proof (digit_range c v Hv) as Hvr.
    cbn [app pci_scan length hexval_from]. rewrite Hv. cbn [default].
    assert (Hp0 : 0 <= p) by lia.
    replace (((d =? 0) && (p =? 4)) || ((0 <? d) && (p =? 2))
             || ((d =? 3) && (p =? 1)) || (d =? 4)) with false.
    2:{ symmetry. unfold limit in Hlim.
        destruct (Z.eqb_spec d 0), (Z.eqb_spec d 3), (Z.eqb_spec d 4),
          (Z.eqb_spec p 4), (Z.eqb_spec p 2), (Z.eqb_spec p 1), (Z.ltb_spec 0 d);
          cbn; try reflexivity; lia. }
    destruct (lookup_lt_is_Some_2 data (Z.to_nat d) ltac:(lia)) as [old Hold].
    rewrite Hold. cbn [mbind option_bind].
    assert (Hnew : uint32 ((if p =? 0 then 0 else uint32 (Z.shiftl old 4)) + v)
                   = acc * 16 + v /\ 0 <= acc * 16 + v < 16 ^ (p + 1)).
    { assert (Hlim4 : p + 1 <= 4).
      { unfold limit in Hlim.
        destruct (d =? 0), (d =? 3); lia. }
      destruct Hacc as [(-> & -> & _)|(Hp & Hacc & Hr)].
      - cbn [Z.eqb]. unfold uint32. rewrite Z.mod_small by lia.
        split; [lia|]. change (16 ^ (0 + 1)) with 16. lia.
      - replace (p =? 0) with false by (symmetry; apply Z.eqb_neq; lia).
        assert (old = acc) as -> by congruence.
        assert (H16 : 16 ^ (p + 1) = 16 * 16 ^ p)
          by (rewrite Z.pow_add_r by lia; lia).
        assert (Hmax : 16 ^ (p + 1) <= 16 ^ 4)
          by (apply Z.pow_le_mono_r; lia).
        rewrite Z.shiftl_mul_pow2 by lia. change (2 ^ 4) with 16.
        unfold uint32. rewrite (Z.mod_small (acc * 16)) by lia.
        rewrite Z.mod_small by lia. lia. }
    destruct Hnew as [-> Hrange].
    rewrite (IH rest _ d (p + 1) (acc * 16 + v) Hhex Hd).
    + rewrite list_insert_insert_eq. f_equal. rewrite Nat2Z.inj_succ. lia.
    + rewrite length_insert. exact Hlen.
    + right. split; [lia|]. split; [|exact Hrange].
      apply list_lookup_insert_eq. lia.
    + lia.
Qed.

Lemma scan_group cs rest data d :
  Forall is_hex cs -> 0 <= d <= 3 -> length data = 4%nat ->
  1 <= Z.of_nat (length cs) <= limit d ->
  pci_scan (cs ++ rest) data d 0
  = pci_scan rest (<[Z.to_nat d := hexval cs]> data) d (Z.of_nat (length cs)).
Proof.
  intros Hhex Hd Hlen Hcs.
  rewrite (scan_digits cs rest data d 0 0 Hhex Hd Hlen); [reflexivity | | lia].
  left. repeat split. intros ->. cbn in Hcs. lia.
Qed.

Lemma digit_colon : digit colon = None.
Proof. reflexivity. Qed.

Lemma digit_dot : digit dot = None.
Proof. reflexivity. Qed.

Lemma scan_colon rest data d p :
  0 <= d < 2 -> 1 <= p <= limit d ->
  pci_scan (colon :: rest) data d p = pci_scan rest data (d + 1) 0.
Proof.
  intros Hd Hp. cbn [pci_scan]. rewrite digit_colon.
  rewrite Z.eqb_refl.
  replace (d <? 2) with true by (symmetry; apply Z.ltb_lt; lia).
  replace (d <? 3) with true by (symmetry; apply Z.ltb_lt; lia).
  cbn [andb orb].
  replace ((p =? 1) || (p =? 2) || (d =? 0) && ((p =? 3) || (p =? 4))) with true;
    [reflexivity|].
  unfold limit in Hp.
  destruct (Z.eqb_spec d 0), (Z.eqb_spec d 3), (Z.eqb_spec p 1), (Z.eqb_spec p 2),
    (Z.eqb_spec p 3), (Z.eqb_spec p 4); cbn; try reflexivity; lia.
Qed.

Lemma scan_dot rest data p :
  1 <= p <= 2 ->
  pci_scan (dot :: rest) data 2 p = pci_scan rest data 3 0.
Proof.
  intros Hp. cbn [pci_scan]. rewrite digit_dot.
  change (Z_of_byte dot =? Z_of_byte colon) with false.
  rewrite Z.eqb_refl. cbn [andb orb Z.eqb Z.ltb Z.compare Pos.compare Pos.compare_cont].
  replace ((p =? 1) || (p =? 2) || false) with true; [reflexivity|].
  destruct (Z.eqb_spec p 1), (Z.eqb_spec p 2); cbn; try reflexivity; lia.
Qed.

(** The string of a PCI address with digit groups [cs0], [cs1], [cs2] and
    last digit [cf]. *)
Definition address (cs0 cs1 cs2 : list byte) (cf : byte) : list byte :=
  cs0 ++ colon :: cs1 ++ colon :: cs2 ++ dot :: [cf].

Definition well_formed (cs0 cs1 cs2 : list byte) (cf : byte) : Prop :=
  Forall is_hex cs0 /\ Forall is_hex cs1 /\ Forall is_hex cs2 /\ is_hex cf /\
  (1 <= length cs0 <= 4)%nat /\ (1 <= length cs1 <= 2)%nat /\
  (1 <= length cs2 <= 2)%nat.

Lemma scan_address cs0 cs1 cs2 cf data0 :
  well_formed cs0 cs1 cs2 cf -> length data0 = 4%nat ->
  pci_scan (address cs0 cs1 cs2 cf) data0 0 0
  = Some (MkScan [hexval cs0; hexval cs1; hexval cs2; hexval [cf]] 3 1, true).
Proof.
  intros (H0 & H1 & H2 & Hf & L0 & L1 & L2) Hlen. unfold address.
  assert (Hl0 : limit 0 = 4) by reflexivity.
  assert (Hl1 : limit 1 = 2) by reflexivity.
  assert (Hl2 : limit 2 = 2) by reflexivity.
  assert (Hl3 : limit 3 = 1) by reflexivity.
  rewrite (scan_group cs0) by (try assumption; lia).
  rewrite scan_colon by lia. change (0 + 1) with 1.
  rewrite (scan_group cs1) by (try assumption; rewrite ?length_insert; lia).
  rewrite scan_colon by lia. change (1 + 1) with 2.
  rewrite (scan_group cs2) by (try assumption; rewrite ?length_insert; lia).
  rewrite scan_dot by lia.
  rewrite (scan_group [cf] [])
    by (try (apply Forall_singleton; assumption); rewrite ?length_insert;
        cbn [length]; lia).
  destruct data0 as [|a [|b [|c [|e [|? ?]]]]]; try discriminate.
  reflexivity.
Qed.

Lemma scan_length s : forall data d p sc e,
  pci_scan s data d p = Some (sc, e) -> length (PCIArg.data sc) = length data.
Proof.
  induction s as [|c s IH]; intros data d p sc e H; cbn [pci_scan] in H.
  - injection H as <- <-. reflexivity.
  - destruct (digit c).
    + destruct (_ || _ || _ || _); [injection H as <- <-; reflexivity|].
      destruct (data !! Z.to_nat d); [|discriminate]. cbn [mbind option_bind] in H.
      rewrite (IH _ _ _ _ _ H). apply length_insert.
    + destruct (_ && _ && _); [|injection H as <- <-; reflexivity].
      apply (IH _ _ _ _ _ H).
Qed.

Lemma scan_foreign s : forall data d p,
  0 <= d <= 3 -> length data = 4%nat -> Exists foreign s ->
  exists sc, pci_scan s data d p = Some (sc, false).
Proof.
  induction s as [|c s IH]; intros data d p Hd Hlen Hex.
  - apply Exists_nil in Hex. contradiction.
  - cbn [pci_scan]. destruct (digit c) as [v|] eqn:Hv.
    + assert (Hs : Exists foreign s).
      { apply Exists_cons in Hex as [(Hc & _)|Hs]; [congruence | exact Hs]. }
      destruct (_ || _ || _ || _); [eauto|].
      destruct (lookup_lt_is_Some_2 data (Z.to_nat d) ltac:(lia)) as [old Hold].
      rewrite Hold. cbn [mbind option_bind].
      replace (Z.to_nat d <? length data)%nat with true
        by (symmetry; apply Nat.ltb_lt; lia).
      apply IH; [exact Hd | rewrite length_insert; exact Hlen | exact Hs].
    + destruct (Z.eqb_spec (Z_of_byte c) (Z_of_byte colon)) as [Hc|Hc];
        destruct (Z.eqb_spec (Z_of_byte c) (Z_of_byte dot)) as [Hc'|Hc'];
        destruct (Z.ltb_spec d 3); cbn [andb orb]; rewrite ?andb_false_r; eauto;
        try (apply Z_of_byte_inj in Hc); try (apply Z_of_byte_inj in Hc');
        (destruct (_ && _); [|eauto]);
        (apply IH; [lia | exact Hlen |]);
        (apply Exists_cons in Hex as [(_ & Hn1 & Hn2)|Hs]; [congruence | exact Hs]).
Qed.

Section ParseFacts.

Variable int_arg : list byte -> option Z.
Variable get_port_from_pci : Z -> Z -> Z -> Z -> Z.
Variable rte_eth_dev_count : Z.

#[local] Abbreviation parse' := (parse int_arg get_port_from_pci rte_eth_dev_count).
#[local] Abbreviation resolve' := (resolve rte_eth_dev_count).

(** A PCI address of one to four hexadecimal digits, a colon, one or two
    digits, a colon, one or two digits, a dot and one digit, that is not read
    as a port number, is taken without a format error, whatever the four
    words held before: the device is looked up with the four numbers the
    digit groups stand for. *)
Theorem parse_pci_address (cs0 cs1 cs2 : list byte) (cf : byte) (data0 : list Z) :
  well_formed cs0 cs1 cs2 cf -> length data0 = 4%nat ->
  int_arg (address cs0 cs1 cs2 cf) = None ->
  parse' (address cs0 cs1 cs2 cf) data0
  = Some (resolve' (uint8 (get_port_from_pci (hexval cs0) (hexval cs1)
                                              (hexval cs2) (hexval [cf])))).
Proof.
  intros Hwf Hlen Hint. unfold parse. rewrite Hint.
  rewrite (scan_address _ _ _ _ _ Hwf Hlen). reflexivity.
Qed.

(** A string with a character that is neither a hexadecimal digit, a colon
    nor a dot is never answered with the format error: the loop is left
    before the end of the string, so the test after it does not fire, and
    the device is looked up with the four words as the loop left them. *)
Theorem parse_foreign_character_no_format_error (str : list byte) (data0 : list Z) :
  length data0 = 4%nat -> Exists foreign str -> int_arg str = None ->
  exists sc d0 d1 d2 d3,
    pci_scan str data0 0 0 = Some (sc, false) /\ data sc = [d0; d1; d2; d3] /\
    parse' str data0 = Some (resolve' (uint8 (get_port_from_pci d0 d1 d2 d3))).
Proof.
  intros Hlen Hex Hint.
  destruct (scan_foreign str data0 0 0 ltac:(lia) Hlen Hex) as [sc Hsc].
  pose proof (scan_length _ _ _ _ _ _ Hsc) as Hl. rewrite Hlen in Hl.
  destruct sc as [dt d p]. cbn [data] in Hl.
  destruct dt as [|d0 [|d1 [|d2 [|d3 [|? ?]]]]]; try discriminate.
  exists (MkScan [d0; d1; d2; d3] d p), d0, d1, d2, d3.
  split; [exact Hsc|]. split; [reflexivity|].
  unfold parse. rewrite Hint, Hsc. reflexivity.
Qed.

(** An address that stops in the first, second or third digit group, and
    is not read as a port number, is answered with the format error. *)
Theorem parse_truncated_address_rejected (cs0 cs1 cs2 : list byte) (data0 : list Z) :
  Forall is_hex cs0 -> Forall is_hex cs1 -> Forall is_hex cs2 ->
  (1 <= length cs0 <= 4)%nat -> (1 <= length cs1 <= 2)%nat ->
  (1 <= length cs2 <= 2)%nat -> length data0 = 4%nat ->
  (int_arg cs0 = None -> parse' cs0 data0 = Some InvalidFormat) /\
  (int_arg (cs0 ++ colon :: cs1) = None ->
   parse' (cs0 ++ colon :: cs1) data0 = Some InvalidFormat) /\
  (int_arg (cs0 ++ colon :: cs1 ++ colon :: cs2) = None ->
   parse' (cs0 ++ colon :: cs1 ++ colon :: cs2) data0 = Some InvalidFormat).
Proof.
  intros H0 H1 H2 L0 L1 L2 Hlen.
  assert (Hl0 : limit 0 = 4) by reflexivity.
  assert (Hl1 : limit 1 = 2) by reflexivity.
  assert (Hl2 : limit 2 = 2) by reflexivity.
  assert (Herr : forall dt d n, 0 <= d < 3 -> (1 <= n)%nat ->
            format_error (MkScan dt d (Z.of_nat n), true) = true).
  { intros dt d n Hd Hn. unfold format_error. cbn [fst snd PCIArg.p PCIArg.d andb].
    replace (Z.of_nat n =? 0) with false by (symmetry; apply Z.eqb_neq; lia).
    replace (d =? 3) with false by (symmetry; apply Z.eqb_neq; lia).
    reflexivity. }
  split; [|split]; intros Hint; unfold parse; rewrite Hint.
  - rewrite <- (app_nil_r cs0) at 1.
    rewrite (scan_group cs0) by (try assumption; lia).
    cbn [pci_scan mbind option_bind]. rewrite Herr by lia. reflexivity.
  - rewrite (scan_group cs0) by (try assumption; lia).
    rewrite scan_colon by lia. change (0 + 1) with 1.
    rewrite <- (app_nil_r cs1) at 1.
    rewrite (scan_group cs1) by (try assumption; rewrite ?length_insert; lia).
    cbn [pci_scan mbind option_bind]. rewrite Herr by lia. reflexivity.
  - rewrite (scan_group cs0) by (try assumption; lia).
    rewrite scan_colon by lia. change (0 + 1) with 1.
    rewrite (scan_group cs1) by (try assumption; rewrite ?length_insert; lia).
    rewrite scan_colon by lia. change (1 + 1) with 2.
    rewrite <- (app_nil_r cs2) at 1.
    rewrite (scan_group cs2) by (try assumption; rewrite ?length_insert; lia).
    cbn [pci_scan mbind option_bind]. rewrite Herr by lia. reflexivity.
Qed.

End ParseFacts.

(** *** The theorems at work *)

Definition no_int (str : list byte) : option Z := None.
Definition port_of_bus (domain bus dev func : Z) : Z := bus.

Lemma parse_pci_address_witness :
  parse no_int port_of_bus 4
    (address ["0"; "0"; "0"; "0"] ["0"; "3"] ["1"; "f"] "0")%byte [7; 7; 7; 7]
  = Some (Device 3).
Proof.
  rewrite (parse_pci_address no_int port_of_bus 4); [reflexivity | | reflexivity..].
  unfold well_formed, is_hex.
  repeat split; repeat constructor; cbn; try discriminate; lia.
Defined.

Lemma parse_foreign_character_no_format_error_witness :
  exists sc d0 d1 d2 d3,
    pci_scan ["e"; "t"; "h"; "0"]%byte [7; 7; 7; 7] 0 0 = Some (sc, false) /\
    data sc = [d0; d1; d2; d3] /\
    parse no_int port_of_bus 4 ["e"; "t"; "h"; "0"]%byte [7; 7; 7; 7]
    = Some (resolve 4 (uint8 (port_of_bus d0 d1 d2 d3))).
Proof.
  apply (parse_foreign_character_no_format_error no_int port_of_bus 4);
    [reflexivity | | reflexivity].
  apply Exists_cons_tl, Exists_cons_hd.
  repeat split; discriminate.
Defined.

Lemma parse_truncated_address_rejected_witness :
  parse no_int port_of_bus 4 ["0"; "0"; "0"; "0"; ":"; "0"; "3"]%byte [7; 7; 7; 7]
  = Some InvalidFormat.
Proof.
  apply (parse_truncated_address_rejected no_int port_of_bus 4
           ["0"; "0"; "0"; "0"] ["0"; "3"] ["1"; "f"] [7; 7; 7; 7])%byte;
    try reflexivity; try (cbn; lia);
    repeat constructor; discriminate.
Defined.

End PCIArg.
